(** * gordf: the RDF/XML reader and the triple extractor

    A shallow embedding of [rdfloader/xmlreader] (the tag and attribute
    grammar and the block tree builder) and of [rdfloader/parser] (namespace
    resolution, node identity and the concurrent triple extractor).

    Text is modelled with [string]: a stream is the string of the characters
    still to be read, one [ascii] per code point.  Functions that return
    [(value, err)] in Go return the value, an [option error] and the stream
    left behind, so that a partially filled value next to an error and an
    error variable that is overwritten are both visible. *)

From Stdlib Require Import String Ascii ZArith Lia List Bool.
From Stdlib Require Import Decimal DecimalString DecimalZ DecimalPos.
From stdpp Require Import gmap strings list fin_maps.
Import ListNotations.

Local Open Scope string_scope.
Local Open Scope Z_scope.

#[local] Arguments String.append !_ _ / : simpl nomatch.

(** ** Errors *)

Inductive error : Type :=
| EOF
| ErrWordAfterColon      (* expected a word after colon *)
| ErrAssign              (* expected an assignment sign (=) *)
| ErrQuote               (* assignment operator must be followed by a quote *)
| ErrClosingQuote        (* unexpected blank char. expected a closing quote *)
| ErrStrayAtEOF          (* found stray characters at EOF *)
| ErrExtraChars          (* found extra chars before tag start *)
| ErrUnexpectedClosing   (* unexpected closing tag *)
| ErrPrologEnd           (* expected a > char after ? *)
| ErrSlashGt             (* expected closing angular bracket after / *)
| ErrExpectedClosing     (* expected a closing tag *)
| ErrExpectedGt          (* expected a > char *)
| ErrTagMismatch         (* opening and closing tags doesn't match *)
| ErrUndefinedSchema (schemaName : string)
| ErrSchemaURI.          (* schema URI doesn't confirm to URL rules *)

#[global] Instance error_eq_dec : EqDecision error.
Proof. solve_decision. Defined.

(** ** Scanner *)

Module Scanner.

(** A delimiter set is a 64-bit mask. *)
Definition mask := Z.

(** [1 << uint(r)] on a [uint64]: the bit falls off for code points from 64
    on. *)
Definition bit (r : ascii) : mask :=
  Z.shiftl 1 (Z.of_nat (nat_of_ascii r)) mod 2 ^ 64.

(** Modelled from the spec: the constant [WHITESPACE] is not under src/; the
    spec gives it as the mask of space, tab, carriage return and line
    feed. *)
Definition WHITESPACE : mask :=
  Z.lor (Z.lor (bit " ") (bit "009")) (Z.lor (bit "013") (bit "010")).

Definition is_delim (delim : mask) (r : ascii) : bool :=
  negb (Z.land delim (bit r) =? 0).

(** Modelled from the spec: [readARune] is not under src/; it consumes one
    character and fails at the end of the stream (the rune returned with
    the failure is the zero rune). *)
Definition readARune (s : string) : ascii * option error * string :=
  match s with
  | EmptyString => (Ascii.zero, Some EOF, s)
  | String c rest => (c, None, rest)
  end.

(** Modelled from the spec: [peekARune] is not under src/; it is
    [readARune] without consuming. *)
Definition peekARune (s : string) : ascii * option error :=
  match s with
  | EmptyString => (Ascii.zero, Some EOF)
  | String c _ => (c, None)
  end.

Fixpoint take (n : nat) (s : string) : string :=
  match n, s with
  | S n', String c rest => String c (take n' rest)
  | _, _ => EmptyString
  end.

Fixpoint drop (n : nat) (s : string) : string :=
  match n, s with
  | S n', String _ rest => drop n' rest
  | _, _ => s
  end.

(** Modelled from the spec: [peekNBytes] is not under src/; it returns the
    next [n] characters without consuming, and fails when fewer are left. *)
Definition peekNBytes (n : nat) (s : string) : string * option error :=
  if (String.length s <? n)%nat then (s, Some EOF) else (take n s, None).

(** Modelled from the spec: [readNBytes] is not under src/; it is
    [peekNBytes] that consumes what it returns. *)
Definition readNBytes (n : nat) (s : string) : string * option error * string :=
  if (String.length s <? n)%nat then (s, Some EOF, EmptyString)
  else (take n s, None, drop n s).

(** Modelled from the spec: [readTill] is not under src/; it consumes and
    returns every character up to, not including, the first delimiter, and
    fails with the end of the stream, next to what it consumed, when no
    delimiter comes. *)
Fixpoint readTill (delim : mask) (s : string) : string * option error * string :=
  match s with
  | EmptyString => (EmptyString, Some EOF, EmptyString)
  | String c rest =>
      if is_delim delim c then (EmptyString, None, s)
      else let '(w, e, s') := readTill delim rest in (String c w, e, s')
  end.

(** Modelled from the spec: [ignoreWhiteSpace] is not under src/; it skips
    whitespace and leaves the first other character unread.  Its callers
    treat its error as a possible end of file, so it fails when the stream
    ends before such a character. *)
Fixpoint ignoreWhiteSpace (s : string) : option error * string :=
  match s with
  | EmptyString => (Some EOF, EmptyString)
  | String c rest =>
      if is_delim WHITESPACE c then ignoreWhiteSpace rest else (None, s)
  end.

End Scanner.

Import Scanner.

(** ** Data model of the reader *)

Record Attribute : Type := mkAttribute
  { attr_SchemaName : string; attr_Name : string; attr_Value : string }.

Record Tag : Type := mkTag
  { SchemaName : string; Name : string; Attrs : list Attribute }.

Inductive Block : Type :=
  mkBlock (OpeningTag : Tag) (Value : string) (Children : list Block).

Definition OpeningTag (b : Block) : Tag := let 'mkBlock t _ _ := b in t.
Definition Value (b : Block) : string := let 'mkBlock _ v _ := b in v.
Definition Children (b : Block) : list Block := let 'mkBlock _ _ c := b in c.

Definition emptyAttribute : Attribute := mkAttribute "" "" "".
Definition emptyTag : Tag := mkTag "" "" [].
Definition emptyBlock : Block := mkBlock emptyTag "" [].

#[global] Instance Attribute_eq_dec : EqDecision Attribute.
Proof. solve_decision. Defined.
#[global] Instance Tag_eq_dec : EqDecision Tag.
Proof. solve_decision. Defined.

(** ** Tokenizer *)

(** The double quote character. *)
Definition dquote : ascii := "034"%char.

(** The first colon of a word: what is before it and what is after it. *)
Fixpoint splitColon (word : string) : option (string * string) :=
  match word with
  | EmptyString => None
  | String c rest =>
      if Ascii.eqb c ":" then Some (EmptyString, rest)
      else match splitColon rest with
           | Some (a, b) => Some (String c a, b)
           | None => None
           end
  end.

(** [readColonPair]: the pair, whether a colon was found, the error. *)
Definition readColonPair (delim : mask) (s : string)
  : (string * string) * bool * option error * string :=
  let '(word, err, s1) := readTill delim s in
  match err with
  | Some e => (("", ""), false, Some e, s1)
  | None =>
      match splitColon word with
      | Some (first, latter) =>
          if (String.length latter =? 0)%nat
          then ((first, ""), true, Some ErrWordAfterColon, s1)
          else ((first, latter), true, None, s1)
      | None => ((word, ""), false, None, s1)
      end
  end.

(** [readAttribute].  The two grammar errors are assigned to [err] and then
    overwritten by the next call that also assigns [err], as in the source. *)
Definition readAttribute (s : string) : Attribute * option error * string :=
  let '(pr, colonExists, err, s1) :=
    readColonPair (Z.lor WHITESPACE (bit "=")) s in
  match err with
  | Some e => (emptyAttribute, Some e, s1)
  | None =>
      let attr :=
        if colonExists then mkAttribute (fst pr) (snd pr) ""
        else mkAttribute "" (fst pr) "" in
      let '(err, s2) := ignoreWhiteSpace s1 in
      match err with
      | Some e => (attr, Some e, s2)
      | None =>
          let '(nextRune, err, s3) := readARune s2 in
          match err with
          | Some e => (attr, Some e, s3)
          | None =>
              let err := if Ascii.eqb nextRune "=" then err else Some ErrAssign in
              let '(firstQuote, err, s4) := readARune s3 in
              let err :=
                if Ascii.eqb firstQuote "'" || Ascii.eqb firstQuote dquote
                then err else Some ErrQuote in
              let '(word, err, s5) :=
                readTill (Z.lor WHITESPACE (bit firstQuote)) s4 in
              match err with
              | Some e => (attr, Some e, s5)
              | None =>
                  let '(secondQuote, _, s6) := readARune s5 in
                  if Ascii.eqb firstQuote secondQuote
                  then (mkAttribute (attr_SchemaName attr) (attr_Name attr) word,
                        None, s6)
                  else (attr, Some ErrClosingQuote, s6)
              end
          end
      end
  end.

(** The prolog branch of [readOpeningTag], entered with the cursor on [?].
    [inl]: the function returns here with this error; [inr]: it goes on to
    read a tag name (the error assigned when [>] is missing belongs to the
    branch's own [err] and is dropped with it). *)
Definition readProlog (s : string) : (option error * string) + string :=
  let '(_, _, s) := readARune s in
  let '(_, err, s) := readTill (bit "?") s in
  match err with
  | Some e => inl (Some e, s)
  | None =>
      let '(_, _, s) := readARune s in
      let '(err, s) := ignoreWhiteSpace s in
      match err with
      | Some e => inl (Some e, s)
      | None =>
          let '(nextRune, err) := peekARune s in
          match err with
          | Some e => inl (Some e, s)
          | None =>
              if Ascii.eqb nextRune ">"
              then let '(_, _, s) := readARune s in inl (None, s)
              else inr s
          end
      end
  end.

(** The attribute loop of [readOpeningTag]; [None] is the model running out
    of fuel. *)
Fixpoint readAttrs (fuel : nat) (attrs : list Attribute) (nextRune : ascii)
    (s : string) : option (list Attribute * option error * string) :=
  if Ascii.eqb nextRune ">" || Ascii.eqb nextRune "/" then Some (attrs, None, s)
  else
    match fuel with
    | O => None
    | S fuel =>
        let '(attr, err, s) := readAttribute s in
        match err with
        | Some e => Some (attrs, Some e, s)
        | None =>
            let attrs := (attrs ++ [attr])%list in
            let '(err, s) := ignoreWhiteSpace s in
            match err with
            | Some e => Some (attrs, Some e, s)
            | None =>
                let '(nextRune, err) := peekARune s in
                match err with
                | Some e => Some (attrs, Some e, s)
                | None => readAttrs fuel attrs nextRune s
                end
            end
        end
    end.

Definition tagOfPair (pr : string * string) (colonExist : bool) : Tag :=
  if colonExist then mkTag (fst pr) (snd pr) [] else mkTag "" (fst pr) [].

(** [readOpeningTag]: the tag, [isProlog], [blockComplete], the error. *)
Definition readOpeningTag (fuel : nat) (s : string)
  : option (Tag * bool * bool * option error * string) :=
  let tag := emptyTag in
  let '(err, s) := ignoreWhiteSpace s in
  match err with
  | Some e => Some (tag, false, false, Some e, s)
  | None =>
  let '(word, err, s) := readTill (bit "<") s in
  match err with
  | Some EOF =>
      if (0 <? String.length word)%nat
      then Some (tag, false, false, Some ErrStrayAtEOF, s)
      else Some (tag, false, false, Some EOF, s)
  | _ =>
  if negb (String.length word =? 0)%nat
  then Some (tag, false, false, Some ErrExtraChars, s)
  else
  let '(_, _, s) := readARune s in
  let '(_, s) := ignoreWhiteSpace s in
  let '(nextRune, err) := peekARune s in
  match err with
  | Some e => Some (tag, false, false, Some e, s)
  | None =>
  if Ascii.eqb nextRune "/"
  then Some (tag, false, false, Some ErrUnexpectedClosing, s)
  else
  let prolog :=
    if Ascii.eqb nextRune "?" then
      match readProlog s with
      | inl (err, s) => inl (err, s)
      | inr s => inr (true, s)
      end
    else inr (false, s) in
  match prolog with
  | inl (err, s) => Some (tag, true, false, err, s)
  | inr (isProlog, s) =>
  let '(pr, colonExist, err, s) :=
    readColonPair (Z.lor (Z.lor (bit ">") WHITESPACE) (bit "/")) s in
  match err with
  | Some e => Some (tag, isProlog, false, Some e, s)
  | None =>
  let tag := tagOfPair pr colonExist in
  let '(delim, _) := peekARune s in
  let s := if negb (Z.land (bit delim) WHITESPACE =? 0)
           then snd (ignoreWhiteSpace s) else s in
  let '(delim, _) := peekARune s in
  if Ascii.eqb delim ">" then
    let '(_, _, s) := readARune s in Some (tag, isProlog, false, None, s)
  else if Ascii.eqb delim "/" then
    let '(_, _, s) := readARune s in
    let '(nextRune, err, s) := readARune s in
    match err with
    | Some e => Some (tag, isProlog, true, Some e, s)
    | None =>
        Some (tag, isProlog, true,
              if Ascii.eqb nextRune ">" then None else Some ErrSlashGt, s)
    end
  else
  let '(err, s) := ignoreWhiteSpace s in
  match err with
  | Some e => Some (tag, isProlog, false, Some e, s)
  | None =>
  let '(nextRune, err) := peekARune s in
  match err with
  | Some e => Some (tag, isProlog, false, Some e, s)
  | None =>
  if Ascii.eqb nextRune ">" then
    let '(_, _, s) := readARune s in
    Some (mkTag (SchemaName tag) word (Attrs tag), isProlog, false, None, s)
  else
  match readAttrs fuel (Attrs tag) nextRune s with
  | None => None
  | Some (attrs, Some e, s) =>
      Some (mkTag (SchemaName tag) (Name tag) attrs, isProlog, false, Some e, s)
  | Some (attrs, None, s) =>
      let tag := mkTag (SchemaName tag) (Name tag) attrs in
      let '(nextRune, _, s) := readARune s in
      if Ascii.eqb nextRune "/" then
        (* the error for a missing [>] is assigned to the branch's own [err]:
           the function returns the outer one, which is nil *)
        let '(_, err, s) := readARune s in
        match err with
        | Some e => Some (tag, isProlog, true, Some e, s)
        | None => Some (tag, isProlog, true, None, s)
        end
      else Some (tag, isProlog, false, None, s)
  end
  end end end end end end end.

Definition readClosingTag (s : string) : Tag * option error * string :=
  let '(next2Bytes, err, s) := readNBytes 2 s in
  match err with
  | Some e => (emptyTag, Some e, s)
  | None =>
      if negb (String.eqb next2Bytes "</") then (emptyTag, Some ErrExpectedClosing, s)
      else
        let '(pr, colonExists, err, s) :=
          readColonPair (Z.lor (bit ">") WHITESPACE) s in
        match err with
        | Some e => (emptyTag, Some e, s)
        | None =>
            let closingTag := tagOfPair pr colonExists in
            let '(_, s) := ignoreWhiteSpace s in
            let '(nextChar, err, s) := readARune s in
            match err with
            | Some e => (closingTag, Some e, s)
            | None =>
                if negb (Ascii.eqb nextChar ">")
                then (closingTag, Some ErrExpectedGt, s)
                else (closingTag, None, s)
            end
        end
  end.

(** The end of [readBlock]: the closing tag must repeat the opening one. *)
Definition closeBlock (block : Block) (s : string) : Block * option error * string :=
  let '(closingTag, err, s) := readClosingTag s in
  match err with
  | Some e => (block, Some e, s)
  | None =>
      if negb (String.eqb (Name (OpeningTag block)) (Name closingTag))
         || negb (String.eqb (SchemaName (OpeningTag block)) (SchemaName closingTag))
      then (block, Some ErrTagMismatch, s)
      else (block, None, s)
  end.

(** [readBlock] and its loop over the children; [None] is the model running
    out of fuel. *)
Fixpoint readBlock (fuel : nat) (s : string) {struct fuel}
  : option (Block * option error * string) :=
  match fuel with
  | O => None
  | S fuel =>
  match readOpeningTag (String.length s) s with
  | None => None
  | Some (openingTag, isProlog, blockComplete, err, s) =>
  if isProlog then readBlock fuel s
  else
  match err with
  | Some e => Some (emptyBlock, Some e, s)
  | None =>
  let block := mkBlock openingTag "" [] in
  if blockComplete then Some (block, None, s)
  else
  let '(_, s) := ignoreWhiteSpace s in
  let '(nextRune, err) := peekARune s in
  match err with
  | Some e => Some (block, Some e, s)
  | None =>
  if negb (Ascii.eqb nextRune "<") then
    let '(word, err, s) := readTill (bit "<") s in
    match err with
    | Some e => Some (block, Some e, s)
    | None => Some (closeBlock (mkBlock openingTag word []) s)
    end
  else
    let '(nextTwoBytes, err) := peekNBytes 2 s in
    match err with
    | Some e => Some (block, Some e, s)
    | None =>
        match readChildren fuel [] nextTwoBytes s with
        | None => None
        | Some (children, Some e, s) =>
            Some (mkBlock openingTag "" children, Some e, s)
        | Some (children, None, s) =>
            Some (closeBlock (mkBlock openingTag "" children) s)
        end
    end
  end end end end
with readChildren (fuel : nat) (children : list Block) (nextTwoBytes : string)
    (s : string) {struct fuel}
  : option (list Block * option error * string) :=
  if String.eqb nextTwoBytes "</" then Some (children, None, s)
  else
    match fuel with
    | O => None
    | S fuel =>
        match readBlock fuel s with
        | None => None
        | Some (childBlock, Some e, s) => Some (children, Some e, s)
        | Some (childBlock, None, s) =>
            let children := (children ++ [childBlock])%list in
            let '(_, s) := ignoreWhiteSpace s in
            let '(nextTwoBytes, err) := peekNBytes 2 s in
            match err with
            | Some e => Some (children, Some e, s)
            | None => readChildren fuel children nextTwoBytes s
            end
        end
    end.

(** [Read]: one [readBlock] from the start of the document (closing the file
    has no part in the result). *)
Definition Read (s : string) : option (Block * option error * string) :=
  readBlock (S (String.length s)) s.

(** ** The uri package, as the parser uses it *)

(** Modelled from the spec: package [uri] is not under src/; the spec gives
    it as a URI value type with construction from a string, which fails on a
    malformed one, and with "append fragment to base".  [zeroURIRef] is the
    zero value [uri.URIRef{}]; URI values are compared with [==]. *)
Class URI : Type := {
  URIRef : Type;
  URIRef_eq_dec :: EqDecision URIRef;
  zeroURIRef : URIRef;
  NewURIRef : string -> option URIRef;
  AddFragment : URIRef -> string -> URIRef;
  URIString : URIRef -> string
}.

(** ** Nodes and triples *)

(** Modelled from the spec: the [Node] type is not under src/; the parser
    builds it as [Node{NodeType, ID}] with the kinds IRI, blank and
    literal. *)
Inductive NodeType : Type := IRI | BLANK | LITERAL.

Record Node : Type := mkNode { nodeType : NodeType; ID : string }.

#[global] Instance NodeType_eq_dec : EqDecision NodeType.
Proof. solve_decision. Defined.
#[global] Instance Node_eq_dec : EqDecision Node.
Proof. solve_decision. Defined.

(** A triple holds three [*Node] pointers; [None] is nil.  Nodes are never
    written after they are built, so a pointer is modelled by the node it
    points to. *)
Record Triple : Type := mkTriple
  { Subject : option Node; Predicate : option Node; Object : option Node }.

#[global] Instance Triple_eq_dec : EqDecision Triple.
Proof. solve_decision. Defined.

(** How [fmt] prints a [*Node] under [%v]; the [Node] type and its methods
    are not under src/, so the rendering is a parameter. *)
Class NodeFormat : Type := nodeString : option Node -> string.

Definition Hash `{NodeFormat} (triple : Triple) : string :=
  "{" ++ nodeString (Subject triple) ++ "; " ++ nodeString (Predicate triple)
      ++ "; " ++ nodeString (Object triple) ++ "}".

(** ** Blank nodes *)

(** Modelled from the spec: [BlankNodeGetter] is not under src/; the spec
    gives it as a monotonic counter plus a mapping from the caller's
    blank-node id to the node minted for it. *)
Record BlankNodeGetter : Type := mkBlankNodeGetter
  { lastid : Z; minted : gmap string Node }.

(** Modelled from the spec: the id of the blank node number [n]; the spec
    asks for a unique number per node, and the model writes it in decimal
    after an [N]. *)
Definition blankID (n : Z) : string :=
  "N" ++ DecimalString.NilZero.string_of_int (Z.to_int n).

(** Modelled from the spec: [Get] mints a fresh, uniquely-numbered blank
    node. *)
Definition Get (g : BlankNodeGetter) : Node * BlankNodeGetter :=
  let n := lastid g + 1 in
  (mkNode BLANK (blankID n), mkBlankNodeGetter n (minted g)).

(** Modelled from the spec: [GetFromId] yields the node minted before for
    the id, or mints and caches a new one. *)
Definition GetFromId (id : string) (g : BlankNodeGetter) : Node * BlankNodeGetter :=
  match minted g !! id with
  | Some n => (n, g)
  | None =>
      let '(n, g') := Get g in
      (n, mkBlankNodeGetter (lastid g') (<[id := n]> (minted g')))
  end.

(** ** The parser *)

Definition RDFNS : string := "http://www.w3.org/1999/02/22-rdf-syntax-ns#".

Section Parser.
Context `{U : URI} `{F : NodeFormat}.

(** The [Parser] struct.  [writeLock] has no field here: every statement
    of the extractor is one atomic step of the model below. *)
Record Parser : Type := mkParser {
  Triples : gmap string Triple;
  schemaDefinition : gmap string URIRef;
  blankNodeGetter : BlankNodeGetter;
  rdfNS : URIRef;
  wg : Z
}.

Definition setTriples (p : Parser) (t : gmap string Triple) : Parser :=
  mkParser t (schemaDefinition p) (blankNodeGetter p) (rdfNS p) (wg p).
Definition setSchemaDefinition (p : Parser) (d : gmap string URIRef) : Parser :=
  mkParser (Triples p) d (blankNodeGetter p) (rdfNS p) (wg p).
Definition setBlankNodeGetter (p : Parser) (g : BlankNodeGetter) : Parser :=
  mkParser (Triples p) (schemaDefinition p) g (rdfNS p) (wg p).
Definition setWg (p : Parser) (n : Z) : Parser :=
  mkParser (Triples p) (schemaDefinition p) (blankNodeGetter p) (rdfNS p) n.

(** [parseHeaderBlock]: the loop over the root's attributes, from the
    empty map. *)
Fixpoint parseHeaderAttrs (attrs : list Attribute) (namespaceURI : gmap string URIRef)
  : gmap string URIRef * option error :=
  match attrs with
  | [] => (namespaceURI, None)
  | attr :: attrs =>
      if String.eqb (attr_SchemaName attr) "xmlns" then
        match NewURIRef (attr_Value attr) with
        | None => (namespaceURI, Some ErrSchemaURI)
        | Some uriref =>
            parseHeaderAttrs attrs (<[attr_Name attr := uriref]> namespaceURI)
        end
      else parseHeaderAttrs attrs namespaceURI
  end.

Definition parseHeaderBlock (rootBlock : Block) : gmap string URIRef * option error :=
  parseHeaderAttrs (Attrs (OpeningTag rootBlock)) ∅.

Definition uriFromPair (parser : Parser) (schemaName name : string)
  : URIRef * option error :=
  match schemaDefinition parser !! schemaName with
  | None => (zeroURIRef, Some (ErrUndefinedSchema schemaName))
  | Some baseURI => (AddFragment baseURI name, None)
  end.

Definition appendTriple (parser : Parser) (triple : Triple) : Parser :=
  setTriples parser (<[Hash triple := triple]> (Triples parser)).

(** The loop of [getRDFAttributeIndex] from position [i].  The error of
    [uriFromPair] lives in the loop body: the loop is left on it and the
    function's own [err] stays nil. *)
Fixpoint getRDFAttributeLoop (parser : Parser) (attrName : string) (i : Z)
    (attrs : list Attribute) : Z :=
  match attrs with
  | [] => -1
  | attr :: attrs =>
      match uriFromPair parser (attr_SchemaName attr) (attr_Name attr) with
      | (_, Some _) => -1
      | (attrUri, None) =>
          if decide (attrUri = AddFragment (rdfNS parser) attrName) then i
          else getRDFAttributeLoop parser attrName (i + 1) attrs
      end
  end.

Definition getRDFAttributeIndex (parser : Parser) (tag : Tag) (attrName : string)
  : Z * option error :=
  (getRDFAttributeLoop parser attrName 0 (Attrs tag), None).

(** [openingTag.Attrs[index]]; the index comes from the loop above, so it
    is in range wherever the parser indexes. *)
Definition attrAt (tag : Tag) (index : Z) : Attribute :=
  default emptyAttribute (Attrs tag !! Z.to_nat index).

(** [nodeFromTag]: the node ([None] is the nil pointer), the error, and
    the blank node getter after the call. *)
Definition nodeFromTag (parser : Parser) (openingTag : Tag)
  : option Node * option error * BlankNodeGetter :=
  let g := blankNodeGetter parser in
  let '(index, err) := getRDFAttributeIndex parser openingTag "about" in
  match err with
  | Some e => (None, Some e, g)
  | None =>
      if index =? -1 then
        let '(rdfNodeIDIndex, err) :=
          getRDFAttributeIndex parser openingTag "nodeID" in
        match err with
        | Some e => (None, Some e, g)
        | None =>
            if rdfNodeIDIndex =? -1 then
              let '(n, g) := Get g in (Some n, None, g)
            else
              let '(n, g) :=
                GetFromId (attr_Value (attrAt openingTag rdfNodeIDIndex)) g in
              (Some n, None, g)
        end
      else (Some (mkNode IRI (attr_Value (attrAt openingTag index))), None, g)
  end.

(** [New]. *)
Definition New : Parser :=
  mkParser ∅ {[ "" := zeroURIRef ]} (mkBlankNodeGetter (-1) ∅)
           (default zeroURIRef (NewURIRef RDFNS)) 0.

(** *** The extractor, statement by statement

    [Parse] starts one goroutine per child of the root and [parseBlock]
    one per object block.  The model runs them as threads of one
    configuration: a step executes the statement at one line of one thread,
    and any thread that can step may be the next.  The labels are the line
    numbers of parser.go. *)

Inductive Line : Type :=
| L168 | L169 | L170 | L171 | L174 | L175 | L176 | L180 | L185 | L188
| L191 | L192 | L193 | L205 | L213 | L214 | L215 | L216 | L220 | L225
| L226 | L227 | L232
| Returned      (* left through a [return] inside the loops *)
| Finished.     (* left after [wg.Done()] *)

(** One call of [parseBlock]: its arguments, the line it is at and its
    local variables.  [errp] is the index of the error variable it was
    given a pointer to. *)
Record Unit : Type := mkUnit {
  currBlock : Block;
  node : option Node;
  errp : nat;
  line : Line;
  preds : list Block;             (* children of [currBlock] still to visit *)
  predicateBlock : Block;
  predicateNode : option Node;
  newErr : option error;
  openingTagUri : URIRef;
  resIdx : Z;
  objs : list Block;              (* children of [predicateBlock] still to visit *)
  objectBlock : Block;
  objectNode : option Node
}.

Definition newUnit (b : Block) (n : option Node) (e : nat) : Unit :=
  mkUnit b n e L168 (Children b) emptyBlock None None zeroURIRef 0 []
         emptyBlock None.

Definition goto (l : Line) (u : Unit) : Unit :=
  mkUnit (currBlock u) (node u) (errp u) l (preds u) (predicateBlock u)
         (predicateNode u) (newErr u) (openingTagUri u) (resIdx u) (objs u)
         (objectBlock u) (objectNode u).
Definition setPred (pb : Block) (ps : list Block) (u : Unit) : Unit :=
  mkUnit (currBlock u) (node u) (errp u) (line u) ps pb
         (predicateNode u) (newErr u) (openingTagUri u) (resIdx u) (objs u)
         (objectBlock u) (objectNode u).
Definition setPredicateNode (n : option Node) (e : option error) (u : Unit) : Unit :=
  mkUnit (currBlock u) (node u) (errp u) (line u) (preds u) (predicateBlock u)
         n e (openingTagUri u) (resIdx u) (objs u)
         (objectBlock u) (objectNode u).
Definition setOpeningTagUri (x : URIRef) (e : option error) (u : Unit) : Unit :=
  mkUnit (currBlock u) (node u) (errp u) (line u) (preds u) (predicateBlock u)
         (predicateNode u) e x (resIdx u) (objs u)
         (objectBlock u) (objectNode u).
Definition setResIdx (i : Z) (e : option error) (u : Unit) : Unit :=
  mkUnit (currBlock u) (node u) (errp u) (line u) (preds u) (predicateBlock u)
         (predicateNode u) e (openingTagUri u) i (objs u)
         (objectBlock u) (objectNode u).
Definition setObjs (os : list Block) (u : Unit) : Unit :=
  mkUnit (currBlock u) (node u) (errp u) (line u) (preds u) (predicateBlock u)
         (predicateNode u) (newErr u) (openingTagUri u) (resIdx u) os
         (objectBlock u) (objectNode u).
Definition setObj (ob : Block) (os : list Block) (u : Unit) : Unit :=
  mkUnit (currBlock u) (node u) (errp u) (line u) (preds u) (predicateBlock u)
         (predicateNode u) (newErr u) (openingTagUri u) (resIdx u) os
         ob (objectNode u).
Definition setObjectNode (n : option Node) (e : option error) (u : Unit) : Unit :=
  mkUnit (currBlock u) (node u) (errp u) (line u) (preds u) (predicateBlock u)
         (predicateNode u) e (openingTagUri u) (resIdx u) (objs u)
         (objectBlock u) n.

Inductive MainLine : Type :=
| M255 | M256 | M257 | M258 | M261 | M262 | M266 | M267
| MReturned (err : option error).

(** A configuration: the parser's fields, the [err] variables of the
    iterations of [Parse]'s loop (each iteration declares its own), the
    thread of [Parse] with its locals, and the goroutines started so
    far. *)
Record Config : Type := mkConfig {
  parser : Parser;
  slots : list (option error);
  mainLine : MainLine;
  rootChildren : list Block;      (* children of the root still to visit *)
  child : Block;
  childNode : option Node;
  units : list Unit
}.

Definition setParser (p : Parser) (c : Config) : Config :=
  mkConfig p (slots c) (mainLine c) (rootChildren c) (child c) (childNode c)
           (units c).
Definition setSlots (sl : list (option error)) (c : Config) : Config :=
  mkConfig (parser c) sl (mainLine c) (rootChildren c) (child c) (childNode c)
           (units c).
Definition setMain (l : MainLine) (c : Config) : Config :=
  mkConfig (parser c) (slots c) l (rootChildren c) (child c) (childNode c)
           (units c).
Definition setChild (b : Block) (bs : list Block) (c : Config) : Config :=
  mkConfig (parser c) (slots c) (mainLine c) bs b (childNode c) (units c).
Definition setChildNode (n : option Node) (c : Config) : Config :=
  mkConfig (parser c) (slots c) (mainLine c) (rootChildren c) (child c) n
           (units c).
Definition setUnits (us : list Unit) (c : Config) : Config :=
  mkConfig (parser c) (slots c) (mainLine c) (rootChildren c) (child c)
           (childNode c) us.

(** [*errp] and [*errp = e]. *)
Definition readSlot (sl : list (option error)) (e : nat) : option error :=
  default None (sl !! e).
Definition writeSlot (e : nat) (v : option error) (sl : list (option error))
  : list (option error) :=
  <[e := v]> sl.

(** [if *errp != nil { return }], going on to line [l] otherwise. *)
Definition checkErrp (sl : list (option error)) (u : Unit) (l : Line) : Unit :=
  match readSlot sl (errp u) with
  | Some _ => goto Returned u
  | None => goto l u
  end.

Definition rdfTypeTriple (p : Parser) (u : Unit) : Triple :=
  mkTriple (node u)
           (Some (mkNode IRI (URIString (AddFragment (rdfNS p) "type"))))
           (Some (mkNode IRI (URIString (openingTagUri u)))).

(** Lines 196 to 201. *)
Definition objectString (u : Unit) : string :=
  if negb (resIdx u =? -1)
  then attr_Value (attrAt (OpeningTag (predicateBlock u)) (resIdx u))
  else Value (predicateBlock u).

Definition literalTriple (u : Unit) : Triple :=
  mkTriple (node u) (predicateNode u) (Some (mkNode LITERAL (objectString u))).

Definition objectTriple (u : Unit) : Triple :=
  mkTriple (node u) (predicateNode u) (objectNode u).

(** One statement of a call of [parseBlock], on the parser's fields and the
    error variables: the call after it, the parser, the error variables and
    the goroutines it started.  [None] when the call has left the
    function. *)
Definition stepLocal (p : Parser) (sl : list (option error)) (u : Unit)
  : option (Unit * Parser * list (option error) * list Unit) :=
  match line u with
  | L168 =>
      match preds u with
      | [] => Some (goto L232 u, p, sl, [])
      | pb :: ps => Some (goto L169 (setPred pb ps u), p, sl, [])
      end
  | L169 =>
      let '(n, e, g) := nodeFromTag p (OpeningTag (predicateBlock u)) in
      Some (goto L170 (setPredicateNode n e u), setBlankNodeGetter p g, sl, [])
  | L170 => Some (goto L171 u, p, writeSlot (errp u) (newErr u) sl, [])
  | L171 => Some (checkErrp sl u L174, p, sl, [])
  | L174 =>
      let '(x, e) := uriFromPair p (SchemaName (OpeningTag (currBlock u)))
                                   (Name (OpeningTag (currBlock u))) in
      Some (goto L175 (setOpeningTagUri x e u), p, sl, [])
  | L175 => Some (goto L176 u, p, writeSlot (errp u) (newErr u) sl, [])
  | L176 => Some (checkErrp sl u L180, p, sl, [])
  | L180 => Some (goto L185 u, appendTriple p (rdfTypeTriple p u), sl, [])
  | L185 => Some (checkErrp sl u L188, p, sl, [])
  | L188 =>
      if (length (Children (predicateBlock u)) =? 0)%nat
      then Some (goto L191 u, p, sl, [])
      else Some (goto L213 (setObjs (Children (predicateBlock u)) u), p, sl, [])
  | L191 =>
      let '(r, e) :=
        getRDFAttributeIndex p (OpeningTag (predicateBlock u)) "resource" in
      Some (goto L192 (setResIdx r e u), p, sl, [])
  | L192 => Some (goto L193 u, p, writeSlot (errp u) (newErr u) sl, [])
  | L193 => Some (checkErrp sl u L205, p, sl, [])
  | L205 =>
      Some (goto L213 (setObjs (Children (predicateBlock u)) u),
            appendTriple p (literalTriple u), sl, [])
  | L213 =>
      match objs u with
      | [] => Some (goto L168 u, p, sl, [])
      | ob :: os => Some (goto L214 (setObj ob os u), p, sl, [])
      end
  | L214 =>
      let '(n, e, g) := nodeFromTag p (OpeningTag (objectBlock u)) in
      Some (goto L215 (setObjectNode n e u), setBlankNodeGetter p g, sl, [])
  | L215 => Some (goto L216 u, p, writeSlot (errp u) (newErr u) sl, [])
  | L216 => Some (checkErrp sl u L220, p, sl, [])
  | L220 => Some (goto L225 u, appendTriple p (objectTriple u), sl, [])
  | L225 => Some (goto L226 u, setWg p (wg p + 1), sl, [])
  | L226 =>
      Some (goto L227 u, p, sl,
            [newUnit (objectBlock u) (objectNode u) (errp u)])
  | L227 => Some (checkErrp sl u L213, p, sl, [])
  | L232 => Some (goto Finished u, setWg p (wg p - 1), sl, [])
  | Returned | Finished => None
  end.

(** One statement of the goroutine [i]; [None] when it has left
    [parseBlock] (or was never started). *)
Definition stepUnit (i : nat) (c : Config) : option Config :=
  match units c !! i with
  | None => None
  | Some u =>
      match stepLocal (parser c) (slots c) u with
      | None => None
      | Some (u', p', sl', started) =>
          Some (mkConfig p' sl' (mainLine c) (rootChildren c) (child c)
                         (childNode c) (<[i := u']> (units c) ++ started)%list)
      end
  end.

(** One statement of [Parse] from line 255 on; [None] when it has returned
    or is blocked in [wg.Wait()]. *)
Definition stepMain (c : Config) : option Config :=
  let p := parser c in
  match mainLine c with
  | M255 =>
      match rootChildren c with
      | [] => Some (setMain M266 c)
      | b :: bs => Some (setMain M256 (setChild b bs c))
      end
  | M256 => Some (setMain M257 (setParser (setWg p (wg p + 1)) c))
  | M257 =>
      let '(n, e, g) := nodeFromTag p (OpeningTag (child c)) in
      Some (setMain M258
              (setChildNode n
                 (setSlots (slots c ++ [e])%list
                    (setParser (setBlankNodeGetter p g) c))))
  | M258 =>
      match readSlot (slots c) (length (slots c) - 1) with
      | Some e => Some (setMain (MReturned (Some e)) c)
      | None => Some (setMain M261 c)
      end
  | M261 =>
      Some (setMain M262
              (setUnits
                 (units c ++ [newUnit (child c) (childNode c)
                                      (length (slots c) - 1)])%list c))
  | M262 =>
      match readSlot (slots c) (length (slots c) - 1) with
      | Some e => Some (setMain (MReturned (Some e)) c)
      | None => Some (setMain M255 c)
      end
  | M266 => if wg p =? 0 then Some (setMain M267 c) else None
  | M267 => Some (setMain (MReturned None) c)
  | MReturned _ => None
  end.

Inductive Thread : Type := Main | Go (i : nat).

Definition step (t : Thread) (c : Config) : option Config :=
  match t with
  | Main => stepMain c
  | Go i => stepUnit i c
  end.

(** A schedule is the list of the threads that step, in order. *)
Fixpoint run (schedule : list Thread) (c : Config) : option Config :=
  match schedule with
  | [] => Some c
  | t :: schedule =>
      match step t c with
      | Some c' => run schedule c'
      | None => None
      end
  end.

(** [n] statements in a row of one call of [parseBlock]. *)
Fixpoint runLocal (n : nat) (p : Parser) (sl : list (option error)) (u : Unit)
  : option (Unit * Parser * list (option error) * list Unit) :=
  match n with
  | O => Some (u, p, sl, [])
  | S n =>
      match stepLocal p sl u with
      | None => None
      | Some (u1, p1, sl1, started1) =>
          match runLocal n p1 sl1 u1 with
          | None => None
          | Some (u2, p2, sl2, started2) =>
              Some (u2, p2, sl2, (started1 ++ started2)%list)
          end
      end
  end.

(** [Parse] up to line 254, on the content of the file: the error it
    returns, or the configuration at the head of its loop.  The outer
    [None] is the reader's model running out of fuel. *)
Definition ParseStart (parser : Parser) (document : string)
  : option (error + Config) :=
  match Read document with
  | None => None
  | Some (_, Some e, _) => Some (inl e)
  | Some (rootBlock, None, _) =>
      match parseHeaderBlock rootBlock with
      | (_, Some e) => Some (inl e)
      | (schemaDefinition, None) =>
          Some (inr (mkConfig (setSchemaDefinition parser schemaDefinition) []
                              M255 (Children rootBlock) emptyBlock None []))
      end
  end.

End Parser.

(** ** A concrete uri package and node rendering, for running the model *)

(** Modelled from the spec: package [uri] is not under src/.  A URI is a base
    and a fragment; construction fails on a string with a space in it;
    appending a fragment replaces the fragment. *)
Record StringURI : Type := mkStringURI { uriBase : string; uriFragment : string }.

#[global] Instance StringURI_eq_dec : EqDecision StringURI.
Proof. solve_decision. Defined.

Fixpoint hasSpace (s : string) : bool :=
  match s with
  | EmptyString => false
  | String c rest => Ascii.eqb c " " || hasSpace rest
  end.

Fixpoint splitHash (s : string) : string * string :=
  match s with
  | EmptyString => (EmptyString, EmptyString)
  | String c rest =>
      if Ascii.eqb c "#" then (EmptyString, rest)
      else let '(a, b) := splitHash rest in (String c a, b)
  end.

#[global] Instance stringURI : URI := {|
  URIRef := StringURI;
  zeroURIRef := mkStringURI "" "";
  NewURIRef s :=
    if hasSpace s then None
    else let '(a, b) := splitHash s in Some (mkStringURI a b);
  AddFragment u f := mkStringURI (uriBase u) f;
  URIString u := uriBase u ++ "#" ++ uriFragment u
|}.

Definition nodeTypeString (t : NodeType) : string :=
  match t with IRI => "IRI" | BLANK => "BLANK" | LITERAL => "LITERAL" end.

#[global] Instance pointerFormat : NodeFormat := fun n =>
  match n with
  | None => "<nil>"
  | Some n => "&{" ++ nodeTypeString (nodeType n) ++ " " ++ ID n ++ "}"
  end.

(** ** Vocabulary of the statements *)

(** The characters of a string. *)
Definition InStr (c : ascii) (s : string) : Prop :=
  In c (list_ascii_of_string s).

(** The index, counted from [i], of the first element that satisfies [f];
    -1 when there is none. *)
Fixpoint findIndex {A : Type} (f : A -> bool) (i : Z) (l : list A) : Z :=
  match l with
  | [] => -1
  | a :: l => if f a then i else findIndex f (i + 1) l
  end.

(** The elements before the first one that fails [f]. *)
Fixpoint takeWhile {A : Type} (f : A -> bool) (l : list A) : list A :=
  match l with
  | [] => []
  | a :: l => if f a then a :: takeWhile f l else []
  end.

Section Vocabulary.
Context `{U : URI} `{F : NodeFormat}.

(** The attribute's prefix is declared in the namespace table. *)
Definition resolves (p : Parser) (attr : Attribute) : bool :=
  bool_decide (is_Some (schemaDefinition p !! attr_SchemaName attr)).

(** The attribute resolves to [attrName] under the RDF namespace. *)
Definition isRDFAttribute (p : Parser) (attrName : string) (attr : Attribute) : bool :=
  match schemaDefinition p !! attr_SchemaName attr with
  | Some baseURI =>
      bool_decide (AddFragment baseURI (attr_Name attr)
                   = AddFragment (rdfNS p) attrName)
  | None => false
  end.

(** The attribute search as the specification words it: the first
    attribute of the tag, among all of them, that resolves to the target. *)
Definition firstRDFAttribute (p : Parser) (tag : Tag) (attrName : string) : Z :=
  findIndex (isRDFAttribute p attrName) 0 (Attrs tag).

(** The attribute search among the attributes that stand before the first
    one whose prefix is not declared. *)
Definition scannedRDFAttribute (p : Parser) (tag : Tag) (attrName : string) : Z :=
  findIndex (isRDFAttribute p attrName) 0 (takeWhile (resolves p) (Attrs tag)).

(** The value of the attribute the search finds, if it finds one. *)
Definition scannedRDFValue (p : Parser) (tag : Tag) (attrName : string)
  : option string :=
  let i := scannedRDFAttribute p tag attrName in
  if i =? -1 then None else Some (attr_Value (attrAt tag i)).

(** A later state of the blank node getter: the counter has not gone back
    and every cached node is still cached. *)
Definition laterGetter (g g' : BlankNodeGetter) : Prop :=
  lastid g <= lastid g' /\ minted g ⊆ minted g'.

(** What a call of [parseBlock] still holds of the join counter: one from
    the [Add] before it was started until its [Done], and one more between
    its own [Add] at line 225 and the [go] at line 226.  A call that has
    returned early holds its one for ever. *)
Definition outstanding (u : Unit) : Z :=
  match line u with
  | Finished => 0
  | L226 => 2
  | _ => 1
  end.

(** What [Parse] holds of it: one between its [Add] and its [go]. *)
Definition mainOutstanding (l : MainLine) : Z :=
  match l with
  | M257 | M258 | M261 => 1
  | _ => 0
  end.

Fixpoint sumOutstanding (us : list Unit) : Z :=
  match us with
  | [] => 0
  | u :: us => outstanding u + sumOutstanding us
  end.

Definition totalOutstanding (c : Config) : Z :=
  mainOutstanding (mainLine c) + sumOutstanding (units c).

(** Some call of [parseBlock] has returned from inside its loops. *)
Definition returnedEarly (c : Config) : Prop :=
  exists i u, units c !! i = Some u /\ line u = Returned.

(** [Parse] is past its [wg.Wait()]. *)
Definition pastWait (l : MainLine) : Prop :=
  l = M267 \/ l = MReturned None.

(** The invariant of the join counter. *)
Definition counterInvariant (c : Config) : Prop :=
  totalOutstanding c <= wg (parser c)
  /\ (pastWait (mainLine c) -> Forall (fun u => line u = Finished) (units c)).

(** The configuration at the head of the loop of [Parse], for a new
    parser. *)
Definition startOf (document : string) : option Config :=
  match ParseStart New document with
  | Some (inr c) => Some c
  | _ => None
  end.

(** The configuration a schedule leads to from there. *)
Definition runFrom (document : string) (schedule : list Thread) : option Config :=
  match startOf document with
  | Some c => run schedule c
  | None => None
  end.

End Vocabulary.

(** ** Sample inputs *)

(** A parser whose namespace table declares [rdf] only, and a tag whose
    [rdf:about] attribute stands after an attribute with an undeclared
    prefix. *)
Definition rdfOnlyParser : Parser :=
  setSchemaDefinition New {[ "rdf" := default zeroURIRef (NewURIRef RDFNS) ]}.

Definition aboutAfterUndeclared : Tag :=
  mkTag "ex" "Thing" [mkAttribute "foo" "x" "1"; mkAttribute "rdf" "about" "http://ex.org/1"].

(** A document whose root declares a default namespace. *)
Definition defaultNamespaceDocument : string :=
  "<rdf:RDF xmlns='http://default.org/' xmlns:rdf='http://www.w3.org/1999/02/22-rdf-syntax-ns#'></rdf:RDF>".

(** The attributes of the root that declare a prefix. *)
Definition xmlnsAttrs (attrs : list Attribute) : list Attribute :=
  filter (fun a => attr_SchemaName a = "xmlns") attrs.

(** Tags with an [rdf:about], with an [rdf:nodeID] and with neither. *)
Definition tagAbout : Tag :=
  mkTag "ex" "Thing" [mkAttribute "rdf" "about" "http://ex.org/1"].
Definition tagNodeID : Tag :=
  mkTag "ex" "Thing" [mkAttribute "rdf" "nodeID" "n1"].
Definition tagNodeID' : Tag :=
  mkTag "ex" "Other" [mkAttribute "ex" "k" "v"; mkAttribute "rdf" "nodeID" "n1"].
Definition tagPlain : Tag := mkTag "ex" "Thing" [].

(** The namespace table that declares [rdf] and [ex]. *)
Definition rdfExParser : Parser :=
  setSchemaDefinition New
    {[ "rdf" := default zeroURIRef (NewURIRef RDFNS);
       "ex" := mkStringURI "http://ex.org/" "" ]}.

(** The document of the specification's example, with an attribute of an
    undeclared prefix and an [rdf:resource] on the predicate element. *)
Definition resourceAfterUndeclared : string :=
  "<rdf:RDF xmlns:rdf='http://www.w3.org/1999/02/22-rdf-syntax-ns#' xmlns:ex='http://ex.org/'><ex:Thing rdf:about='http://ex.org/1'><ex:name foo:x='1' rdf:resource='http://ex.org/Bob'>Bob</ex:name></ex:Thing></rdf:RDF>".

(** The same document without the undeclared attribute. *)
Definition resourceDocument : string :=
  "<rdf:RDF xmlns:rdf='http://www.w3.org/1999/02/22-rdf-syntax-ns#' xmlns:ex='http://ex.org/'><ex:Thing rdf:about='http://ex.org/1'><ex:name rdf:resource='http://ex.org/Bob'></ex:name></ex:Thing></rdf:RDF>".

(** A document whose subject element has an undeclared prefix. *)
Definition undeclaredDocument : string :=
  "<rdf:RDF xmlns:rdf='http://www.w3.org/1999/02/22-rdf-syntax-ns#'><ex:Thing rdf:about='http://ex.org/1'><ex:name>Bob</ex:name></ex:Thing></rdf:RDF>".

Definition emptyConfig : Config := mkConfig New [] M255 [] emptyBlock None [].

(** The configuration a schedule leads to, from the start of a document. *)
Definition configAfter (document : string) (schedule : list Thread) : Config :=
  default emptyConfig (runFrom document schedule).

Definition exThing : Block :=
  mkBlock (mkTag "ex" "Thing" [mkAttribute "rdf" "about" "http://ex.org/1"]) ""
    [mkBlock (mkTag "ex" "name" [mkAttribute "rdf" "resource" "http://ex.org/Bob"])
       "" []].

Definition literalOf (subject predicate : Node) (v : string) : Triple :=
  mkTriple (Some subject) (Some predicate) (Some (mkNode LITERAL v)).

(** [Parse] has run up to its [wg.Wait()] before the goroutine of the one
    subject element starts, and the goroutine then runs until it leaves
    [parseBlock]. *)
Definition waitFirst : list Thread := replicate 7 Main ++ replicate 7 (Go 0%nat).

(** The goroutine runs until it leaves [parseBlock] between the [go]
    statement of [Parse] and the test that follows it. *)
Definition goroutineFirst : list Thread :=
  replicate 5 Main ++ replicate 7 (Go 0%nat) ++ [Main].

(** ** Vocabulary of the reader's properties *)

(** The tag that a written name stands for: the part before the first colon
    is the prefix. *)
Definition tagOfName (name : string) : Tag :=
  match splitColon name with
  | Some (a, b) => mkTag a b []
  | None => mkTag "" name []
  end.

(** The attribute that a written name and a value stand for. *)
Definition attributeOf (name value : string) : Attribute :=
  match splitColon name with
  | Some (a, b) => mkAttribute a b value
  | None => mkAttribute "" name value
  end.

(** A name as the reader takes it: no delimiter of the given set in it, and
    something after its first colon, if it has one. *)
Definition wellFormedName (delim : mask) (name : string) : Prop :=
  (forall x, InStr x name -> is_delim delim x = false)
  /\ forall a, splitColon name <> Some (a, "").

(** The delimiters that end a name in an opening tag, in a closing tag and
    in an attribute. *)
Definition openingDelims : mask := Z.lor (Z.lor (bit ">") WHITESPACE) (bit "/").
Definition closingDelims : mask := Z.lor (bit ">") WHITESPACE.
Definition attributeDelims : mask := Z.lor WHITESPACE (bit "=").

(** A name that can open an element: not empty, and not starting as a
    prolog. *)
Definition elementName (name : string) : Prop :=
  wellFormedName openingDelims name
  /\ exists c r, name = String c r /\ c <> "?"%char.

Definition blank (s : string) : Prop :=
  forall x, InStr x s -> is_delim WHITESPACE x = true.

(** *** Writing a block tree *)

(** The characters that end a name anywhere in a tag. *)
Definition nameDelims : mask := Z.lor attributeDelims openingDelims.

Definition printName (schemaName name : string) : string :=
  if String.eqb schemaName "" then name else schemaName ++ String ":" name.

(** An attribute without its leading blank. *)
Definition attrBody (a : Attribute) : string :=
  printName (attr_SchemaName a) (attr_Name a)
  ++ String "=" (String "'" (attr_Value a ++ String "'" "")).

Definition printAttr (a : Attribute) : string := String " " (attrBody a).

Fixpoint printAttrs (attrs : list Attribute) : string :=
  match attrs with
  | [] => ""
  | a :: attrs => printAttr a ++ printAttrs attrs
  end.

(** An opening tag up to the character that ends it. *)
Definition printTagHead (t : Tag) : string :=
  String "<" (printName (SchemaName t) (Name t)) ++ printAttrs (Attrs t).

Definition printOpen (t : Tag) : string := printTagHead t ++ String ">" "".

(** A self-closing element. *)
Definition printSelfClosing (t : Tag) : string :=
  printTagHead t ++ String "/" (String ">" "").

Definition printClose (t : Tag) : string :=
  String "<" (String "/" (printName (SchemaName t) (Name t))) ++ String ">" "".

(** A block as a document: the opening tag with its attributes in single
    quotes, the text or the children, the closing tag; nothing between
    them. *)
Fixpoint printBlock (b : Block) : string :=
  match b with
  | mkBlock t v cs =>
      printOpen t ++ v
      ++ (fix printAll (l : list Block) : string :=
            match l with
            | [] => ""
            | c :: l => printBlock c ++ printAll l
            end) cs
      ++ printClose t
  end.

Definition printBlocks (l : list Block) : string :=
  fold_right (fun c s => printBlock c ++ s) "" l.

(** A prefix and a local name that the reader gives back as written: no
    delimiter in them, no colon in the prefix, a local name after a prefix,
    and no colon in a name without prefix. *)
Definition qualifiedName (schemaName name : string) : Prop :=
  (forall x, InStr x schemaName -> is_delim nameDelims x = false)
  /\ (forall x, InStr x name -> is_delim nameDelims x = false)
  /\ ~ InStr ":" schemaName
  /\ (schemaName = "" -> ~ InStr ":" name)
  /\ (schemaName <> "" -> name <> "").

Definition writableAttribute (a : Attribute) : Prop :=
  qualifiedName (attr_SchemaName a) (attr_Name a)
  /\ forall x, InStr x (attr_Value a) ->
       is_delim WHITESPACE x = false /\ x <> "'"%char.

Definition writableTag (t : Tag) : Prop :=
  qualifiedName (SchemaName t) (Name t)
  /\ (exists c r, printName (SchemaName t) (Name t) = String c r /\ c <> "?"%char)
  /\ Forall writableAttribute (Attrs t).

(** A text that the reader gives back as written: it does not start with a
    blank and has no [<] in it. *)
Definition writableText (v : string) : Prop :=
  (forall x, InStr x v -> x <> "<"%char)
  /\ forall c r, v = String c r -> is_delim WHITESPACE c = false.

(** A block tree that the reader gives back as written: a block has a text
    or children, not both. *)
Inductive writableBlock : Block -> Prop :=
| writable_block (t : Tag) (v : string) (cs : list Block) :
    writableTag t -> writableText v -> (v = "" \/ cs = []) ->
    Forall writableBlock cs ->
    writableBlock (mkBlock t v cs).

(** The fuel that reading a block takes. *)
Fixpoint blockFuel (b : Block) : nat :=
  match b with
  | mkBlock _ _ cs =>
      S ((fix all (l : list Block) : nat :=
            match l with
            | [] => O
            | c :: l => (S (blockFuel c) + all l)%nat
            end) cs)
  end.

Definition blocksFuel (l : list Block) : nat :=
  fold_right (fun c n => (S (blockFuel c) + n)%nat) O l.

(** The tree of the specification's example document. *)
Definition exampleTree : Block :=
  mkBlock (mkTag "rdf" "RDF"
             [mkAttribute "xmlns" "rdf" "http://www.w3.org/1999/02/22-rdf-syntax-ns#";
              mkAttribute "xmlns" "ex" "http://ex.org/"]) ""
    [mkBlock (mkTag "ex" "Thing" [mkAttribute "rdf" "about" "http://ex.org/1"]) ""
       [mkBlock (mkTag "ex" "name" []) "Bob" []]].

(** An attribute that has a prefix has a local name. *)
Definition prefixedHasName (a : Attribute) : Prop :=
  attr_SchemaName a <> "" -> attr_Name a <> "".

(** ** Vocabulary of the extractor's properties *)
(** The declarations of the prefix [k] among some attributes. *)
Definition declares (k : string) (a : Attribute) : Prop :=
  attr_SchemaName a = "xmlns" /\ attr_Name a = k.

Section ExecutionVocabulary.
Context `{U : URI} `{F : NodeFormat}.

(** [Parse] holds an error variable that no goroutine has a pointer to yet:
    between the declaration at line 257 and the [go] at line 261. *)
Definition mainFresh (l : MainLine) : nat :=
  match l with
  | M258 | M261 => 1
  | _ => 0
  end.

(** Every goroutine points to an error variable of [Parse], and not to the
    one that is still fresh; the fresh one is nil. *)
Definition slotsInvariant (c : Config) : Prop :=
  (forall i u, units c !! i = Some u ->
               (errp u + mainFresh (mainLine c) < length (slots c))%nat)
  /\ (mainFresh (mainLine c) <= length (slots c))%nat
  /\ (mainFresh (mainLine c) = 1%nat ->
      readSlot (slots c) (length (slots c) - 1) = None).

(** The join counter is exactly what [Parse] and the calls of [parseBlock]
    hold of it, and [Parse] gets past its wait only when nothing is held. *)
Definition exactCounter (c : Config) : Prop :=
  wg (parser c) = totalOutstanding c
  /\ (pastWait (mainLine c) ->
      Forall (fun u => line u = Finished) (units c) /\ wg (parser c) = 0).

(** Every triple of the store is stored under its own key. *)
Definition keyedByHash (m : gmap string Triple) : Prop :=
  forall k t, m !! k = Some t -> k = Hash t.

End ExecutionVocabulary.

(** A schedule that runs [Parse] on a document with one subject element and
    one predicate element to its end. *)
Definition completeRun : list Thread :=
  replicate 7 Main ++ replicate 17 (Go 0%nat) ++ [Main; Main].

(** *** Documents whose subject elements have declared prefixes *)

(** The children of a predicate element are subject elements. *)
Inductive subjectOK `{U : URI} (sd : gmap string URIRef) : Block -> Prop :=
| subject_ok (t : Tag) (v : string) (cs : list Block) :
    cs = [] \/ is_Some (sd !! SchemaName t) ->
    Forall (fun pb => Forall (subjectOK sd) (Children pb)) cs ->
    subjectOK sd (mkBlock t v cs).

Section SafetyVocabulary.
Context `{U : URI} `{F : NodeFormat}.

Definition predicateOK (sd : gmap string URIRef) (pb : Block) : Prop :=
  Forall (subjectOK sd) (Children pb).

(** What holds of a call of [parseBlock] in an execution on such a
    document. *)
Definition unitOK (sd : gmap string URIRef) (u : Unit) : Prop :=
  line u <> Returned
  /\ newErr u = None
  /\ (is_Some (sd !! SchemaName (OpeningTag (currBlock u)))
      \/ (preds u = [] /\ (line u = L168 \/ line u = L232 \/ line u = Finished)))
  /\ Forall (predicateOK sd) (preds u)
  /\ predicateOK sd (predicateBlock u)
  /\ Forall (subjectOK sd) (objs u)
  /\ subjectOK sd (objectBlock u).

(** What holds of a configuration in such an execution: no error variable
    holds an error, [Parse] has not returned an error, and every call is as
    above. *)
Definition safeConfig (c : Config) : Prop :=
  let sd := schemaDefinition (parser c) in
  Forall (fun e => e = None) (slots c)
  /\ (forall e, mainLine c <> MReturned (Some e))
  /\ Forall (subjectOK sd) (rootChildren c)
  /\ subjectOK sd (child c)
  /\ Forall (unitOK sd) (units c).

End SafetyVocabulary.

(** *** A bound on the steps that are left *)

(** An upper bound of the statements that the calls of [parseBlock] execute
    for a block, as a subject or as a predicate, and for all the blocks
    below it. *)
Fixpoint blockWork (b : Block) : nat :=
  match b with
  | mkBlock _ _ cs =>
      (25 + (fix all (l : list Block) : nat :=
               match l with
               | [] => O
               | c :: l => 8 + blockWork c + all l
               end) cs)%nat
  end.

Definition objsWork (os : list Block) : nat :=
  fold_right (fun c n => (8 + blockWork c + n)%nat) O os.

Definition predsWork (ps : list Block) : nat :=
  fold_right (fun c n => (blockWork c + n)%nat) O ps.

Definition rootWork (bs : list Block) : nat :=
  fold_right (fun c n => (7 + blockWork c + n)%nat) O bs.

Section WorkVocabulary.
Context `{U : URI} `{F : NodeFormat}.

(** The statements that a call of [parseBlock] and the calls it will start
    have left, at most. *)
Definition unitWork (u : Unit) : nat :=
  let base := (predsWork (preds u) + 2)%nat in
  let pw := objsWork (Children (predicateBlock u)) in
  let ow := (objsWork (objs u) + base)%nat in
  match line u with
  | L168 => base
  | L169 => 24 + pw + base
  | L170 => 23 + pw + base
  | L171 => 22 + pw + base
  | L174 => 21 + pw + base
  | L175 => 20 + pw + base
  | L176 => 19 + pw + base
  | L180 => 18 + pw + base
  | L185 => 17 + pw + base
  | L188 => 16 + pw + base
  | L191 => 15 + pw + base
  | L192 => 14 + pw + base
  | L193 => 13 + pw + base
  | L205 => 12 + pw + base
  | L213 => 1 + ow
  | L214 => 8 + blockWork (objectBlock u) + ow
  | L215 => 7 + blockWork (objectBlock u) + ow
  | L216 => 6 + blockWork (objectBlock u) + ow
  | L220 => 5 + blockWork (objectBlock u) + ow
  | L225 => 4 + blockWork (objectBlock u) + ow
  | L226 => 3 + blockWork (objectBlock u) + ow
  | L227 => 2 + ow
  | L232 => 1
  | Returned | Finished => 0
  end%nat.

Fixpoint unitsWork (us : list Unit) : nat :=
  match us with
  | [] => O
  | u :: us => (unitWork u + unitsWork us)%nat
  end.

Definition mainWork (c : Config) : nat :=
  let rest := (rootWork (rootChildren c) + 3)%nat in
  match mainLine c with
  | M255 => rest
  | M256 => 6 + blockWork (child c) + rest
  | M257 => 5 + blockWork (child c) + rest
  | M258 => 4 + blockWork (child c) + rest
  | M261 => 3 + blockWork (child c) + rest
  | M262 => 1 + rest
  | M266 => 2
  | M267 => 1
  | MReturned _ => 0
  end%nat.

(** The steps that an execution has left, at most. *)
Definition workLeft (c : Config) : nat := (mainWork c + unitsWork (units c))%nat.

End WorkVocabulary.

(** A document with a subject element below a predicate element, every
    prefix declared. *)
Definition nestedDocument : string :=
  "<rdf:RDF xmlns:rdf='http://www.w3.org/1999/02/22-rdf-syntax-ns#' xmlns:ex='http://ex.org/'><ex:Thing rdf:about='http://ex.org/1'><ex:knows><ex:Person rdf:about='http://ex.org/2'/></ex:knows></ex:Thing></rdf:RDF>".

Definition exPerson : Block :=
  mkBlock (mkTag "ex" "Person" [mkAttribute "rdf" "about" "http://ex.org/2"]) "" [].

Definition exKnows : Block :=
  mkBlock (mkTag "ex" "Thing" [mkAttribute "rdf" "about" "http://ex.org/1"]) ""
    [mkBlock (mkTag "ex" "knows" []) "" [exPerson]].

(** [Parse] up to its [wg.Wait()], the goroutine of the outer subject
    element, the goroutine of the inner one. *)
Definition nestedStart : list Thread :=
  replicate 7 Main ++ replicate 21 (Go 0%nat) ++ replicate 2 (Go 1%nat).

(** The same, and [Parse] to its end. *)
Definition nestedRun : list Thread := nestedStart ++ [Main; Main].

(** * Properties *)

(** ** Strings and delimiter sets *)

Lemma str_app_assoc (a b c : string) : (a ++ b) ++ c = a ++ (b ++ c).
Proof. induction a as [|x a IH]; simpl; [reflexivity | f_equal; exact IH]. Qed.

Lemma InStr_cons (c x : ascii) (s : string) :
  InStr c (String x s) <-> x = c \/ InStr c s.
Proof. unfold InStr; simpl; tauto. Qed.

Lemma is_delim_lor (a b : mask) (c : ascii) :
  is_delim (Z.lor a b) c = is_delim a c || is_delim b c.
Proof.
  unfold is_delim. rewrite Z.land_lor_distr_l.
  destruct (Z.eqb_spec (Z.land a (bit c)) 0) as [Ha|Ha];
    destruct (Z.eqb_spec (Z.land b (bit c)) 0) as [Hb|Hb]; simpl.
  - rewrite Ha, Hb. reflexivity.
  - apply negb_true_iff, Z.eqb_neq. intros H. apply Z.lor_eq_0_iff in H. tauto.
  - apply negb_true_iff, Z.eqb_neq. intros H. apply Z.lor_eq_0_iff in H. tauto.
  - apply negb_true_iff, Z.eqb_neq. intros H. apply Z.lor_eq_0_iff in H. tauto.
Qed.

(** The mask of a quote character has that character and no other. *)
Lemma is_delim_quote (q c : ascii) :
  q = "'"%char \/ q = dquote -> is_delim (bit q) c = Ascii.eqb q c.
Proof.
  intros [-> | ->];
    destruct c as [[] [] [] [] [] [] [] []]; vm_compute; reflexivity.
Qed.

Lemma readTill_ok (d : mask) (s w s' : string) :
  readTill d s = (w, None, s') ->
  s = w ++ s'
  /\ (forall c, InStr c w -> is_delim d c = false)
  /\ exists c r, s' = String c r /\ is_delim d c = true.
Proof.
  revert w. induction s as [|x s IH]; intros w H; simpl in H; [discriminate|].
  destruct (is_delim d x) eqn:Hx.
  - inversion H; subst. repeat split; [intros c []|eauto].
  - destruct (readTill d s) as [[w1 e1] s1] eqn:Hr.
    inversion H; subst.
    destruct (IH w1 eq_refl) as (-> & Hall & Hstop).
    repeat split; [|exact Hstop].
    intros c [<- | Hc]%InStr_cons; auto.
Qed.

Lemma readTill_stop (d : mask) (w : string) (c : ascii) (r : string) :
  (forall x, InStr x w -> is_delim d x = false) ->
  is_delim d c = true ->
  readTill d (w ++ String c r) = (w, None, String c r).
Proof.
  intros Hw Hc. induction w as [|x w IH]; simpl.
  - now rewrite Hc.
  - rewrite (Hw x) by (apply InStr_cons; auto).
    rewrite IH; [reflexivity|].
    intros y Hy. apply Hw, InStr_cons. auto.
Qed.

Lemma ignoreWhiteSpace_ok (s s' : string) :
  ignoreWhiteSpace s = (None, s') -> exists ws, s = ws ++ s'.
Proof.
  induction s as [|x s IH]; simpl; [discriminate|].
  destruct (is_delim WHITESPACE x).
  - intros H. destruct (IH H) as [ws ->]. now exists (String x ws).
  - intros H. inversion H. now exists "".
Qed.

Lemma ignoreWhiteSpace_skip (ws : string) (c : ascii) (r : string) :
  (forall x, InStr x ws -> is_delim WHITESPACE x = true) ->
  is_delim WHITESPACE c = false ->
  ignoreWhiteSpace (ws ++ String c r) = (None, String c r).
Proof.
  intros Hws Hc. induction ws as [|x ws IH]; simpl.
  - now rewrite Hc.
  - rewrite (Hws x) by (apply InStr_cons; auto).
    apply IH. intros y Hy. apply Hws, InStr_cons. auto.
Qed.

Lemma readColonPair_ok (d : mask) (s : string) pr ce (s1 : string) :
  readColonPair d s = (pr, ce, None, s1) -> exists w, s = w ++ s1.
Proof.
  unfold readColonPair.
  destruct (readTill d s) as [[w e] s0] eqn:Hr.
  destruct e as [e|]; [discriminate|].
  apply readTill_ok in Hr as (-> & _ & _).
  destruct (splitColon w) as [[a b]|];
    [destruct (String.length b =? 0)%nat|]; intros H; inversion H; subst; eauto.
Qed.

(** ** The tokenizer *)

(** C7.  [readAttribute] accepts an attribute whose name is followed by a
    character other than [=], and one whose [=] is followed by a character
    other than a quote: each error is assigned to [err] and overwritten by
    the call on the next line before any test reads it.  [Read] accepts the
    elements that carry such attributes. *)
Theorem readAttribute_keeps_no_grammar_error :
  readAttribute "x y'foo'" = (mkAttribute "" "x" "foo", None, "")
  /\ readAttribute "x= foo " = (mkAttribute "" "x" "foo", None, "")
  /\ Read "<a x y'foo'/>"
     = Some (mkBlock (mkTag "" "a" [mkAttribute "" "x" "foo"]) "" [], None, "")
  /\ Read "<a x= foo />"
     = Some (mkBlock (mkTag "" "a" [mkAttribute "" "x" "foo"]) "" [], None, "").
Proof. repeat apply conj; vm_compute; reflexivity. Qed.

(** C8.  A tag with an empty name is read without error: [readColonPair]
    refuses an empty word after a colon but not an empty word without one. *)
Theorem Read_empty_tag_name :
  (exists block,
      Read "<></>" = Some (block, None, "") /\ Name (OpeningTag block) = "")
  /\ exists closingTag,
       readClosingTag "</>" = (closingTag, None, "") /\ Name closingTag = "".
Proof. split; eexists; split; vm_compute; reflexivity. Qed.

Lemma readAttribute_value_head (name ws : string) (r : string) :
  (forall x, InStr x name -> is_delim (Z.lor WHITESPACE (bit "=")) x = false) ->
  (forall a, splitColon name <> Some (a, "")) ->
  (forall x, InStr x ws -> is_delim WHITESPACE x = true) ->
  exists pr ce,
    readColonPair (Z.lor WHITESPACE (bit "=")) (name ++ ws ++ String "=" r)
    = (pr, ce, None, ws ++ String "=" r)
    /\ ignoreWhiteSpace (ws ++ String "=" r) = (None, String "=" r).
Proof.
  intros Hname Hcolon Hws.
  assert (Hhead : exists c0 r0, ws ++ String "=" r = String c0 r0
                    /\ is_delim (Z.lor WHITESPACE (bit "=")) c0 = true).
  { destruct ws as [|x ws]; simpl.
    - exists "="%char, r. split; [reflexivity | vm_compute; reflexivity].
    - exists x, (ws ++ String "=" r). split; [reflexivity|].
      rewrite is_delim_lor, (Hws x) by (apply InStr_cons; auto). reflexivity. }
  destruct Hhead as (c0 & r0 & Heq & Hc0).
  unfold readColonPair. rewrite Heq, (readTill_stop _ name c0 r0 Hname Hc0).
  rewrite <- Heq.
  assert (Hskip : ignoreWhiteSpace (ws ++ String "=" r) = (None, String "=" r))
    by (apply ignoreWhiteSpace_skip; [exact Hws | vm_compute; reflexivity]).
  destruct (splitColon name) as [[a b]|] eqn:Hs.
  - destruct b as [|y b]; [now destruct (Hcolon a)|]. simpl. eauto.
  - eauto.
Qed.

(** C10.  A quoted value with whitespace in it makes [readAttribute] fail
    with the closing-quote error, whatever follows the whitespace; and the
    value of an attribute that was read without error has no whitespace in it
    and stands in the input between two occurrences of a character that is
    not in it. *)
Theorem readAttribute_value_has_no_blank :
  (forall (name ws : string) (q : ascii) (v : string) (c : ascii) (rest : string),
      (forall x, InStr x name -> is_delim (Z.lor WHITESPACE (bit "=")) x = false) ->
      (forall a, splitColon name <> Some (a, "")) ->
      (forall x, InStr x ws -> is_delim WHITESPACE x = true) ->
      q = "'"%char \/ q = dquote ->
      (forall x, InStr x v -> is_delim WHITESPACE x = false /\ x <> q) ->
      is_delim WHITESPACE c = true ->
      exists attr,
        readAttribute (name ++ ws ++ String "=" (String q (v ++ String c rest)))
        = (attr, Some ErrClosingQuote, rest)
        /\ attr_Value attr = "")
  /\ (forall (s : string) (attr : Attribute) (s' : string),
        readAttribute s = (attr, None, s') ->
        (forall x, InStr x (attr_Value attr) -> is_delim WHITESPACE x = false)
        /\ exists pre q,
             s = pre ++ String q (attr_Value attr ++ String q s')
             /\ ~ InStr q (attr_Value attr)).
Proof.
  split.
  - intros name ws q v c rest Hname Hcolon Hws Hq Hv Hc.
    destruct (readAttribute_value_head name ws
                (String q (v ++ String c rest)) Hname Hcolon Hws)
      as (pr & ce & Hpair & Hskip).
    unfold readAttribute. rewrite Hpair, Hskip. simpl.
    assert (Hvq : forall x, InStr x v ->
                    is_delim (Z.lor WHITESPACE (bit q)) x = false).
    { intros x Hx. destruct (Hv x Hx) as [Hw Hne].
      rewrite is_delim_lor, Hw, (is_delim_quote q x Hq). simpl.
      apply Ascii.eqb_neq. congruence. }
    assert (Hcq : is_delim (Z.lor WHITESPACE (bit q)) c = true)
      by (rewrite is_delim_lor, Hc; reflexivity).
    rewrite (readTill_stop _ v c rest Hvq Hcq). simpl.
    assert (Hne : Ascii.eqb q c = false).
    { apply Ascii.eqb_neq. intros ->.
      destruct Hq as [-> | ->]; vm_compute in Hc; discriminate. }
    rewrite Hne.
    destruct ce; eexists; split; reflexivity.
  - intros s attr s'. unfold readAttribute.
    destruct (readColonPair _ s) as [[[pr ce] e0] s1] eqn:Hpair.
    destruct e0 as [e0|]; [discriminate|].
    apply readColonPair_ok in Hpair as [w0 ->].
    destruct (ignoreWhiteSpace s1) as [e1 s2] eqn:Hskip.
    destruct e1 as [e1|]; [discriminate|].
    apply ignoreWhiteSpace_ok in Hskip as [ws ->].
    destruct s2 as [|nextRune s3]; simpl; [discriminate|].
    destruct s3 as [|q s4]; simpl.
    + discriminate.
    + destruct (readTill (Z.lor WHITESPACE (bit q)) s4) as [[word e2] s5] eqn:Hw.
      destruct e2 as [e2|]; [discriminate|].
      apply readTill_ok in Hw as (-> & Hword & q' & s6 & -> & Hq').
      simpl. destruct (Ascii.eqb_spec q q') as [<-|]; [|discriminate].
      intros H. inversion H; subst. simpl. split.
      * intros x Hx. specialize (Hword x Hx).
        rewrite is_delim_lor in Hword. now apply orb_false_iff in Hword.
      * exists (w0 ++ ws ++ String nextRune ""), q. split.
        -- rewrite !str_app_assoc. reflexivity.
        -- intros Hin. specialize (Hword q Hin). congruence.
Qed.

Lemma readAttribute_value_has_no_blank_witness :
  (exists attr,
      readAttribute ("rdf:about" ++ " " ++ String "=" (String "'" ("a" ++ String " " "b'")))
      = (attr, Some ErrClosingQuote, "b'") /\ attr_Value attr = "")
  /\ ((forall x, InStr x "http://ex.org/1" -> is_delim WHITESPACE x = false)
      /\ exists pre q,
           "rdf:about='http://ex.org/1'>" = pre ++ String q ("http://ex.org/1" ++ String q ">")
           /\ ~ InStr q "http://ex.org/1").
Proof.
  split.
  - apply (proj1 readAttribute_value_has_no_blank
             "rdf:about" " " "'"%char "a" " "%char "b'").
    + intros x Hx. unfold InStr in Hx. simpl in Hx.
      repeat (destruct Hx as [<- | Hx]; [vm_compute; reflexivity|]).
      destruct Hx.
    + intros a H. vm_compute in H. discriminate.
    + intros x Hx. unfold InStr in Hx. simpl in Hx.
      destruct Hx as [<- | []]. vm_compute; reflexivity.
    + left; reflexivity.
    + intros x Hx. unfold InStr in Hx. simpl in Hx.
      destruct Hx as [<- | []]. split; [vm_compute; reflexivity | discriminate].
    + vm_compute; reflexivity.
  - apply (proj2 readAttribute_value_has_no_blank
             "rdf:about='http://ex.org/1'>"
             (mkAttribute "rdf" "about" "http://ex.org/1") ">").
    vm_compute; reflexivity.
Defined.

(** ** The triple store *)

Section TripleStore.
Context `{U : URI} `{F : NodeFormat}.

Lemma appendTriple_twice (p : Parser) (t : Triple) :
  appendTriple (appendTriple p t) t = appendTriple p t.
Proof.
  unfold appendTriple, setTriples; simpl. now rewrite insert_insert_eq.
Qed.

Lemma appendTriple_iter (p : Parser) (t : Triple) (n : nat) :
  Nat.iter (S n) (fun q => appendTriple q t) p = appendTriple p t.
Proof.
  induction n as [|n IH]; [reflexivity|].
  change (Nat.iter (S (S n)) (fun q => appendTriple q t) p)
    with (appendTriple (Nat.iter (S n) (fun q => appendTriple q t) p) t).
  rewrite IH. apply appendTriple_twice.
Qed.

(** C9.  Appending a triple any number of times is appending it once: the
    store then holds the triple under its key, every other key is as
    before, and the store has grown by one entry exactly when the key was
    new. *)
Theorem appendTriple_idempotent (p : Parser) (t : Triple) (n : nat) :
  let p' := Nat.iter (S n) (fun q => appendTriple q t) p in
  p' = appendTriple p t
  /\ Triples p' !! Hash t = Some t
  /\ (forall k, k <> Hash t -> Triples p' !! k = Triples p !! k)
  /\ size (Triples p')
     = match Triples p !! Hash t with
       | Some _ => size (Triples p)
       | None => S (size (Triples p))
       end.
Proof.
  intros p'. subst p'. rewrite appendTriple_iter.
  unfold appendTriple, setTriples; simpl. repeat split.
  - apply lookup_insert_eq.
  - intros k Hk. now apply lookup_insert_ne.
  - destruct (Triples p !! Hash t) as [t0|] eqn:Hl.
    + rewrite <- (insert_delete_id (Triples p) (Hash t) t0 Hl) at 2.
      rewrite <- (insert_delete_eq (Triples p)).
      rewrite !map_size_insert_None by apply lookup_delete_eq. reflexivity.
    + now apply map_size_insert_None.
Qed.

End TripleStore.

(** ** The attribute search *)

Lemma findIndex_none {A : Type} (f : A -> bool) (l : list A) (i : Z) :
  0 <= i -> (findIndex f i l = -1 <-> forall a, In a l -> f a = false).
Proof.
  revert i. induction l as [|a l IH]; intros i Hi; simpl.
  - split; [intros _ ? [] | reflexivity].
  - destruct (f a) eqn:Ha.
    + split; [lia|]. intros H. specialize (H a (or_introl eq_refl)). congruence.
    + rewrite IH by lia. split.
      * intros H b [<- | Hb]; auto.
      * intros H b Hb. apply H. now right.
Qed.

Lemma findIndex_found {A : Type} (f : A -> bool) (l : list A) (i : Z) :
  0 <= i -> findIndex f i l <> -1 ->
  i <= findIndex f i l
  /\ exists a, l !! Z.to_nat (findIndex f i l - i) = Some a /\ f a = true
     /\ forall (j : nat) (b : A),
          (j < Z.to_nat (findIndex f i l - i))%nat -> l !! j = Some b -> f b = false.
Proof.
  revert i. induction l as [|a l IH]; intros i Hi; simpl; [congruence|].
  destruct (f a) eqn:Ha.
  - intros _. split; [lia|]. exists a. replace (i - i) with 0 by lia.
    repeat split; [assumption|]. intros j b Hj. simpl in Hj. lia.
  - intros Hne. destruct (IH (i + 1) ltac:(lia) Hne) as (Hle & b & Hb & Hfb & Hbefore).
    split; [lia|]. exists b.
    replace (Z.to_nat (findIndex f (i + 1) l - i))
      with (S (Z.to_nat (findIndex f (i + 1) l - (i + 1)))) by lia.
    repeat split; [exact Hb | exact Hfb |].
    intros [|j] c Hj Hc; simpl in Hc.
    + congruence.
    + apply (Hbefore j c); [lia | exact Hc].
Qed.

Lemma takeWhile_lookup {A : Type} (f : A -> bool) (l : list A) (j : nat) (a : A) :
  takeWhile f l !! j = Some a -> l !! j = Some a /\ f a = true.
Proof.
  revert j. induction l as [|b l IH]; intros j; simpl; [discriminate|].
  destruct (f b) eqn:Hb; [|discriminate].
  destruct j as [|j]; simpl; [intros [= ->]; auto | apply IH].
Qed.

Lemma takeWhile_lookup_lt {A : Type} (f : A -> bool) (l : list A) (i j : nat) (a b : A) :
  takeWhile f l !! i = Some a -> (j < i)%nat -> l !! j = Some b ->
  takeWhile f l !! j = Some b.
Proof.
  revert i j. induction l as [|c l IH]; intros i j; simpl; [discriminate|].
  destruct (f c) eqn:Hc; [|discriminate].
  destruct i as [|i]; [lia|]. destruct j as [|j]; simpl; [auto|].
  intros Hi Hj Hb. apply (IH i j); [exact Hi | lia | exact Hb].
Qed.

Section AttributeSearch.
Context `{U : URI} `{F : NodeFormat}.

Lemma getRDFAttributeLoop_scanned (p : Parser) (attrName : string)
    (attrs : list Attribute) (i : Z) :
  getRDFAttributeLoop p attrName i attrs
  = findIndex (isRDFAttribute p attrName) i (takeWhile (resolves p) attrs).
Proof.
  revert i. induction attrs as [|a attrs IH]; intros i; simpl; [reflexivity|].
  unfold uriFromPair, resolves, isRDFAttribute.
  destruct (schemaDefinition p !! attr_SchemaName a) as [base|] eqn:Hl.
  - rewrite bool_decide_eq_true_2 by eauto. simpl. rewrite Hl.
    destruct (decide (AddFragment base (attr_Name a)
                      = AddFragment (rdfNS p) attrName)) as [He|He].
    + now rewrite bool_decide_eq_true_2.
    + rewrite bool_decide_eq_false_2 by assumption. apply IH.
  - rewrite bool_decide_eq_false_2; [reflexivity|].
    intros [x Hx]. discriminate.
Qed.

(** What the search computes.  It returns no error, and its index is that
    of the first attribute that resolves to the target among the attributes
    standing before the first one whose prefix is not declared: either it
    is -1 and none of these resolves to the target, or it points to an
    attribute that does, with every attribute before it declared and not
    resolving to the target. *)
Theorem getRDFAttributeIndex_scans_declared_prefix
    (p : Parser) (tag : Tag) (attrName : string) :
  getRDFAttributeIndex p tag attrName = (scannedRDFAttribute p tag attrName, None)
  /\ let i := scannedRDFAttribute p tag attrName in
     (i = -1
      /\ forall a, In a (takeWhile (resolves p) (Attrs tag)) ->
                   isRDFAttribute p attrName a = false)
     \/ (0 <= i
         /\ exists a, Attrs tag !! Z.to_nat i = Some a
              /\ isRDFAttribute p attrName a = true
              /\ forall (j : nat) (b : Attribute),
                   (j < Z.to_nat i)%nat -> Attrs tag !! j = Some b ->
                   resolves p b = true /\ isRDFAttribute p attrName b = false).
Proof.
  split.
  - unfold getRDFAttributeIndex, scannedRDFAttribute.
    now rewrite getRDFAttributeLoop_scanned.
  - unfold scannedRDFAttribute. simpl.
    set (l := takeWhile (resolves p) (Attrs tag)).
    destruct (Z.eq_dec (findIndex (isRDFAttribute p attrName) 0 l) (-1)) as [He|Hne].
    + left. split; [exact He|]. now apply (findIndex_none _ l 0).
    + right.
      destruct (findIndex_found _ l 0 ltac:(lia) Hne) as (Hle & a & Ha & Hfa & Hbefore).
      rewrite Z.sub_0_r in Ha, Hbefore.
      split; [exact Hle|]. exists a.
      destruct (takeWhile_lookup _ _ _ _ Ha) as [Hat _].
      repeat split; [exact Hat | exact Hfa | |].
      * intros. pose proof (takeWhile_lookup_lt _ _ _ _ _ _ Ha H H0) as Hj.
        now apply takeWhile_lookup in Hj.
      * apply (Hbefore j).
        -- assumption.
        -- apply (takeWhile_lookup_lt _ _ _ _ _ _ Ha); assumption.
Qed.

End AttributeSearch.

(** C6.  On a tag whose [rdf:about] attribute, at index 1, stands after an
    attribute with an undeclared prefix, the search does not scan all the
    attributes: [uriFromPair] fails on the attribute at index 0, the loop is
    left, and the search returns -1 with a nil error.  The attribute of the
    RDF namespace after the one that fails to resolve is not found, and the
    error of [uriFromPair] is lost. *)
Theorem getRDFAttributeIndex_stops_at_undeclared :
  firstRDFAttribute rdfOnlyParser aboutAfterUndeclared "about" = 1
  /\ uriFromPair rdfOnlyParser "foo" "x"
     = (zeroURIRef, Some (ErrUndefinedSchema "foo"))
  /\ getRDFAttributeIndex rdfOnlyParser aboutAfterUndeclared "about" = (-1, None).
Proof. repeat apply conj; vm_compute; reflexivity. Qed.

(** ** The namespace table *)

Section Namespaces.
Context `{U : URI} `{F : NodeFormat}.

Lemma parseHeaderAttrs_entries (attrs : list Attribute)
    (m0 m : gmap string URIRef) (k : string) (u : URIRef) :
  parseHeaderAttrs attrs m0 = (m, None) -> m !! k = Some u ->
  m0 !! k = Some u
  \/ exists attr, In attr attrs /\ attr_SchemaName attr = "xmlns"
       /\ attr_Name attr = k /\ NewURIRef (attr_Value attr) = Some u.
Proof.
  revert m0. induction attrs as [|a attrs IH]; intros m0; simpl.
  - intros [= ->] Hk. now left.
  - destruct (String.eqb_spec (attr_SchemaName a) "xmlns") as [Hx|Hx].
    + destruct (NewURIRef (attr_Value a)) as [uriref|] eqn:Hn; [|discriminate].
      intros Hrun Hk. destruct (IH _ Hrun Hk) as [Hm | (b & Hb & ?)].
      * destruct (decide (attr_Name a = k)) as [<-|Hne].
        -- rewrite lookup_insert_eq in Hm. injection Hm as ->.
           right. exists a. simpl. auto.
        -- rewrite lookup_insert_ne in Hm by assumption. now left.
      * right. exists b. simpl. tauto.
    + intros Hrun Hk. destruct (IH _ Hrun Hk) as [Hm | (b & Hb & ?)].
      * now left.
      * right. exists b. simpl. tauto.
Qed.

Lemma parseHeaderAttrs_xmlns (attrs : list Attribute) (m0 : gmap string URIRef) :
  parseHeaderAttrs attrs m0 = parseHeaderAttrs (xmlnsAttrs attrs) m0.
Proof.
  revert m0. induction attrs as [|a attrs IH]; intros m0; [reflexivity|].
  unfold xmlnsAttrs. cbn [parseHeaderAttrs].
  destruct (String.eqb_spec (attr_SchemaName a) "xmlns") as [Hx|Hx].
  - rewrite filter_cons_True by assumption. cbn [parseHeaderAttrs].
    rewrite (proj2 (String.eqb_eq _ _) Hx).
    destruct (NewURIRef (attr_Value a)); [apply IH | reflexivity].
  - rewrite filter_cons_False by assumption. apply IH.
Qed.

Lemma parseHeaderAttrs_app (l1 l2 : list Attribute) (m0 : gmap string URIRef) :
  parseHeaderAttrs (l1 ++ l2) m0
  = match parseHeaderAttrs l1 m0 with
    | (m1, None) => parseHeaderAttrs l2 m1
    | (m1, Some e) => (m1, Some e)
    end.
Proof.
  revert m0. induction l1 as [|a l1 IH]; intros m0; cbn [app parseHeaderAttrs];
    [reflexivity|].
  destruct (String.eqb (attr_SchemaName a) "xmlns"); [|apply IH].
  destruct (NewURIRef (attr_Value a)); [apply IH | reflexivity].
Qed.

Lemma parseHeaderAttrs_keeps (attrs : list Attribute) (m0 m : gmap string URIRef)
    (k : string) :
  (forall a, In a attrs -> ~ declares k a) ->
  parseHeaderAttrs attrs m0 = (m, None) -> m !! k = m0 !! k.
Proof.
  revert m0. induction attrs as [|a attrs IH]; intros m0 Hno; cbn [parseHeaderAttrs].
  - now intros [= ->].
  - assert (Hno' : forall b, In b attrs -> ~ declares k b)
      by (intros b Hb; apply Hno; now right).
    destruct (String.eqb_spec (attr_SchemaName a) "xmlns") as [Hx|Hx];
      [|now apply IH].
    destruct (NewURIRef (attr_Value a)) as [u|]; [|discriminate].
    intros Hrun. rewrite (IH _ Hno' Hrun). apply lookup_insert_ne.
    intros Hk. apply (Hno a); [now left | split; assumption].
Qed.

Lemma parseHeaderAttrs_last (l1 l2 : list Attribute) (a : Attribute)
    (m : gmap string URIRef) :
  parseHeaderAttrs (l1 ++ a :: l2) ∅ = (m, None) ->
  attr_SchemaName a = "xmlns" ->
  (forall b, In b l2 -> ~ declares (attr_Name a) b) ->
  exists u, NewURIRef (attr_Value a) = Some u /\ m !! attr_Name a = Some u.
Proof.
  intros Hrun Hx Hl2. rewrite parseHeaderAttrs_app in Hrun.
  destruct (parseHeaderAttrs l1 ∅) as [m1 [e|]]; [discriminate|].
  cbn [parseHeaderAttrs] in Hrun. rewrite (proj2 (String.eqb_eq _ _) Hx) in Hrun.
  destruct (NewURIRef (attr_Value a)) as [u|]; [|discriminate].
  exists u. split; [reflexivity|].
  rewrite (parseHeaderAttrs_keeps l2 _ m _ Hl2 Hrun). apply lookup_insert_eq.
Qed.

Lemma parseHeaderAttrs_grows (attrs : list Attribute) (m0 m : gmap string URIRef)
    (k : string) :
  parseHeaderAttrs attrs m0 = (m, None) -> is_Some (m0 !! k) -> is_Some (m !! k).
Proof.
  revert m0. induction attrs as [|a attrs IH]; intros m0; cbn [parseHeaderAttrs].
  - now intros [= ->].
  - destruct (String.eqb (attr_SchemaName a) "xmlns"); [|apply IH].
    destruct (NewURIRef (attr_Value a)) as [u|]; [|discriminate].
    intros Hrun Hk. apply (IH _ Hrun).
    destruct (decide (attr_Name a = k)) as [<-|Hne].
    + rewrite lookup_insert_eq. eauto.
    + now rewrite lookup_insert_ne.
Qed.

Lemma parseHeaderAttrs_records (attrs : list Attribute) (m0 m : gmap string URIRef)
    (a : Attribute) :
  parseHeaderAttrs attrs m0 = (m, None) ->
  In a attrs -> attr_SchemaName a = "xmlns" -> is_Some (m !! attr_Name a).
Proof.
  revert m0. induction attrs as [|b attrs IH]; intros m0; cbn [parseHeaderAttrs];
    [intros _ []|].
  intros Hrun [-> | Hin] Hx.
  - rewrite (proj2 (String.eqb_eq _ _) Hx) in Hrun.
    destruct (NewURIRef (attr_Value a)) as [u|]; [|discriminate].
    apply (parseHeaderAttrs_grows _ _ _ _ Hrun). rewrite lookup_insert_eq. eauto.
  - destruct (String.eqb (attr_SchemaName b) "xmlns"); [|now apply (IH m0)].
    destruct (NewURIRef (attr_Value b)) as [u|]; [|discriminate].
    now apply (IH _ Hrun).
Qed.

(** C2, amended.  The table of a new parser has the zero-value URI under
    the empty prefix.  [parseHeaderBlock] reads the attributes with the
    prefix [xmlns] and no others: its result is that of the same root
    without the other attributes.  When it returns no error, each entry of
    its table comes from an attribute [xmlns:k]; every attribute [xmlns:k]
    has its entry under [k], which holds the URI of the last declaration of
    [k]; and a prefix that no attribute declares has no entry.  So a
    declaration [xmlns="..."], whose prefix is empty, is not recorded. *)
Theorem parseHeaderBlock_records_prefixed_declarations (rootBlock : Block) :
  schemaDefinition New !! "" = Some zeroURIRef
  /\ parseHeaderBlock rootBlock
     = parseHeaderBlock
         (mkBlock (mkTag (SchemaName (OpeningTag rootBlock))
                         (Name (OpeningTag rootBlock))
                         (xmlnsAttrs (Attrs (OpeningTag rootBlock))))
                  (Value rootBlock) (Children rootBlock))
  /\ (forall (m : gmap string URIRef) (k : string) (u : URIRef),
       parseHeaderBlock rootBlock = (m, None) -> m !! k = Some u ->
       exists attr, In attr (Attrs (OpeningTag rootBlock))
         /\ attr_SchemaName attr = "xmlns" /\ attr_Name attr = k
         /\ NewURIRef (attr_Value attr) = Some u)
  /\ (forall (m : gmap string URIRef) (l1 l2 : list Attribute) (a : Attribute),
       parseHeaderBlock rootBlock = (m, None) ->
       Attrs (OpeningTag rootBlock) = (l1 ++ a :: l2)%list ->
       attr_SchemaName a = "xmlns" ->
       (forall b, In b l2 -> ~ declares (attr_Name a) b) ->
       exists u, NewURIRef (attr_Value a) = Some u /\ m !! attr_Name a = Some u)
  /\ (forall (m : gmap string URIRef) (a : Attribute),
       parseHeaderBlock rootBlock = (m, None) ->
       In a (Attrs (OpeningTag rootBlock)) -> attr_SchemaName a = "xmlns" ->
       is_Some (m !! attr_Name a))
  /\ (forall (m : gmap string URIRef) (k : string),
       parseHeaderBlock rootBlock = (m, None) ->
       (forall a, In a (Attrs (OpeningTag rootBlock)) -> ~ declares k a) ->
       m !! k = None).
Proof.
  split; [reflexivity|]. split; [apply parseHeaderAttrs_xmlns|].
  split; [|split; [|split]].
  - intros m k u Hrun Hk.
    destruct (parseHeaderAttrs_entries _ _ _ _ _ Hrun Hk) as [He|He];
      [|exact He].
    rewrite lookup_empty in He. discriminate.
  - unfold parseHeaderBlock. intros m l1 l2 a Hrun Hattrs Hx Hl2.
    rewrite Hattrs in Hrun. exact (parseHeaderAttrs_last l1 l2 a m Hrun Hx Hl2).
  - unfold parseHeaderBlock. intros m a Hrun Hin Hx.
    exact (parseHeaderAttrs_records _ _ _ _ Hrun Hin Hx).
  - unfold parseHeaderBlock. intros m k Hrun Hno.
    rewrite (parseHeaderAttrs_keeps _ _ _ k Hno Hrun). apply lookup_empty.
Qed.

End Namespaces.

Lemma parseHeaderBlock_records_prefixed_declarations_witness :
  (exists attr,
      In attr [mkAttribute "" "xmlns" "http://default.org/";
               mkAttribute "xmlns" "ex" "http://a.org/";
               mkAttribute "xmlns" "ex" "http://ex.org/"]
      /\ attr_SchemaName attr = "xmlns" /\ attr_Name attr = "ex"
      /\ NewURIRef (attr_Value attr) = Some (mkStringURI "http://ex.org/" ""))
  /\ (exists u,
        NewURIRef (attr_Value (mkAttribute "xmlns" "ex" "http://ex.org/")) = Some u
        /\ ({[ "ex" := mkStringURI "http://ex.org/" "" ]} : gmap string URIRef)
           !! attr_Name (mkAttribute "xmlns" "ex" "http://ex.org/") = Some u)
  /\ ({[ "ex" := mkStringURI "http://ex.org/" "" ]} : gmap string URIRef) !! ""
     = None.
Proof.
  pose (root := mkBlock (mkTag "rdf" "RDF"
                           [mkAttribute "" "xmlns" "http://default.org/";
                            mkAttribute "xmlns" "ex" "http://a.org/";
                            mkAttribute "xmlns" "ex" "http://ex.org/"]) "" []).
  assert (Hrun : parseHeaderBlock (U := stringURI) root
                 = ({[ "ex" := mkStringURI "http://ex.org/" "" ]}, None))
    by (vm_compute; reflexivity).
  split; [|split].
  - apply (proj1 (proj2 (proj2 (parseHeaderBlock_records_prefixed_declarations
             (U := stringURI) root)))
             {[ "ex" := mkStringURI "http://ex.org/" "" ]}
             "ex" (mkStringURI "http://ex.org/" "")).
    + exact Hrun.
    + vm_compute. reflexivity.
  - apply (proj1 (proj2 (proj2 (proj2
             (parseHeaderBlock_records_prefixed_declarations
                (U := stringURI) root))))
             {[ "ex" := mkStringURI "http://ex.org/" "" ]}
             [mkAttribute "" "xmlns" "http://default.org/";
              mkAttribute "xmlns" "ex" "http://a.org/"]
             []
             (mkAttribute "xmlns" "ex" "http://ex.org/")).
    + exact Hrun.
    + reflexivity.
    + reflexivity.
    + intros b [].
  - apply (proj2 (proj2 (proj2 (proj2 (proj2
             (parseHeaderBlock_records_prefixed_declarations
                (U := stringURI) root)))))
             {[ "ex" := mkStringURI "http://ex.org/" "" ]} "").
    + exact Hrun.
    + intros a [<- | [<- | [<- | []]]] [Hx Hk]; discriminate.
Defined.

(** C2, as stated, fails: [Parse] replaces the table of the new parser by
    the one [parseHeaderBlock] builds from the empty map, and a default
    namespace declaration on the root leaves no entry under the empty
    prefix. *)
Lemma Parse_drops_empty_prefix :
  schemaDefinition New !! "" = Some zeroURIRef
  /\ exists c, ParseStart New defaultNamespaceDocument = Some (inr c)
       /\ schemaDefinition (parser c) !! "" = None.
Proof. split; [reflexivity|]. eexists. split; vm_compute; reflexivity. Qed.

(** ** Node identity *)

Lemma to_int_not_nil (z : Z) : Z.to_int z <> Pos Nil /\ Z.to_int z <> Neg Nil.
Proof.
  destruct z as [|q|q]; simpl; split; try discriminate;
    intros [= H]; now apply DecimalPos.Unsigned.to_uint_nonnil in H.
Qed.

Lemma blankID_inj (a b : Z) : blankID a = blankID b -> a = b.
Proof.
  unfold blankID. intros [= H].
  apply (f_equal NilZero.int_of_string) in H.
  destruct (to_int_not_nil a) as [Ha1 Ha2], (to_int_not_nil b) as [Hb1 Hb2].
  rewrite !NilZero.isi in H by assumption.
  injection H as H. now apply DecimalZ.to_int_inj.
Qed.

Lemma laterGetter_refl (g : BlankNodeGetter) : laterGetter g g.
Proof. split; [lia | reflexivity]. Qed.

Lemma laterGetter_trans (g1 g2 g3 : BlankNodeGetter) :
  laterGetter g1 g2 -> laterGetter g2 g3 -> laterGetter g1 g3.
Proof. intros [H1 H2] [H3 H4]. split; [lia | now transitivity (minted g2)]. Qed.

Lemma Get_later (g : BlankNodeGetter) : laterGetter g (snd (Get g)).
Proof. split; simpl; [lia | reflexivity]. Qed.

Lemma GetFromId_later (id : string) (g : BlankNodeGetter) :
  laterGetter g (snd (GetFromId id g)).
Proof.
  unfold GetFromId. destruct (minted g !! id) eqn:Hl; simpl.
  - apply laterGetter_refl.
  - split; simpl; [lia | now apply insert_subseteq].
Qed.

Section NodeIdentity.
Context `{U : URI} `{F : NodeFormat}.

(** [nodeFromTag] in terms of what the two searches find. *)
Lemma nodeFromTag_cases (p : Parser) (tag : Tag) :
  nodeFromTag p tag
  = match scannedRDFValue p tag "about", scannedRDFValue p tag "nodeID" with
    | Some v, _ => (Some (mkNode IRI v), None, blankNodeGetter p)
    | None, Some v =>
        (Some (fst (GetFromId v (blankNodeGetter p))), None,
         snd (GetFromId v (blankNodeGetter p)))
    | None, None =>
        (Some (fst (Get (blankNodeGetter p))), None, snd (Get (blankNodeGetter p)))
    end.
Proof.
  unfold nodeFromTag, scannedRDFValue, getRDFAttributeIndex, scannedRDFAttribute.
  rewrite !getRDFAttributeLoop_scanned.
  destruct (findIndex (isRDFAttribute p "about") 0 _ =? -1); [|reflexivity].
  destruct (findIndex (isRDFAttribute p "nodeID") 0 _ =? -1).
  - reflexivity.
  - destruct (GetFromId _ _). reflexivity.
Qed.

Lemma nodeFromTag_later (p : Parser) (tag : Tag) :
  laterGetter (blankNodeGetter p) (snd (nodeFromTag p tag)).
Proof.
  rewrite nodeFromTag_cases.
  destruct (scannedRDFValue p tag "about");
    [apply laterGetter_refl|].
  destruct (scannedRDFValue p tag "nodeID"); simpl;
    [apply GetFromId_later | apply Get_later].
Qed.

Lemma stepLocal_later (p p' : Parser) (sl sl' : list (option error))
    (u u' : Unit) (started : list Unit) :
  stepLocal p sl u = Some (u', p', sl', started) ->
  laterGetter (blankNodeGetter p) (blankNodeGetter p').
Proof.
  unfold stepLocal.
  destruct (line u);
    repeat match goal with
           | |- context [match ?x with _ => _ end] =>
               lazymatch x with
               | nodeFromTag _ _ => fail
               | _ => destruct x
               end
           end;
    try discriminate;
    try (intros [= <- <- <- <-]; simpl; apply laterGetter_refl).
  - pose proof (nodeFromTag_later p (OpeningTag (predicateBlock u))) as H.
    destruct (nodeFromTag _ _) as [[n e] g]. intros [= <- <- <- <-]. exact H.
  - pose proof (nodeFromTag_later p (OpeningTag (objectBlock u))) as H.
    destruct (nodeFromTag _ _) as [[n e] g]. intros [= <- <- <- <-]. exact H.
Qed.

Lemma stepUnit_later (i : nat) (c c' : Config) :
  stepUnit i c = Some c' ->
  laterGetter (blankNodeGetter (parser c)) (blankNodeGetter (parser c')).
Proof.
  unfold stepUnit. destruct (units c !! i) as [u|]; [|discriminate].
  destruct (stepLocal (parser c) (slots c) u) as [[[[u' p'] sl'] started]|] eqn:Hs;
    [|discriminate].
  intros [= <-]. simpl. exact (stepLocal_later _ _ _ _ _ _ _ Hs).
Qed.

Lemma stepMain_later (c c' : Config) :
  stepMain c = Some c' ->
  laterGetter (blankNodeGetter (parser c)) (blankNodeGetter (parser c')).
Proof.
  unfold stepMain.
  destruct (mainLine c);
    repeat match goal with
           | |- context [match ?x with _ => _ end] =>
               lazymatch x with
               | nodeFromTag _ _ => fail
               | _ => destruct x
               end
           end;
    try discriminate;
    try (intros [= <-]; simpl; apply laterGetter_refl).
  pose proof (nodeFromTag_later (parser c) (OpeningTag (child c))) as H.
  destruct (nodeFromTag _ _) as [[n e] g]. intros [= <-]. exact H.
Qed.

Lemma run_later (schedule : list Thread) (c c' : Config) :
  run schedule c = Some c' ->
  laterGetter (blankNodeGetter (parser c)) (blankNodeGetter (parser c')).
Proof.
  revert c. induction schedule as [|t schedule IH]; intros c; simpl.
  - intros [= <-]. apply laterGetter_refl.
  - destruct (step t c) as [c1|] eqn:Hs; [|discriminate].
    intros Hr. apply (laterGetter_trans _ (blankNodeGetter (parser c1))).
    + destruct t; [now apply stepMain_later | now apply (stepUnit_later i)].
    + now apply IH.
Qed.

End NodeIdentity.

Section NodeIdentityTheorem.
Context `{U : URI} `{F : NodeFormat}.

(** What [nodeFromTag] yields, in terms of what the attribute search finds:
    a tag with an [rdf:about] yields the IRI node of its value; otherwise a
    tag with an [rdf:nodeID] yields the node cached for the id, or a newly
    numbered blank node that it caches; otherwise the tag yields a newly
    numbered blank node.  Two tags with the same [rdf:nodeID], the second
    resolved in any later state of the getter, yield the same node; two
    tags with neither attribute yield different nodes; and every run of the
    extractor leads to a later state of the getter. *)
Theorem nodeFromTag_identity (p p2 : Parser) (tag tag2 : Tag) :
  let g := blankNodeGetter p in
  (forall v, scannedRDFValue p tag "about" = Some v ->
             nodeFromTag p tag = (Some (mkNode IRI v), None, g))
  /\ (forall v, scannedRDFValue p tag "about" = None ->
                scannedRDFValue p tag "nodeID" = Some v ->
        exists n g', nodeFromTag p tag = (Some n, None, g')
          /\ minted g' !! v = Some n
          /\ match minted g !! v with
             | Some n0 => n = n0 /\ g' = g
             | None => n = mkNode BLANK (blankID (lastid g + 1))
             end)
  /\ (scannedRDFValue p tag "about" = None ->
      scannedRDFValue p tag "nodeID" = None ->
      nodeFromTag p tag
      = (Some (mkNode BLANK (blankID (lastid g + 1))), None,
         mkBlankNodeGetter (lastid g + 1) (minted g)))
  /\ (forall v n1 g1 n2 g2,
        scannedRDFValue p tag "about" = None ->
        scannedRDFValue p tag "nodeID" = Some v ->
        scannedRDFValue p2 tag2 "about" = None ->
        scannedRDFValue p2 tag2 "nodeID" = Some v ->
        nodeFromTag p tag = (Some n1, None, g1) ->
        laterGetter g1 (blankNodeGetter p2) ->
        nodeFromTag p2 tag2 = (Some n2, None, g2) ->
        n1 = n2)
  /\ (forall n1 g1 n2 g2,
        scannedRDFValue p tag "about" = None ->
        scannedRDFValue p tag "nodeID" = None ->
        scannedRDFValue p2 tag2 "about" = None ->
        scannedRDFValue p2 tag2 "nodeID" = None ->
        nodeFromTag p tag = (Some n1, None, g1) ->
        laterGetter g1 (blankNodeGetter p2) ->
        nodeFromTag p2 tag2 = (Some n2, None, g2) ->
        n1 <> n2)
  /\ (forall schedule c c',
        run schedule c = Some c' ->
        laterGetter (blankNodeGetter (parser c)) (blankNodeGetter (parser c'))).
Proof.
  intros g. subst g. repeat apply conj.
  - intros v Ha. rewrite nodeFromTag_cases, Ha. reflexivity.
  - intros v Ha Hn. rewrite nodeFromTag_cases, Ha, Hn.
    unfold GetFromId. destruct (minted (blankNodeGetter p) !! v) as [n0|] eqn:Hl.
    + exists n0, (blankNodeGetter p). simpl. auto.
    + eexists _, _. simpl. split; [reflexivity|].
      split; [apply lookup_insert_eq | reflexivity].
  - intros Ha Hn. rewrite nodeFromTag_cases, Ha, Hn. reflexivity.
  - intros v n1 g1 n2 g2 Ha Hn Ha2 Hn2.
    rewrite !nodeFromTag_cases, Ha, Hn, Ha2, Hn2.
    intros [= <- <-] [_ Hsub] [= <- _].
    assert (Hc : minted (snd (GetFromId v (blankNodeGetter p))) !! v
                 = Some (fst (GetFromId v (blankNodeGetter p)))).
    { unfold GetFromId.
      destruct (minted (blankNodeGetter p) !! v) eqn:Hl; simpl;
        [exact Hl | apply lookup_insert_eq]. }
    apply (lookup_weaken _ _ _ _ Hc) in Hsub.
    unfold GetFromId at 2. now rewrite Hsub.
  - intros n1 g1 n2 g2 Ha Hn Ha2 Hn2.
    rewrite !nodeFromTag_cases, Ha, Hn, Ha2, Hn2. simpl.
    intros [= <- <-] [Hle _] [= <- _] Heq. simpl in Hle.
    apply (f_equal ID) in Heq.
    change (blankID (lastid (blankNodeGetter p) + 1)
            = blankID (lastid (blankNodeGetter p2) + 1)) in Heq.
    apply blankID_inj in Heq. lia.
  - intros schedule c c'. apply run_later.
Qed.

End NodeIdentityTheorem.

Lemma nodeFromTag_identity_witness :
  nodeFromTag rdfExParser tagAbout
  = (Some (mkNode IRI "http://ex.org/1"), None, blankNodeGetter rdfExParser)
  /\ mkNode BLANK "N0" = mkNode BLANK "N0"
  /\ mkNode BLANK "N0" <> mkNode BLANK "N1".
Proof.
  pose (g1 := mkBlankNodeGetter 0 {[ "n1" := mkNode BLANK "N0" ]}).
  pose (g2 := mkBlankNodeGetter 0 ∅).
  repeat apply conj.
  - apply (proj1 (nodeFromTag_identity rdfExParser rdfExParser tagAbout tagAbout)).
    vm_compute. reflexivity.
  - apply (proj1 (proj2 (proj2 (proj2
             (nodeFromTag_identity rdfExParser (setBlankNodeGetter rdfExParser g1)
                tagNodeID tagNodeID'))))
             "n1" (mkNode BLANK "N0") g1 (mkNode BLANK "N0") g1).
    + vm_compute. reflexivity.
    + vm_compute. reflexivity.
    + vm_compute. reflexivity.
    + vm_compute. reflexivity.
    + vm_compute. reflexivity.
    + split; [simpl; lia | reflexivity].
    + vm_compute. reflexivity.
  - apply (proj1 (proj2 (proj2 (proj2 (proj2
             (nodeFromTag_identity rdfExParser (setBlankNodeGetter rdfExParser g2)
                tagPlain tagPlain)))))
             (mkNode BLANK "N0") g2 (mkNode BLANK "N1") (mkBlankNodeGetter 1 ∅)).
    + vm_compute. reflexivity.
    + vm_compute. reflexivity.
    + vm_compute. reflexivity.
    + vm_compute. reflexivity.
    + vm_compute. reflexivity.
    + split; [simpl; lia | reflexivity].
    + vm_compute. reflexivity.
Defined.

(** C4.  The tag has an [rdf:about] attribute, at index 1, after an
    attribute with an undeclared prefix.  [nodeFromTag] does not yield the
    IRI node of the value of that attribute: it yields a blank node, without
    an error, because the attribute search stops at the attribute at index 0
    and reports nothing found. *)
Theorem nodeFromTag_misses_about :
  firstRDFAttribute rdfOnlyParser aboutAfterUndeclared "about" = 1
  /\ attr_Value (attrAt aboutAfterUndeclared 1) = "http://ex.org/1"
  /\ fst (fst (nodeFromTag rdfOnlyParser aboutAfterUndeclared))
     = Some (mkNode BLANK "N0")
  /\ fst (fst (nodeFromTag rdfOnlyParser aboutAfterUndeclared))
     <> Some (mkNode IRI "http://ex.org/1").
Proof. repeat apply conj; try (vm_compute; reflexivity). vm_compute. discriminate. Qed.

(** ** The extractor *)

Section Extractor.
Context `{U : URI} `{F : NodeFormat}.

(** Running [n] statements of the goroutine [i] alone. *)
Lemma run_local (n : nat) (i : nat) (c : Config) (u u' : Unit) (p' : Parser)
    (sl' : list (option error)) (started : list Unit) :
  units c !! i = Some u ->
  runLocal n (parser c) (slots c) u = Some (u', p', sl', started) ->
  run (replicate n (Go i)) c
  = Some (mkConfig p' sl' (mainLine c) (rootChildren c) (child c) (childNode c)
                   (<[i := u']> (units c) ++ started)%list).
Proof.
  revert c u u' p' sl' started.
  induction n as [|n IH]; intros c u u' p' sl' started Hu; simpl.
  - intros [= <- <- <- <-]. rewrite app_nil_r, list_insert_id by assumption.
    now destruct c.
  - unfold stepUnit. rewrite Hu.
    destruct (stepLocal (parser c) (slots c) u) as [[[[u1 p1] sl1] st1]|];
      [|discriminate].
    destruct (runLocal n p1 sl1 u1) as [[[[u2 p2] sl2] st2]|] eqn:Hrun;
      [|discriminate].
    intros [= <- <- <- <-].
    assert (Hi : (i < length (units c))%nat) by (eapply lookup_lt_Some; eauto).
    rewrite (IH _ u1 u2 p2 sl2 st2); simpl.
    + rewrite insert_app_l by (now rewrite length_insert).
      now rewrite list_insert_insert_eq, <- app_assoc.
    + rewrite lookup_app_l by (now rewrite length_insert).
      now apply list_lookup_insert_eq.
    + exact Hrun.
Qed.

Lemma readSlot_written_nil (sl : list (option error)) (e : nat) :
  readSlot (writeSlot e None sl) e = None.
Proof.
  unfold readSlot, writeSlot.
  destruct (decide (e < length sl)%nat) as [Hlt|Hge].
  - now rewrite list_lookup_insert_eq.
  - rewrite list_insert_ge by lia.
    now rewrite lookup_ge_None_2 by lia.
Qed.

Lemma nodeFromTag_no_error (p : Parser) (tag : Tag) :
  exists n g, nodeFromTag p tag = (Some n, None, g).
Proof.
  rewrite nodeFromTag_cases.
  destruct (scannedRDFValue p tag "about");
    [|destruct (scannedRDFValue p tag "nodeID")]; eauto.
Qed.

(** The search reads the namespace table and the RDF namespace only. *)
Lemma getRDFAttributeLoop_ext (p p' : Parser) (attrName : string)
    (attrs : list Attribute) (i : Z) :
  schemaDefinition p' = schemaDefinition p -> rdfNS p' = rdfNS p ->
  getRDFAttributeLoop p' attrName i attrs = getRDFAttributeLoop p attrName i attrs.
Proof.
  intros Hs Hr. revert i.
  induction attrs as [|a attrs IH]; intros i; simpl; [reflexivity|].
  unfold uriFromPair. rewrite Hs, Hr.
  destruct (schemaDefinition p !! attr_SchemaName a); [|reflexivity].
  destruct (decide _); [reflexivity | apply IH].
Qed.

End Extractor.

Section ExtractorLiteral.
Context `{U : URI} `{F : NodeFormat}.

Lemma runLocal_cons (n : nat) (p p1 p2 : Parser) (sl sl1 sl2 : list (option error))
    (u u1 u2 : Unit) (started : list Unit) :
  stepLocal p sl u = Some (u1, p1, sl1, []) ->
  runLocal n p1 sl1 u1 = Some (u2, p2, sl2, started) ->
  runLocal (S n) p sl u = Some (u2, p2, sl2, started).
Proof. simpl. intros -> ->. reflexivity. Qed.

Ltac local_step tac :=
  eapply runLocal_cons;
  [ unfold stepLocal;
    cbn -[readSlot writeSlot nodeFromTag getRDFAttributeIndex Hash uriFromPair
          checkErrp appendTriple rdfTypeTriple literalTriple];
    tac;
    cbn -[readSlot writeSlot nodeFromTag getRDFAttributeIndex Hash uriFromPair
          checkErrp appendTriple rdfTypeTriple literalTriple findIndex takeWhile];
    reflexivity
  | ].

(** A call of [parseBlock] at the head of its loop, whose
    block has a declared prefix and whose next predicate block has no
    children, running alone for the fourteen statements up to line 205,
    stores the [rdf:type] triple and the triple of the subject, the
    predicate block's node and a literal node.  The literal holds the value
    of the [rdf:resource] attribute that the attribute search finds, and
    the text of the block when the search finds none. *)
Theorem parseBlock_emits_literal (c : Config) (i : nat) (u : Unit)
    (pb : Block) (ps : list Block) (base : URIRef) :
  units c !! i = Some u -> line u = L168 -> preds u = pb :: ps ->
  Children pb = [] ->
  schemaDefinition (parser c) !! SchemaName (OpeningTag (currBlock u)) = Some base ->
  let p := parser c in
  let predicateNode := fst (fst (nodeFromTag p (OpeningTag pb))) in
  let objectValue :=
    default (Value pb) (scannedRDFValue p (OpeningTag pb) "resource") in
  let typeTriple :=
    mkTriple (node u)
      (Some (mkNode IRI (URIString (AddFragment (rdfNS p) "type"))))
      (Some (mkNode IRI
               (URIString (AddFragment base (Name (OpeningTag (currBlock u))))))) in
  let literal :=
    mkTriple (node u) predicateNode (Some (mkNode LITERAL objectValue)) in
  exists c', run (replicate 14 (Go i)) c = Some c'
    /\ Triples (parser c')
       = <[Hash literal := literal]> (<[Hash typeTriple := typeTriple]> (Triples p)).
Proof.
  intros Hu Hl Hp Hc Hb p predicateNode objectValue typeTriple literal.
  destruct (nodeFromTag_no_error p (OpeningTag pb)) as (n & g & Hn).
  assert (Hrun : exists u' p' sl',
             runLocal 14 p (slots c) u = Some (u', p', sl', [])
             /\ Triples p' = <[Hash literal := literal]>
                               (<[Hash typeTriple := typeTriple]> (Triples p))).
  { subst predicateNode objectValue typeTriple literal. rewrite Hn.
    destruct u as [cb nd ep ln pr pb0 pn ne ou ri ob ob0 on].
    simpl in Hl, Hp, Hb. subst ln pr. fold p in Hb.
    eexists _, _, _. split.
    - local_step idtac.
      local_step ltac:(rewrite Hn).
      local_step idtac.
      local_step ltac:(unfold checkErrp; rewrite readSlot_written_nil).
      local_step ltac:(unfold uriFromPair; cbn [schemaDefinition setBlankNodeGetter];
                       rewrite Hb).
      local_step idtac.
      local_step ltac:(unfold checkErrp; rewrite readSlot_written_nil).
      local_step idtac.
      local_step ltac:(unfold checkErrp; rewrite readSlot_written_nil).
      local_step ltac:(rewrite Hc).
      local_step ltac:(unfold getRDFAttributeIndex;
                       rewrite (getRDFAttributeLoop_ext p) by reflexivity;
                       rewrite getRDFAttributeLoop_scanned).
      local_step idtac.
      local_step ltac:(unfold checkErrp; rewrite readSlot_written_nil).
      local_step idtac.
      reflexivity.
    - unfold appendTriple, literalTriple, rdfTypeTriple, objectString,
        scannedRDFValue, scannedRDFAttribute.
      cbn -[Hash findIndex takeWhile].
      destruct (findIndex (isRDFAttribute p "resource") 0
                  (takeWhile (resolves p) (Attrs (OpeningTag pb))) =? -1);
        cbn [negb default]; reflexivity. }
  destruct Hrun as (u' & p' & sl' & Hrun & Ht).
  eexists. split; [apply (run_local 14 i c u u' p' sl' [] Hu Hrun) | exact Ht].
Qed.

End ExtractorLiteral.

Lemma parseBlock_emits_literal_witness :
  exists c',
    run (replicate 14 (Go 0%nat)) (configAfter resourceDocument (replicate 5 Main))
    = Some c'
    /\ Triples (parser c')
       !! Hash (literalOf (mkNode IRI "http://ex.org/1") (mkNode BLANK "N0")
                          "http://ex.org/Bob")
       = Some (literalOf (mkNode IRI "http://ex.org/1") (mkNode BLANK "N0")
                         "http://ex.org/Bob").
Proof.
  destruct (parseBlock_emits_literal
              (configAfter resourceDocument (replicate 5 Main)) 0
              (newUnit exThing (Some (mkNode IRI "http://ex.org/1")) 0)
              (mkBlock (mkTag "ex" "name"
                          [mkAttribute "rdf" "resource" "http://ex.org/Bob"]) "" [])
              [] (mkStringURI "http://ex.org/" ""))
    as (c' & Hrun & Ht).
  - vm_compute; reflexivity.
  - reflexivity.
  - reflexivity.
  - reflexivity.
  - vm_compute; reflexivity.
  - exists c'. split; [exact Hrun|]. rewrite Ht. vm_compute. reflexivity.
Defined.

(** C5.  The predicate element of the document has no children and has an
    [rdf:resource] attribute, after an attribute with an undeclared prefix.
    [Parse] returns nil, and the literal it has stored for the element holds
    the text of the element, not the value of the [rdf:resource] attribute:
    the attribute search stops at the undeclared attribute and reports
    nothing found. *)
Theorem parseBlock_misses_resource :
  exists c subject pb c',
    startOf resourceAfterUndeclared = Some c
    /\ rootChildren c = [subject] /\ Children subject = [pb] /\ Children pb = []
    /\ firstRDFAttribute (parser c) (OpeningTag pb) "resource" = 1
    /\ attr_Value (attrAt (OpeningTag pb) 1) = "http://ex.org/Bob"
    /\ Value pb = "Bob"
    /\ run (replicate 7 Main ++ replicate 17 (Go 0%nat) ++ [Main; Main]) c = Some c'
    /\ mainLine c' = MReturned None
    /\ Triples (parser c')
       !! Hash (literalOf (mkNode IRI "http://ex.org/1") (mkNode BLANK "N0") "Bob")
       = Some (literalOf (mkNode IRI "http://ex.org/1") (mkNode BLANK "N0") "Bob")
    /\ Triples (parser c')
       !! Hash (literalOf (mkNode IRI "http://ex.org/1") (mkNode BLANK "N0")
                          "http://ex.org/Bob")
       = None.
Proof.
  exists (configAfter resourceAfterUndeclared []).
  exists (mkBlock (mkTag "ex" "Thing" [mkAttribute "rdf" "about" "http://ex.org/1"]) ""
            [mkBlock (mkTag "ex" "name"
                        [mkAttribute "foo" "x" "1";
                         mkAttribute "rdf" "resource" "http://ex.org/Bob"])
               "Bob" []]).
  exists (mkBlock (mkTag "ex" "name"
                     [mkAttribute "foo" "x" "1";
                      mkAttribute "rdf" "resource" "http://ex.org/Bob"])
            "Bob" []).
  exists (configAfter resourceAfterUndeclared
            (replicate 7 Main ++ replicate 17 (Go 0%nat) ++ [Main; Main])).
  repeat apply conj; vm_compute; reflexivity.
Qed.

(** ** The join counter *)

Section JoinCounter.
Context `{U : URI} `{F : NodeFormat}.

Lemma outstanding_nonneg (u : Unit) : 0 <= outstanding u.
Proof. unfold outstanding. destruct (line u); lia. Qed.

Lemma sumOutstanding_nonneg (us : list Unit) : 0 <= sumOutstanding us.
Proof.
  induction us as [|u us IH]; simpl; [lia|].
  pose proof (outstanding_nonneg u). lia.
Qed.

Lemma sumOutstanding_app (us vs : list Unit) :
  sumOutstanding (us ++ vs) = sumOutstanding us + sumOutstanding vs.
Proof. induction us as [|u us IH]; simpl; lia. Qed.

Lemma sumOutstanding_insert (us : list Unit) (i : nat) (u u' : Unit) :
  us !! i = Some u ->
  sumOutstanding (<[i := u']> us) = sumOutstanding us - outstanding u + outstanding u'.
Proof.
  revert i. induction us as [|v us IH]; intros [|i]; simpl; try discriminate.
  - intros [= ->]. lia.
  - intros H. rewrite (IH i H). lia.
Qed.

Lemma sumOutstanding_lookup (us : list Unit) (i : nat) (u : Unit) :
  us !! i = Some u -> outstanding u <= sumOutstanding us.
Proof.
  revert i. induction us as [|v us IH]; intros [|i]; simpl; try discriminate.
  - intros [= ->]. pose proof (sumOutstanding_nonneg us). lia.
  - intros H. pose proof (IH i H). pose proof (outstanding_nonneg v). lia.
Qed.

Lemma sumOutstanding_zero (us : list Unit) :
  sumOutstanding us <= 0 -> Forall (fun u => line u = Finished) us.
Proof.
  induction us as [|u us IH]; simpl; intros H; constructor.
  - pose proof (sumOutstanding_nonneg us).
    unfold outstanding in H. destruct (line u); auto; lia.
  - apply IH. pose proof (outstanding_nonneg u). lia.
Qed.

(** What one statement of [parseBlock] does to the counter is what it does
    to the calls' holdings; and it leaves the function by [Finished] or
    [Returned] only. *)
Lemma stepLocal_counter (p p' : Parser) (sl sl' : list (option error))
    (u u' : Unit) (started : list Unit) :
  stepLocal p sl u = Some (u', p', sl', started) ->
  wg p' - wg p = outstanding u' + sumOutstanding started - outstanding u
  /\ line u <> Finished /\ line u <> Returned.
Proof.
  unfold stepLocal, checkErrp. intros H.
  destruct (line u) eqn:Hl;
    repeat match type of H with
           | context [match ?x with _ => _ end] => destruct x
           end;
    try discriminate;
    injection H as <- <- <- <-;
    unfold outstanding; rewrite Hl; simpl;
    repeat split; try congruence; try lia.
  change (outstanding (newUnit (objectBlock u) (objectNode u) (errp u))) with 1.
  lia.
Qed.

(** A call that returns early leaves the counter as it is and starts
    nothing. *)
Lemma stepLocal_returned (p p' : Parser) (sl sl' : list (option error))
    (u u' : Unit) (started : list Unit) :
  stepLocal p sl u = Some (u', p', sl', started) -> line u' = Returned ->
  wg p' = wg p /\ started = [].
Proof.
  unfold stepLocal, checkErrp. intros H.
  destruct (line u) eqn:Hl;
    repeat match type of H with
           | context [match ?x with _ => _ end] => destruct x
           end;
    try discriminate;
    injection H as <- <- <- <-; simpl; intros Hr; try discriminate;
    split; reflexivity.
Qed.

End JoinCounter.

Section JoinCounterInvariant.
Context `{U : URI} `{F : NodeFormat}.

Lemma stepUnit_invariant (i : nat) (c c' : Config) :
  stepUnit i c = Some c' -> counterInvariant c -> counterInvariant c'.
Proof.
  unfold stepUnit. destruct (units c !! i) as [u|] eqn:Hu; [|discriminate].
  destruct (stepLocal (parser c) (slots c) u) as [[[[u' p'] sl'] started]|] eqn:Hs;
    [|discriminate].
  intros [= <-] [Hle Hpast].
  destruct (stepLocal_counter _ _ _ _ _ _ _ Hs) as (Hwg & Hnf & _).
  split; simpl.
  - unfold totalOutstanding in *. simpl.
    rewrite sumOutstanding_app, (sumOutstanding_insert _ _ u u' Hu). lia.
  - intros Hp. specialize (Hpast Hp).
    rewrite Forall_lookup in Hpast. now specialize (Hpast i u Hu).
Qed.

Lemma stepMain_invariant (c c' : Config) :
  stepMain c = Some c' -> counterInvariant c -> counterInvariant c'.
Proof.
  unfold stepMain, counterInvariant, totalOutstanding, pastWait.
  intros H [Hle Hpast].
  destruct (mainLine c) eqn:Hm; simpl in Hle.
  - destruct (rootChildren c); injection H as <-; simpl;
      (split; [lia | intros [|]; discriminate]).
  - injection H as <-; simpl. split; [lia | intros [|]; discriminate].
  - destruct (nodeFromTag _ _) as [[n e] g]. injection H as <-; simpl.
    split; [lia | intros [|]; discriminate].
  - destruct (readSlot _ _); injection H as <-; simpl;
      (split; [lia | intros [|]; discriminate]).
  - injection H as <-; simpl. rewrite sumOutstanding_app. simpl.
    change (outstanding (newUnit (child c) (childNode c) (length (slots c) - 1)))
      with 1.
    split; [lia | intros [|]; discriminate].
  - destruct (readSlot _ _); injection H as <-; simpl;
      (split; [lia | intros [|]; discriminate]).
  - destruct (Z.eqb_spec (wg (parser c)) 0) as [Hz|]; [|discriminate].
    injection H as <-; simpl. split; [lia|]. intros _.
    apply sumOutstanding_zero. lia.
  - injection H as <-; simpl. split; [lia|]. intros _. apply Hpast. now left.
  - discriminate.
Qed.

Lemma step_invariant (t : Thread) (c c' : Config) :
  step t c = Some c' -> counterInvariant c -> counterInvariant c'.
Proof.
  destruct t; [apply stepMain_invariant | apply stepUnit_invariant].
Qed.

Lemma run_invariant (schedule : list Thread) (c c' : Config) :
  run schedule c = Some c' -> counterInvariant c -> counterInvariant c'.
Proof.
  revert c. induction schedule as [|t schedule IH]; intros c; simpl.
  - now intros [= <-].
  - destruct (step t c) as [c1|] eqn:Hs; [|discriminate].
    intros Hr Hc. apply (IH c1 Hr). exact (step_invariant t c c1 Hs Hc).
Qed.

(** A call that has returned early stays so. *)
Lemma step_returnedEarly (t : Thread) (c c' : Config) :
  step t c = Some c' -> returnedEarly c -> returnedEarly c'.
Proof.
  intros Hs (j & v & Hv & Hl). destruct t as [|i]; simpl in Hs.
  - exists j, v. split; [|exact Hl].
    unfold stepMain in Hs.
    destruct (mainLine c);
      repeat match type of Hs with
             | context [match ?x with _ => _ end] => destruct x
             end;
      try discriminate; injection Hs as <-; simpl; try exact Hv.
    now apply lookup_app_l_Some.
  - unfold stepUnit in Hs.
    destruct (units c !! i) as [u|] eqn:Hu; [|discriminate].
    destruct (stepLocal (parser c) (slots c) u) as [[[[u' p'] sl'] started]|] eqn:Hst;
      [|discriminate].
    injection Hs as <-.
    destruct (stepLocal_counter _ _ _ _ _ _ _ Hst) as (_ & _ & Hnr).
    exists j, v. split; [|exact Hl]. simpl.
    apply lookup_app_l_Some.
    rewrite list_lookup_insert_ne; [exact Hv|].
    intros ->. rewrite Hu in Hv. injection Hv as ->. contradiction.
Qed.

Lemma run_returnedEarly (schedule : list Thread) (c c' : Config) :
  run schedule c = Some c' -> returnedEarly c -> returnedEarly c'.
Proof.
  revert c. induction schedule as [|t schedule IH]; intros c; simpl.
  - now intros [= <-].
  - destruct (step t c) as [c1|] eqn:Hs; [|discriminate].
    intros Hr Hc. apply (IH c1 Hr). exact (step_returnedEarly t c c1 Hs Hc).
Qed.

(** With a call that has returned early, the counter is positive. *)
Lemma returnedEarly_counter (c : Config) :
  counterInvariant c -> returnedEarly c ->
  1 <= wg (parser c) /\ ~ pastWait (mainLine c).
Proof.
  intros [Hle Hpast] (j & v & Hv & Hl). split.
  - pose proof (sumOutstanding_lookup _ _ _ Hv) as Hs.
    unfold outstanding in Hs. rewrite Hl in Hs.
    unfold totalOutstanding in Hle.
    assert (0 <= mainOutstanding (mainLine c))
      by (unfold mainOutstanding; destruct (mainLine c); lia).
    lia.
  - intros Hp. specialize (Hpast Hp). rewrite Forall_lookup in Hpast.
    specialize (Hpast j v Hv). congruence.
Qed.

Lemma run_app (s1 s2 : list Thread) (c : Config) :
  run (s1 ++ s2) c = match run s1 c with Some c1 => run s2 c1 | None => None end.
Proof.
  revert c. induction s1 as [|t s1 IH]; intros c; simpl; [reflexivity|].
  destruct (step t c); [apply IH | reflexivity].
Qed.

End JoinCounterInvariant.

Section JoinCounterTheorem.
Context `{U : URI} `{F : NodeFormat}.

Lemma startOf_invariant (document : string) (c : Config) :
  startOf document = Some c -> counterInvariant c.
Proof.
  unfold startOf, ParseStart.
  destruct (Read document) as [[[rootBlock [e|]] s]|]; try discriminate.
  destruct (parseHeaderBlock rootBlock) as [sd [e|]]; try discriminate.
  intros [= <-]. split; simpl.
  - unfold totalOutstanding. simpl. lia.
  - intros [|]; discriminate.
Qed.

Lemma runFrom_invariant (document : string) (schedule : list Thread) (c : Config) :
  runFrom document schedule = Some c -> counterInvariant c.
Proof.
  unfold runFrom. destruct (startOf document) as [c0|] eqn:Hs; [|discriminate].
  intros Hr. apply (run_invariant schedule c0 c Hr).
  now apply (startOf_invariant document).
Qed.

(** C3, amended.  A statement of [parseBlock] that returns early leaves the
    join counter as it is.  In every execution of [Parse], once a call of
    [parseBlock] has returned early the counter is at least one and stays
    so: [Parse] is not past [wg.Wait()] and has not returned nil, the wait
    cannot complete, and the same holds after any further steps. *)
Theorem early_return_blocks_wait (document : string) (schedule : list Thread)
    (c : Config) :
  runFrom document schedule = Some c -> returnedEarly c ->
  (forall p sl u u' p' sl' started,
      stepLocal p sl u = Some (u', p', sl', started) -> line u' = Returned ->
      wg p' = wg p)
  /\ 1 <= wg (parser c)
  /\ mainLine c <> M267 /\ mainLine c <> MReturned None
  /\ (mainLine c = M266 -> step Main c = None)
  /\ forall schedule' c',
       run schedule' c = Some c' ->
       returnedEarly c' /\ 1 <= wg (parser c')
       /\ mainLine c' <> M267 /\ mainLine c' <> MReturned None.
Proof.
  intros Hrun Hret.
  pose proof (runFrom_invariant _ _ _ Hrun) as Hinv.
  destruct (returnedEarly_counter c Hinv Hret) as [Hwg Hpast].
  unfold pastWait in Hpast.
  repeat apply conj; try tauto.
  - intros p sl u u' p' sl' started Hs Hl.
    exact (proj1 (stepLocal_returned _ _ _ _ _ _ _ Hs Hl)).
  - intros Hm. simpl. unfold stepMain. rewrite Hm.
    destruct (Z.eqb_spec (wg (parser c)) 0); [lia | reflexivity].
  - intros schedule' c' Hrun'.
    pose proof (run_invariant _ _ _ Hrun' Hinv) as Hinv'.
    pose proof (run_returnedEarly _ _ _ Hrun' Hret) as Hret'.
    destruct (returnedEarly_counter c' Hinv' Hret') as [Hwg' Hpast'].
    unfold pastWait in Hpast'. tauto.
Qed.

End JoinCounterTheorem.

Lemma early_return_blocks_wait_witness :
  let c := configAfter undeclaredDocument waitFirst in
  (forall p sl u u' p' sl' started,
      stepLocal p sl u = Some (u', p', sl', started) -> line u' = Returned ->
      wg p' = wg p)
  /\ 1 <= wg (parser c)
  /\ mainLine c <> M267 /\ mainLine c <> MReturned None
  /\ (mainLine c = M266 -> step Main c = None)
  /\ forall schedule' c',
       run schedule' c = Some c' ->
       returnedEarly c' /\ 1 <= wg (parser c')
       /\ mainLine c' <> M267 /\ mainLine c' <> MReturned None.
Proof.
  intros c.
  apply (early_return_blocks_wait undeclaredDocument waitFirst c).
  - vm_compute. reflexivity.
  - exists 0%nat, (goto Returned (default (newUnit emptyBlock None 0) (units c !! 0%nat))).
    split; [vm_compute; reflexivity | reflexivity].
Defined.

(** C3, as stated, fails: when the goroutine reaches its early return before
    [Parse] tests the error variable at line 262, [Parse] returns the error. *)
Lemma Parse_returns_after_early_return :
  let c := configAfter undeclaredDocument goroutineFirst in
  runFrom undeclaredDocument goroutineFirst = Some c
  /\ returnedEarly c
  /\ mainLine c = MReturned (Some (ErrUndefinedSchema "ex")).
Proof.
  intros c. repeat apply conj.
  - vm_compute. reflexivity.
  - exists 0%nat, (goto Returned (default (newUnit emptyBlock None 0) (units c !! 0%nat))).
    split; [vm_compute; reflexivity | reflexivity].
  - vm_compute. reflexivity.
Qed.


(** C1.  The subject element of the document has an undeclared prefix.
    [Parse] tests the error variable before the goroutine has written it and
    goes on to [wg.Wait()]; the goroutine stores the error and returns without
    [wg.Done()].  No thread can step any more: [Parse] never returns, with an
    error or without. *)
Theorem Parse_blocks_on_undeclared_prefix :
  let c := configAfter undeclaredDocument waitFirst in
  runFrom undeclaredDocument waitFirst = Some c
  /\ slots c = [Some (ErrUndefinedSchema "ex")]
  /\ mainLine c = M266
  /\ (forall t, step t c = None)
  /\ forall schedule c', run schedule c = Some c' -> mainLine c' = M266.
Proof.
  intros c.
  assert (Hrun : runFrom undeclaredDocument waitFirst = Some c)
    by (vm_compute; reflexivity).
  assert (Hslots : slots c = [Some (ErrUndefinedSchema "ex")])
    by (vm_compute; reflexivity).
  assert (Hmain : mainLine c = M266) by (vm_compute; reflexivity).
  assert (Hwg : wg (parser c) = 1) by (vm_compute; reflexivity).
  assert (Hunits : exists u, units c = [u] /\ line u = Returned).
  { exists (default (newUnit emptyBlock None 0) (units c !! 0%nat)).
    split; vm_compute; reflexivity. }
  destruct Hunits as (u & Hunits & Hline).
  clearbody c.
  assert (Hstuck : forall t, step t c = None).
  { intros [|i]; unfold step.
    - unfold stepMain. rewrite Hmain, Hwg. reflexivity.
    - unfold stepUnit. rewrite Hunits.
      destruct i as [|[|i]]; try reflexivity.
      cbn [lookup list_lookup]. unfold stepLocal. rewrite Hline. reflexivity. }
  repeat apply conj; try assumption.
  intros [|t schedule] c'; cbn [run].
  - intros [= <-]. exact Hmain.
  - rewrite Hstuck. discriminate.
Qed.

(** * Further properties *)

(** ** The reader on well-formed pieces *)

Lemma splitColon_first (a b : string) :
  ~ InStr ":" a -> splitColon (a ++ String ":" b) = Some (a, b).
Proof.
  induction a as [|x a IH]; intros Hn; simpl; [reflexivity|].
  destruct (Ascii.eqb_spec x ":") as [->|Hx].
  - exfalso. apply Hn, InStr_cons. now left.
  - rewrite IH; [reflexivity|]. intros H. apply Hn, InStr_cons. now right.
Qed.

Lemma splitColon_none (w : string) : ~ InStr ":" w -> splitColon w = None.
Proof.
  induction w as [|x w IH]; intros Hn; simpl; [reflexivity|].
  destruct (Ascii.eqb_spec x ":") as [->|Hx].
  - exfalso. apply Hn, InStr_cons. now left.
  - rewrite IH; [reflexivity|]. intros H. apply Hn, InStr_cons. now right.
Qed.

Lemma readColonPair_word (d : mask) (w : string) (c : ascii) (r : string) :
  (forall x, InStr x w -> is_delim d x = false) -> is_delim d c = true ->
  readColonPair d (w ++ String c r)
  = match splitColon w with
    | Some (first, latter) =>
        if (String.length latter =? 0)%nat
        then ((first, ""), true, Some ErrWordAfterColon, String c r)
        else ((first, latter), true, None, String c r)
    | None => ((w, ""), false, None, String c r)
    end.
Proof.
  intros Hw Hc. unfold readColonPair. now rewrite (readTill_stop d w c r Hw Hc).
Qed.

(** X1.  [readColonPair] on a word that ends at a delimiter: the word is
    split at its first colon; a word with nothing after that colon is an
    error; a word without a colon is returned whole, with the flag off.  The
    delimiter is left in the stream. *)
Theorem readColonPair_splits_at_first_colon
    (d : mask) (w : string) (c : ascii) (r : string) :
  (forall x, InStr x w -> is_delim d x = false) -> is_delim d c = true ->
  (forall a b, w = a ++ String ":" b -> ~ InStr ":" a -> b <> "" ->
     readColonPair d (w ++ String c r) = ((a, b), true, None, String c r))
  /\ (forall a, w = a ++ String ":" "" -> ~ InStr ":" a ->
        readColonPair d (w ++ String c r)
        = ((a, ""), true, Some ErrWordAfterColon, String c r))
  /\ (~ InStr ":" w ->
      readColonPair d (w ++ String c r) = ((w, ""), false, None, String c r)).
Proof.
  intros Hw Hc. rewrite (readColonPair_word d w c r Hw Hc). repeat apply conj.
  - intros a b -> Ha Hb. rewrite (splitColon_first a b Ha).
    destruct b; [congruence | reflexivity].
  - intros a -> Ha. rewrite (splitColon_first a "" Ha). reflexivity.
  - intros Hn. now rewrite (splitColon_none w Hn).
Qed.

Lemma forall_InStr_literal (P : ascii -> Prop) (s : string) :
  Forall P (list_ascii_of_string s) -> forall x, InStr x s -> P x.
Proof.
  intros H x Hx. rewrite Forall_forall in H. apply H, list_elem_of_In. exact Hx.
Qed.

Lemma readColonPair_splits_at_first_colon_witness :
  readColonPair attributeDelims "rdf:about='x'" = (("rdf", "about"), true, None, "='x'")
  /\ readColonPair attributeDelims "rdf:='x'"
     = (("rdf", ""), true, Some ErrWordAfterColon, "='x'")
  /\ readColonPair attributeDelims "about='x'" = (("about", ""), false, None, "='x'").
Proof.
  repeat apply conj.
  - apply (proj1 (readColonPair_splits_at_first_colon attributeDelims
                    "rdf:about" "=" "'x'"
                    ltac:(apply forall_InStr_literal; repeat constructor)
                    ltac:(reflexivity)) "rdf" "about").
    + reflexivity.
    + intros H. vm_compute in H. intuition discriminate.
    + discriminate.
  - apply (proj1 (proj2 (readColonPair_splits_at_first_colon attributeDelims
                    "rdf:" "=" "'x'"
                    ltac:(apply forall_InStr_literal; repeat constructor)
                    ltac:(reflexivity))) "rdf").
    + reflexivity.
    + intros H. vm_compute in H. intuition discriminate.
  - apply (proj2 (proj2 (readColonPair_splits_at_first_colon attributeDelims
                    "about" "=" "'x'"
                    ltac:(apply forall_InStr_literal; repeat constructor)
                    ltac:(reflexivity)))).
    intros H. vm_compute in H. intuition discriminate.
Defined.

Lemma blank_head_delim (d : mask) (ws : string) (c : ascii) (r : string) :
  blank ws -> is_delim d c = true ->
  (forall x, is_delim WHITESPACE x = true -> is_delim d x = true) ->
  exists c0 r0, ws ++ String c r = String c0 r0 /\ is_delim d c0 = true.
Proof.
  intros Hws Hc Hsub. destruct ws as [|x ws]; simpl.
  - eauto.
  - exists x, (ws ++ String c r). split; [reflexivity|].
    apply Hsub, Hws, InStr_cons. now left.
Qed.

Lemma blank_tail (x : ascii) (ws : string) : blank (String x ws) -> blank ws.
Proof. intros H y Hy. apply H, InStr_cons. now right. Qed.

Lemma whitespace_is_attributeDelim (x : ascii) :
  is_delim WHITESPACE x = true -> is_delim attributeDelims x = true.
Proof. intros H. unfold attributeDelims. now rewrite is_delim_lor, H. Qed.

Lemma whitespace_is_openingDelim (x : ascii) :
  is_delim WHITESPACE x = true -> is_delim openingDelims x = true.
Proof.
  intros H. unfold openingDelims.
  rewrite !is_delim_lor, H. now rewrite orb_true_r.
Qed.

Lemma whitespace_is_closingDelim (x : ascii) :
  is_delim WHITESPACE x = true -> is_delim closingDelims x = true.
Proof.
  intros H. unfold closingDelims. rewrite is_delim_lor, H. apply orb_true_r.
Qed.

Lemma readColonPair_name (d : mask) (name : string) (c : ascii) (r : string) :
  wellFormedName d name -> is_delim d c = true ->
  exists pr ce,
    readColonPair d (name ++ String c r) = (pr, ce, None, String c r)
    /\ tagOfPair pr ce = tagOfName name
    /\ (forall v, (if ce then mkAttribute (fst pr) (snd pr) v
                   else mkAttribute "" (fst pr) v) = attributeOf name v).
Proof.
  intros [Hw Hcolon] Hc. rewrite (readColonPair_word d name c r Hw Hc).
  unfold tagOfName, attributeOf.
  destruct (splitColon name) as [[a b]|] eqn:Hs.
  - destruct b as [|y b]; [now destruct (Hcolon a)|]. simpl. eauto.
  - simpl. eauto.
Qed.

Lemma readAttribute_quoted (name ws : string) (q : ascii) (v rest : string) :
  wellFormedName attributeDelims name -> blank ws ->
  q = "'"%char \/ q = dquote ->
  (forall x, InStr x v -> is_delim WHITESPACE x = false /\ x <> q) ->
  readAttribute (name ++ ws ++ String "=" (String q (v ++ String q rest)))
  = (attributeOf name v, None, rest).
Proof.
  intros Hname Hws Hq Hv.
  destruct (blank_head_delim attributeDelims ws "=" (String q (v ++ String q rest))
              Hws eq_refl whitespace_is_attributeDelim) as (c0 & r0 & Heq & Hc0).
  destruct (readColonPair_name attributeDelims name c0 r0 Hname Hc0)
    as (pr & ce & Hpair & _ & Hattr).
  unfold readAttribute. fold attributeDelims. rewrite Heq, Hpair, <- Heq.
  rewrite (ignoreWhiteSpace_skip ws "=" _ Hws eq_refl).
  cbn [readARune Ascii.eqb].
  assert (Hvq : forall x, InStr x v ->
                  is_delim (Z.lor WHITESPACE (bit q)) x = false).
  { intros x Hx. destruct (Hv x Hx) as [Hw Hne].
    rewrite is_delim_lor, Hw, (is_delim_quote q x Hq). simpl.
    apply Ascii.eqb_neq. congruence. }
  assert (Hqq : is_delim (Z.lor WHITESPACE (bit q)) q = true).
  { rewrite is_delim_lor, (is_delim_quote q q Hq), Ascii.eqb_refl.
    apply orb_true_r. }
  rewrite (readTill_stop _ v q rest Hvq Hqq).
  cbn [readARune]. rewrite Ascii.eqb_refl.
  specialize (Hattr v). destruct ce; cbn [attr_SchemaName attr_Name] in *;
    now rewrite <- Hattr.
Qed.

(** X2.  An attribute written as a name, optional blanks, [=], a quote, a
    value without blanks and without that quote, and the same quote again is
    read as that name and that value, and the stream is left right after the
    closing quote. *)
Theorem readAttribute_reads_quoted_value
    (name ws : string) (q : ascii) (v rest : string) :
  wellFormedName attributeDelims name -> blank ws ->
  q = "'"%char \/ q = dquote ->
  (forall x, InStr x v -> is_delim WHITESPACE x = false /\ x <> q) ->
  readAttribute (name ++ ws ++ String "=" (String q (v ++ String q rest)))
  = (attributeOf name v, None, rest).
Proof.
  intros Hname Hws Hq Hv. now apply readAttribute_quoted.
Qed.

Lemma wellFormedName_literal (d : mask) (name : string) :
  Forall (fun x => is_delim d x = false) (list_ascii_of_string name) ->
  (forall b, splitColon name = Some b -> snd b <> "") ->
  wellFormedName d name.
Proof.
  intros Hd Hc. split.
  - now apply forall_InStr_literal.
  - intros a H. now apply Hc in H.
Qed.

Ltac literal_name :=
  apply wellFormedName_literal;
  [ repeat constructor
  | let b := fresh in let H := fresh in
    intros b H; vm_compute in H; try discriminate;
    injection H as <-; discriminate ].

Ltac literal_chars :=
  unfold blank; apply forall_InStr_literal; repeat constructor; try discriminate.

Lemma readAttribute_reads_quoted_value_witness :
  readAttribute ("rdf:about" ++ " " ++ String "=" (String "'" ("http://ex.org/1" ++ String "'" ">")))
  = (mkAttribute "rdf" "about" "http://ex.org/1", None, ">").
Proof.
  apply (readAttribute_reads_quoted_value "rdf:about" " " "'" "http://ex.org/1" ">").
  - literal_name.
  - literal_chars.
  - now left.
  - literal_chars.
Defined.

(** ** Reading back a written block *)

Lemma InStr_app (x : ascii) (a b : string) :
  InStr x (a ++ b) <-> InStr x a \/ InStr x b.
Proof.
  induction a as [|y a IH]; simpl.
  - unfold InStr at 2. simpl. tauto.
  - rewrite !InStr_cons, IH. tauto.
Qed.

Lemma InStr_nil (x : ascii) : ~ InStr x "".
Proof. intros []. Qed.

Lemma str_length_app (a b : string) :
  String.length (a ++ b) = (String.length a + String.length b)%nat.
Proof. induction a as [|x a IH]; simpl; [reflexivity | now rewrite IH]. Qed.

Lemma str_app_nil_r (a : string) : a ++ "" = a.
Proof. induction a as [|x a IH]; simpl; [reflexivity | now rewrite IH]. Qed.

Lemma is_delim_lt (c : ascii) : is_delim (bit "<") c = Ascii.eqb "<" c.
Proof. destruct c as [[] [] [] [] [] [] [] []]; vm_compute; reflexivity. Qed.

(** What is not a delimiter of names is not a delimiter of any part of a
    tag, and is none of the characters that end one. *)
Lemma nameDelims_sub (x : ascii) :
  is_delim nameDelims x = false ->
  is_delim attributeDelims x = false /\ is_delim openingDelims x = false
  /\ is_delim closingDelims x = false /\ is_delim WHITESPACE x = false
  /\ x <> ">"%char /\ x <> "/"%char /\ x <> "="%char.
Proof.
  unfold nameDelims, attributeDelims, openingDelims, closingDelims.
  intros H. rewrite !is_delim_lor, !orb_false_iff in H.
  destruct H as [[Hw He] [[Hg _] Hs]].
  rewrite !is_delim_lor, Hw, Hg, He, Hs. repeat apply conj; try reflexivity.
  - intros ->. vm_compute in Hg. discriminate.
  - intros ->. vm_compute in Hs. discriminate.
  - intros ->. vm_compute in He. discriminate.
Qed.

Lemma printName_chars (sn n : string) (x : ascii) :
  InStr x (printName sn n) -> InStr x sn \/ x = ":"%char \/ InStr x n.
Proof.
  unfold printName. destruct (String.eqb_spec sn "") as [->|Hne].
  - auto.
  - rewrite InStr_app, InStr_cons. intuition auto.
Qed.

Lemma colon_no_nameDelim : is_delim nameDelims ":" = false.
Proof. vm_compute. reflexivity. Qed.

Lemma qualifiedName_chars (sn n : string) (x : ascii) :
  qualifiedName sn n -> InStr x (printName sn n) -> is_delim nameDelims x = false.
Proof.
  intros (Hs & Hn & _) [H | [-> | H]]%printName_chars;
    [now apply Hs | apply colon_no_nameDelim | now apply Hn].
Qed.

Lemma qualifiedName_split (sn n : string) :
  qualifiedName sn n ->
  splitColon (printName sn n) = if String.eqb sn "" then None else Some (sn, n).
Proof.
  intros (_ & _ & Hc & Hn0 & _). unfold printName.
  destruct (String.eqb_spec sn "") as [->|Hne].
  - now apply splitColon_none, Hn0.
  - now apply splitColon_first.
Qed.

Lemma qualifiedName_tag (sn n : string) :
  qualifiedName sn n -> tagOfName (printName sn n) = mkTag sn n [].
Proof.
  intros H. unfold tagOfName. rewrite (qualifiedName_split sn n H).
  destruct (String.eqb_spec sn "") as [->|]; reflexivity.
Qed.

Lemma qualifiedName_attribute (sn n v : string) :
  qualifiedName sn n -> attributeOf (printName sn n) v = mkAttribute sn n v.
Proof.
  intros H. unfold attributeOf. rewrite (qualifiedName_split sn n H).
  destruct (String.eqb_spec sn "") as [->|]; reflexivity.
Qed.

Lemma qualifiedName_wellFormed (d : mask) (sn n : string) :
  (forall x, is_delim nameDelims x = false -> is_delim d x = false) ->
  qualifiedName sn n -> wellFormedName d (printName sn n).
Proof.
  intros Hd H. split.
  - intros x Hx. apply Hd. now apply (qualifiedName_chars sn n).
  - intros a Hs. rewrite (qualifiedName_split sn n H) in Hs.
    destruct (String.eqb_spec sn "") as [->|Hne]; [discriminate|].
    injection Hs as -> Hn. destruct H as (_ & _ & _ & _ & H). now apply H.
Qed.

Lemma printAttr_body (a : Attribute) : printAttr a = String " " (attrBody a).
Proof. reflexivity. Qed.

Lemma attrBody_head (a : Attribute) (t : string) :
  writableAttribute a ->
  exists c r, attrBody a ++ t = String c r
    /\ is_delim WHITESPACE c = false /\ c <> ">"%char /\ c <> "/"%char.
Proof.
  intros [Hq _]. unfold attrBody.
  destruct (printName (attr_SchemaName a) (attr_Name a)) as [|c r] eqn:Hp; simpl.
  - eexists _, _. split; [reflexivity|].
    repeat apply conj; [vm_compute; reflexivity | discriminate | discriminate].
  - eexists _, _. split; [reflexivity|].
    assert (Hc : is_delim nameDelims c = false).
    { apply (qualifiedName_chars _ _ c Hq). rewrite Hp. apply InStr_cons. now left. }
    apply nameDelims_sub in Hc. tauto.
Qed.

Lemma readAttribute_body (a : Attribute) (t : string) :
  writableAttribute a -> readAttribute (attrBody a ++ t) = (a, None, t).
Proof.
  intros [Hq Hv]. unfold attrBody.
  rewrite str_app_assoc. cbn [String.append].
  rewrite str_app_assoc. cbn [String.append].
  pose proof (readAttribute_quoted
                (printName (attr_SchemaName a) (attr_Name a)) "" "'"
                (attr_Value a) t) as H.
  cbn [String.append] in H. rewrite H.
  - rewrite qualifiedName_attribute by assumption. now destruct a.
  - apply qualifiedName_wellFormed; [|assumption].
    intros x Hx. now apply nameDelims_sub in Hx.
  - intros x [].
  - now left.
  - exact Hv.
Qed.

(** The attribute loop on written attributes, up to the [>] or [/] that ends
    the tag. *)
Lemma readAttrs_written (attrs : list Attribute) :
  forall (a : Attribute) (acc : list Attribute) (fuel : nat) (nextRune k : ascii)
         (rest : string),
    Forall writableAttribute (a :: attrs) ->
    (length (a :: attrs) <= fuel)%nat ->
    Ascii.eqb nextRune ">" || Ascii.eqb nextRune "/" = false ->
    k = ">"%char \/ k = "/"%char ->
    readAttrs fuel acc nextRune (attrBody a ++ printAttrs attrs ++ String k rest)
    = Some ((acc ++ a :: attrs)%list, None, String k rest).
Proof.
  induction attrs as [|a1 attrs IH]; intros a acc fuel nextRune k rest Hw Hf Hn Hk;
    (destruct fuel as [|fuel]; [simpl in Hf; lia|]);
    cbn [readAttrs]; rewrite Hn;
    inversion Hw as [|? ? Ha Hrest]; subst;
    rewrite (readAttribute_body a _ Ha).
  - cbn [printAttrs String.append ignoreWhiteSpace].
    assert (Hkw : is_delim WHITESPACE k = false)
      by (destruct Hk as [-> | ->]; vm_compute; reflexivity).
    rewrite Hkw. cbn [peekARune readAttrs].
    assert (Hke : Ascii.eqb k ">" || Ascii.eqb k "/" = true)
      by (destruct Hk as [-> | ->]; reflexivity).
    destruct fuel; cbn [readAttrs]; rewrite Hke; reflexivity.
  - cbn [printAttrs]. rewrite printAttr_body. cbn [String.append].
    inversion Hrest as [|? ? Ha1 Hrest1]; subst.
    rewrite !str_app_assoc.
    destruct (attrBody_head a1 (printAttrs attrs ++ String k rest) Ha1)
      as (c & r & Heq & Hcw & Hc1 & Hc2).
    cbn [ignoreWhiteSpace].
    replace (is_delim WHITESPACE " ") with true by (vm_compute; reflexivity).
    rewrite Heq. cbn [ignoreWhiteSpace]. rewrite Hcw. cbn [peekARune].
    rewrite <- Heq.
    rewrite (IH a1 (acc ++ [a])%list fuel c k rest Hrest).
    + now rewrite <- app_assoc.
    + simpl in Hf |- *. lia.
    + apply orb_false_iff. split; now apply Ascii.eqb_neq.
    + exact Hk.
Qed.

Lemma whitespace_test (c : ascii) :
  negb (Z.land (bit c) WHITESPACE =? 0) = is_delim WHITESPACE c.
Proof. unfold is_delim. now rewrite Z.land_comm. Qed.

Lemma printAttrs_head (attrs : list Attribute) (k : ascii) (rest : string) :
  k = ">"%char \/ k = "/"%char ->
  exists c r, printAttrs attrs ++ String k rest = String c r
    /\ is_delim openingDelims c = true.
Proof.
  intros Hk. destruct attrs as [|a attrs]; cbn [printAttrs String.append].
  - exists k, rest. split; [reflexivity|].
    destruct Hk as [-> | ->]; vm_compute; reflexivity.
  - rewrite printAttr_body. cbn [String.append]. eexists _, _.
    split; [reflexivity | vm_compute; reflexivity].
Qed.

(** [readOpeningTag] on a written tag that ends with [>] ([k] is [>]) or
    with [/>] ([k] is [/]). *)
Lemma readOpeningTag_head (t : Tag) (fuel : nat) (k : ascii) (tail : string) :
  writableTag t -> (length (Attrs t) <= fuel)%nat ->
  (k = ">"%char \/ k = "/"%char) ->
  readOpeningTag fuel
    (printTagHead t ++ String k (if Ascii.eqb k ">" then tail else String ">" tail))
  = Some (t, false, Ascii.eqb k "/", None, tail).
Proof.
  intros (Hq & (c & r & Hp & Hc) & Hattrs) Hfuel Hk.
  set (tl := if Ascii.eqb k ">" then tail else String ">" tail).
  assert (Hcn : is_delim nameDelims c = false).
  { apply (qualifiedName_chars _ _ c Hq). rewrite Hp. apply InStr_cons. now left. }
  destruct (nameDelims_sub c Hcn) as (_ & _ & _ & Hcw & _ & Hcs & _).
  assert (Hname : wellFormedName openingDelims (printName (SchemaName t) (Name t))).
  { apply qualifiedName_wellFormed; [|assumption].
    intros x Hx. now apply nameDelims_sub in Hx. }
  unfold printTagHead.
  rewrite str_app_assoc. cbn [String.append].
  destruct (printAttrs_head (Attrs t) k tl Hk) as (d0 & r0 & Heq & Hd0).
  destruct (readColonPair_name openingDelims _ d0 r0 Hname Hd0)
    as (pr & ce & Hpair & Htag & _).
  rewrite (qualifiedName_tag _ _ Hq) in Htag.
  unfold readOpeningTag.
  cbn [ignoreWhiteSpace].
  replace (is_delim WHITESPACE "<") with false by (vm_compute; reflexivity).
  cbn [readTill].
  replace (is_delim (bit "<") "<") with true by (vm_compute; reflexivity).
  cbn [String.length Nat.eqb negb readARune].
  rewrite Hp. cbn [String.append ignoreWhiteSpace]. rewrite Hcw. cbn [peekARune].
  rewrite (proj2 (Ascii.eqb_neq c "/") Hcs), (proj2 (Ascii.eqb_neq c "?") Hc).
  change (String c (r ++ printAttrs (Attrs t) ++ String k tl))
    with (String c r ++ printAttrs (Attrs t) ++ String k tl).
  rewrite <- Hp. fold openingDelims. rewrite Heq, Hpair, Htag, <- Heq.
  destruct t as [sn n attrs]. cbn [SchemaName Name Attrs] in *.
  destruct attrs as [|a attrs].
  - cbn [printAttrs String.append peekARune].
    rewrite whitespace_test.
    replace (is_delim WHITESPACE k) with false
      by (destruct Hk as [-> | ->]; vm_compute; reflexivity).
    cbn [peekARune]. subst tl.
    destruct Hk as [-> | ->]; reflexivity.
  - cbn [printAttrs]. rewrite printAttr_body. cbn [String.append peekARune].
    rewrite whitespace_test.
    replace (is_delim WHITESPACE " ") with true by (vm_compute; reflexivity).
    inversion Hattrs as [|? ? Ha Hrest]; subst.
    rewrite str_app_assoc.
    destruct (attrBody_head a (printAttrs attrs ++ String k tl) Ha)
      as (c1 & r1 & Heq1 & Hc1w & Hc1g & Hc1s).
    cbn [ignoreWhiteSpace].
    replace (is_delim WHITESPACE " ") with true by (vm_compute; reflexivity).
    rewrite Heq1. cbn [ignoreWhiteSpace snd]. rewrite Hc1w.
    cbn [snd peekARune ignoreWhiteSpace].
    rewrite (proj2 (Ascii.eqb_neq c1 ">") Hc1g), (proj2 (Ascii.eqb_neq c1 "/") Hc1s).
    rewrite Hc1w. cbn [peekARune].
    rewrite (proj2 (Ascii.eqb_neq c1 ">") Hc1g).
    rewrite <- Heq1.
    rewrite (readAttrs_written attrs a [] fuel c1 k tl Hattrs Hfuel).
    + cbn [app readARune SchemaName Name]. subst tl.
      destruct Hk as [-> | ->]; reflexivity.
    + apply orb_false_iff. split; now apply Ascii.eqb_neq.
    + exact Hk.
Qed.

Lemma readOpeningTag_open (t : Tag) (fuel : nat) (tail : string) :
  writableTag t -> (length (Attrs t) <= fuel)%nat ->
  readOpeningTag fuel (printOpen t ++ tail) = Some (t, false, false, None, tail).
Proof.
  intros Ht Hf. unfold printOpen. rewrite str_app_assoc. cbn [String.append].
  exact (readOpeningTag_head t fuel ">" tail Ht Hf (or_introl eq_refl)).
Qed.

Lemma readOpeningTag_selfClosing (t : Tag) (fuel : nat) (tail : string) :
  writableTag t -> (length (Attrs t) <= fuel)%nat ->
  readOpeningTag fuel (printSelfClosing t ++ tail)
  = Some (t, false, true, None, tail).
Proof.
  intros Ht Hf. unfold printSelfClosing. rewrite str_app_assoc. cbn [String.append].
  exact (readOpeningTag_head t fuel "/" tail Ht Hf (or_intror eq_refl)).
Qed.

Lemma readClosingTag_written (t : Tag) (rest : string) :
  qualifiedName (SchemaName t) (Name t) ->
  readClosingTag (printClose t ++ rest)
  = (mkTag (SchemaName t) (Name t) [], None, rest).
Proof.
  intros Hq. unfold printClose. rewrite str_app_assoc. cbn [String.append].
  assert (Hname : wellFormedName closingDelims (printName (SchemaName t) (Name t))).
  { apply qualifiedName_wellFormed; [|assumption].
    intros x Hx. now apply nameDelims_sub in Hx. }
  destruct (readColonPair_name closingDelims _ ">" rest Hname eq_refl)
    as (pr & ce & Hpair & Htag & _).
  rewrite (qualifiedName_tag _ _ Hq) in Htag.
  unfold readClosingTag, readNBytes.
  cbn [String.length Nat.ltb Nat.leb take drop String.eqb Ascii.eqb Bool.eqb negb].
  fold closingDelims. rewrite Hpair, Htag.
  cbn [ignoreWhiteSpace].
  replace (is_delim WHITESPACE ">") with false by (vm_compute; reflexivity).
  reflexivity.
Qed.

Lemma closeBlock_written (t : Tag) (v : string) (cs : list Block) (rest : string) :
  qualifiedName (SchemaName t) (Name t) ->
  closeBlock (mkBlock t v cs) (printClose t ++ rest) = (mkBlock t v cs, None, rest).
Proof.
  intros Hq. unfold closeBlock. rewrite (readClosingTag_written t rest Hq).
  cbn [OpeningTag Name SchemaName]. now rewrite !String.eqb_refl.
Qed.

Lemma Block_nested_ind (P : Block -> Prop) :
  (forall t v cs, Forall P cs -> P (mkBlock t v cs)) -> forall b, P b.
Proof.
  intros H. fix IH 1. intros [t v cs]. apply H.
  induction cs as [|c cs IHcs]; constructor; [apply IH | exact IHcs].
Qed.

Lemma printBlock_eq (t : Tag) (v : string) (cs : list Block) :
  printBlock (mkBlock t v cs) = printOpen t ++ v ++ printBlocks cs ++ printClose t.
Proof.
  reflexivity.
Qed.

Lemma blockFuel_eq (t : Tag) (v : string) (cs : list Block) :
  blockFuel (mkBlock t v cs) = S (blocksFuel cs).
Proof.
  reflexivity.
Qed.

Lemma printAttrs_length (attrs : list Attribute) :
  (length attrs <= String.length (printAttrs attrs))%nat.
Proof.
  induction attrs as [|a attrs IH]; simpl; [lia|].
  rewrite str_length_app. lia.
Qed.

Lemma printTagHead_length (t : Tag) (tail : string) :
  (length (Attrs t) <= String.length (printTagHead t ++ tail))%nat.
Proof.
  unfold printTagHead. rewrite !str_length_app.
  pose proof (printAttrs_length (Attrs t)). lia.
Qed.

Lemma printOpen_length (t : Tag) (tail : string) :
  (length (Attrs t) <= String.length (printOpen t ++ tail))%nat.
Proof.
  unfold printOpen. rewrite str_app_assoc. apply printTagHead_length.
Qed.

Lemma printSelfClosing_length (t : Tag) (tail : string) :
  (length (Attrs t) <= String.length (printSelfClosing t ++ tail))%nat.
Proof.
  unfold printSelfClosing. rewrite str_app_assoc. apply printTagHead_length.
Qed.

(** A written block starts with [<] and a character that is not [/]. *)
Lemma printBlock_head (b : Block) (tail : string) :
  writableBlock b ->
  exists c r, printBlock b ++ tail = String "<" (String c r) /\ c <> "/"%char.
Proof.
  intros Hb. destruct Hb as [t v cs (Hq & (c & r & Hp & Hc) & _) _ _ _].
  rewrite printBlock_eq. unfold printOpen, printTagHead.
  rewrite Hp. cbn [String.append]. eexists c, _. split; [reflexivity|].
  assert (Hcn : is_delim nameDelims c = false).
  { apply (qualifiedName_chars _ _ c Hq). rewrite Hp. apply InStr_cons. now left. }
  now apply nameDelims_sub in Hcn.
Qed.

Lemma printBlocks_head (cs : list Block) (tail : string) :
  Forall writableBlock cs ->
  exists c r, printBlocks cs ++ String "<" (String "/" tail) = String "<" (String c r)
    /\ (cs = [] -> c = "/"%char) /\ (cs <> [] -> c <> "/"%char).
Proof.
  intros Hcs. destruct Hcs as [|b cs Hb Hcs]; cbn [printBlocks fold_right String.append].
  - eexists _, _. split; [reflexivity|]. split; [reflexivity | congruence].
  - rewrite str_app_assoc.
    destruct (printBlock_head b
                (fold_right (fun c s => printBlock c ++ s) "" cs
                 ++ String "<" (String "/" tail)) Hb) as (c & r & Heq & Hc).
    rewrite Heq. eexists _, _. split; [reflexivity|]. split; [discriminate | auto].
Qed.

Lemma readChildren_written (cs : list Block) :
  Forall (fun b => writableBlock b -> forall fuel rest,
            (blockFuel b <= fuel)%nat ->
            readBlock fuel (printBlock b ++ rest) = Some (b, None, rest)) cs ->
  Forall writableBlock cs ->
  forall (fuel : nat) (acc : list Block) (tail : string),
    (blocksFuel cs <= fuel)%nat ->
    readChildren fuel acc
      (take 2 (printBlocks cs ++ String "<" (String "/" tail)))
      (printBlocks cs ++ String "<" (String "/" tail))
    = Some ((acc ++ cs)%list, None, String "<" (String "/" tail)).
Proof.
  induction cs as [|c cs IH]; intros HP Hw fuel acc tail Hfuel.
  - cbn [printBlocks fold_right String.append take]. rewrite app_nil_r.
    destruct fuel; reflexivity.
  - inversion HP as [|? ? HPc HPcs]; subst.
    inversion Hw as [|? ? Hwc Hwcs]; subst.
    cbn [blocksFuel fold_right] in Hfuel. fold (blocksFuel cs) in Hfuel.
    destruct fuel as [|fuel]; [lia|].
    cbn [printBlocks fold_right]. fold (printBlocks cs). rewrite str_app_assoc.
    destruct (printBlock_head c (printBlocks cs ++ String "<" (String "/" tail)) Hwc)
      as (c0 & r0 & Heq & Hc0).
    rewrite Heq. cbn [take readChildren].
    replace (String.eqb (String "<" (String c0 "")) "</") with false.
    2:{ symmetry. apply String.eqb_neq. congruence. }
    rewrite <- Heq.
    rewrite (HPc Hwc fuel _ ltac:(lia)).
    destruct (printBlocks_head cs tail Hwcs) as (c1 & r1 & Heq1 & _).
    rewrite Heq1. cbn [ignoreWhiteSpace].
    replace (is_delim WHITESPACE "<") with false by (vm_compute; reflexivity).
    unfold peekNBytes. cbn [String.length Nat.ltb Nat.leb].
    rewrite <- Heq1.
    rewrite (IH HPcs Hwcs fuel (acc ++ [c])%list tail ltac:(lia)).
    now rewrite <- app_assoc.
Qed.

Lemma readBlock_written (b : Block) :
  writableBlock b -> forall fuel rest,
    (blockFuel b <= fuel)%nat ->
    readBlock fuel (printBlock b ++ rest) = Some (b, None, rest).
Proof.
  induction b as [t v cs IH] using Block_nested_ind.
  intros Hb fuel rest Hfuel.
  inversion Hb as [? ? ? Ht Hv Hex Hcs]; subst.
  rewrite blockFuel_eq in Hfuel. destruct fuel as [|fuel]; [lia|].
  rewrite printBlock_eq, !str_app_assoc.
  cbn [readBlock].
  rewrite (readOpeningTag_open t _ _ Ht (printOpen_length t _)).
  destruct Ht as (Hq & _ & _).
  destruct v as [|x v].
  - cbn [String.append].
    unfold printClose at 1. rewrite str_app_assoc. cbn [String.append].
    destruct (printBlocks_head cs (printName (SchemaName t) (Name t) ++ String ">" rest) Hcs)
      as (c1 & r1 & Heq1 & _).
    rewrite Heq1. cbn [ignoreWhiteSpace].
    replace (is_delim WHITESPACE "<") with false by (vm_compute; reflexivity).
    cbn [peekARune Ascii.eqb Bool.eqb negb].
    unfold peekNBytes. cbn [String.length Nat.ltb Nat.leb].
    rewrite <- Heq1.
    rewrite (readChildren_written cs IH Hcs fuel [] _ ltac:(lia)).
    cbn [app].
    change (String "<" (String "/" (printName (SchemaName t) (Name t) ++ String ">" rest)))
      with ((String "<" (String "/" (printName (SchemaName t) (Name t))) ++ String ">" rest)).
    replace (String ">" rest) with (String ">" "" ++ rest) by reflexivity.
    rewrite <- str_app_assoc. fold (printClose t).
    now rewrite (closeBlock_written t "" cs rest Hq).
  - destruct Hex as [Hex | ->]; [discriminate|].
    cbn [printBlocks fold_right String.append].
    destruct Hv as [Hlt Hws].
    specialize (Hws x v eq_refl).
    cbn [ignoreWhiteSpace]. rewrite Hws. cbn [peekARune].
    assert (Hx : x <> "<"%char) by (apply Hlt, InStr_cons; now left).
    rewrite (proj2 (Ascii.eqb_neq x "<") Hx). cbn [negb].
    change (String x (v ++ printClose t ++ rest))
      with (String x v ++ printClose t ++ rest).
    unfold printClose at 1. rewrite (str_app_assoc _ (String ">" "")).
    cbn [String.append].
    change (String x (v ++ String "<" (String "/"
              (printName (SchemaName t) (Name t) ++ String ">" rest))))
      with (String x v ++ String "<" (String "/"
              (printName (SchemaName t) (Name t) ++ String ">" rest))).
    rewrite (readTill_stop (bit "<") (String x v) "<").
    + change (String "<" (String "/" (printName (SchemaName t) (Name t) ++ String ">" rest)))
        with ((String "<" (String "/" (printName (SchemaName t) (Name t))) ++ String ">" rest)).
      replace (String ">" rest) with (String ">" "" ++ rest) by reflexivity.
      rewrite <- str_app_assoc. fold (printClose t).
      now rewrite (closeBlock_written t (String x v) [] rest Hq).
    + intros y Hy. rewrite is_delim_lt. apply Ascii.eqb_neq.
      intros <-. now apply (Hlt "<"%char).
    + vm_compute. reflexivity.
Qed.

Lemma printBlocks_app_length (cs : list Block) :
  Forall (fun b => (blockFuel b + 1 <= String.length (printBlock b))%nat) cs ->
  (blocksFuel cs <= String.length (printBlocks cs))%nat.
Proof.
  induction 1 as [|c cs Hc Hcs IH]; cbn [blocksFuel printBlocks fold_right].
  - simpl. lia.
  - fold (blocksFuel cs). fold (printBlocks cs). rewrite str_length_app. lia.
Qed.

Lemma blockFuel_length (b : Block) :
  (blockFuel b + 1 <= String.length (printBlock b))%nat.
Proof.
  induction b as [t v cs IH] using Block_nested_ind.
  rewrite blockFuel_eq, printBlock_eq, !str_length_app.
  pose proof (printBlocks_app_length cs IH).
  unfold printOpen, printClose, printTagHead. rewrite !str_length_app.
  cbn [String.length]. lia.
Qed.

(** X3.  Reading back: a block tree written as a document, followed by
    anything, is read as that tree, without error, and the reader stops
    right after the closing tag of the root. *)
Theorem Read_printBlock (b : Block) (rest : string) :
  writableBlock b -> Read (printBlock b ++ rest) = Some (b, None, rest).
Proof.
  intros Hb. unfold Read. apply readBlock_written; [exact Hb|].
  rewrite str_length_app. pose proof (blockFuel_length b). lia.
Qed.

(** X4.  A self-closing element is read as a block without text and without
    children, the same block as the element with an opening and a closing
    tag and nothing between them. *)
Theorem Read_selfClosing (t : Tag) (rest : string) :
  writableTag t ->
  Read (printSelfClosing t ++ rest) = Some (mkBlock t "" [], None, rest)
  /\ Read (printSelfClosing t ++ rest) = Read (printOpen t ++ printClose t ++ rest).
Proof.
  intros Ht.
  assert (H1 : Read (printSelfClosing t ++ rest) = Some (mkBlock t "" [], None, rest)).
  { unfold Read. cbn [readBlock].
    now rewrite (readOpeningTag_selfClosing t _ _ Ht (printSelfClosing_length t _)). }
  split; [exact H1|]. rewrite H1. symmetry.
  assert (H2 : Read (printBlock (mkBlock t "" []) ++ rest)
               = Some (mkBlock t "" [], None, rest)).
  { unfold Read. apply readBlock_written.
    - constructor; [exact Ht | | now left | constructor].
      split; [intros x [] | discriminate].
    - rewrite str_length_app. pose proof (blockFuel_length (mkBlock t "" [])). lia. }
  rewrite printBlock_eq in H2. cbn [printBlocks fold_right String.append] in H2.
  rewrite str_app_assoc in H2. exact H2.
Qed.

Ltac literal_InStr :=
  let x := fresh "x" in let Hx := fresh "Hx" in
  intros x Hx; unfold InStr in Hx; simpl in Hx;
  repeat (destruct Hx as [<- | Hx];
          [ first [ vm_compute; reflexivity
                  | split; [vm_compute; reflexivity | discriminate]
                  | discriminate ] |]);
  destruct Hx.

Ltac literal_no_colon :=
  let H := fresh in
  intros H; unfold InStr in H; simpl in H; intuition discriminate.

Ltac literal_qualifiedName :=
  repeat apply conj;
  [ literal_InStr | literal_InStr | literal_no_colon
  | first [ intros ?; discriminate | intros _; literal_no_colon ]
  | first [ intros _; discriminate | intros H; now destruct H ] ].

Ltac literal_attribute :=
  split; [literal_qualifiedName | literal_InStr].

Ltac literal_tag :=
  split;
  [ literal_qualifiedName
  | split;
    [ eexists _, _; split; [reflexivity | discriminate]
    | cbn [Attrs]; repeat (apply List.Forall_cons; [literal_attribute|]); apply List.Forall_nil ] ].

Ltac literal_text :=
  split; [ literal_InStr
         | let c := fresh in let r := fresh in let H := fresh in
           intros c r H; first [ discriminate
                               | injection H as <- <-; vm_compute; reflexivity ] ].

Ltac literal_block :=
  apply writable_block;
  [ literal_tag | literal_text
  | first [ left; reflexivity | right; reflexivity ]
  | repeat (apply List.Forall_cons; [literal_block|]); apply List.Forall_nil ].

Lemma exampleTree_writable : writableBlock exampleTree.
Proof. unfold exampleTree. literal_block. Qed.

Lemma Read_printBlock_witness :
  Read (printBlock exampleTree ++ "") = Some (exampleTree, None, "").
Proof. apply (Read_printBlock exampleTree ""). exact exampleTree_writable. Defined.

Lemma Read_selfClosing_witness :
  Read (printSelfClosing (mkTag "ex" "name" [mkAttribute "rdf" "nodeID" "n1"]) ++ "")
  = Some (mkBlock (mkTag "ex" "name" [mkAttribute "rdf" "nodeID" "n1"]) "" [], None, "")
  /\ Read (printSelfClosing (mkTag "ex" "name" [mkAttribute "rdf" "nodeID" "n1"]) ++ "")
     = Read (printOpen (mkTag "ex" "name" [mkAttribute "rdf" "nodeID" "n1"])
             ++ printClose (mkTag "ex" "name" [mkAttribute "rdf" "nodeID" "n1"]) ++ "").
Proof.
  apply (Read_selfClosing (mkTag "ex" "name" [mkAttribute "rdf" "nodeID" "n1"]) "").
  literal_tag.
Defined.

(** ** Prologs, blank documents and stray characters *)

Lemma is_delim_question (c : ascii) : is_delim (bit "?") c = Ascii.eqb "?" c.
Proof. destruct c as [[] [] [] [] [] [] [] []]; vm_compute; reflexivity. Qed.

Lemma readOpeningTag_prolog (fuel : nat) (p doc : string) :
  ~ InStr "?" p ->
  readOpeningTag fuel (String "<" (String "?" (p ++ String "?" (String ">" doc))))
  = Some (emptyTag, true, false, None, doc).
Proof.
  intros Hp. unfold readOpeningTag.
  cbn [ignoreWhiteSpace].
  replace (is_delim WHITESPACE "<") with false by (vm_compute; reflexivity).
  cbn [readTill].
  replace (is_delim (bit "<") "<") with true by (vm_compute; reflexivity).
  cbn [String.length Nat.eqb negb readARune ignoreWhiteSpace].
  replace (is_delim WHITESPACE "?") with false by (vm_compute; reflexivity).
  cbn [peekARune Ascii.eqb Bool.eqb]. unfold readProlog. cbn [readARune].
  rewrite (readTill_stop (bit "?") p "?").
  - cbn [readARune ignoreWhiteSpace].
    replace (is_delim WHITESPACE ">") with false by (vm_compute; reflexivity).
    reflexivity.
  - intros x Hx. rewrite is_delim_question. apply Ascii.eqb_neq. now intros <-.
  - vm_compute. reflexivity.
Qed.

(** X5.  A prolog is transparent: [readBlock] on a prolog followed by a
    document is [readBlock] on the document, and a written block after a
    prolog is read as that block. *)
Theorem readBlock_skips_prolog (p : string) (b : Block) (rest : string) :
  ~ InStr "?" p -> writableBlock b ->
  (forall fuel doc,
      readBlock (S fuel) (String "<" (String "?" (p ++ String "?" (String ">" doc))))
      = readBlock fuel doc)
  /\ Read (String "<" (String "?" (p ++ String "?" (String ">" (printBlock b ++ rest)))))
     = Some (b, None, rest).
Proof.
  intros Hp Hb.
  assert (Hskip : forall fuel doc,
             readBlock (S fuel)
               (String "<" (String "?" (p ++ String "?" (String ">" doc))))
             = readBlock fuel doc).
  { intros fuel doc. cbn [readBlock]. now rewrite (readOpeningTag_prolog _ p doc Hp). }
  split; [exact Hskip|].
  unfold Read. rewrite Hskip. apply readBlock_written; [exact Hb|].
  cbn [String.length]. rewrite !str_length_app. cbn [String.length].
  rewrite str_length_app. pose proof (blockFuel_length b). lia.
Qed.

Lemma readBlock_skips_prolog_witness :
  Read (String "<" (String "?" ("xml version='1.0'"
          ++ String "?" (String ">" (printBlock exampleTree ++ "")))))
  = Some (exampleTree, None, "").
Proof.
  apply (proj2 (readBlock_skips_prolog "xml version='1.0'" exampleTree ""
                  ltac:(literal_no_colon) exampleTree_writable)).
Defined.

Lemma ignoreWhiteSpace_blank (s : string) :
  blank s -> ignoreWhiteSpace s = (Some EOF, "").
Proof.
  induction s as [|x s IH]; intros Hs; cbn [ignoreWhiteSpace]; [reflexivity|].
  rewrite (Hs x) by (apply InStr_cons; now left).
  apply IH. intros y Hy. apply Hs, InStr_cons. now right.
Qed.

(** X6.  An empty document, or one of blanks only, gives the end-of-file
    error and no block. *)
Theorem Read_blank (s : string) :
  blank s -> Read s = Some (emptyBlock, Some EOF, "").
Proof.
  intros Hs. unfold Read. cbn [readBlock]. unfold readOpeningTag.
  now rewrite (ignoreWhiteSpace_blank s Hs).
Qed.

Lemma Read_blank_witness :
  Read "" = Some (emptyBlock, Some EOF, "")
  /\ Read "   " = Some (emptyBlock, Some EOF, "").
Proof.
  split.
  - apply (Read_blank ""). intros x [].
  - apply (Read_blank "   "). literal_chars.
Defined.

Lemma readTill_error (d : mask) (s : string) :
  (exists x, InStr x s /\ is_delim d x = true /\ snd (fst (readTill d s)) = None)
  \/ ((forall x, InStr x s -> is_delim d x = false)
      /\ readTill d s = (s, Some EOF, "")).
Proof.
  induction s as [|c s IH]; cbn [readTill].
  - right. split; [intros x [] | reflexivity].
  - destruct (is_delim d c) eqn:Hc.
    + left. exists c. repeat split; [apply InStr_cons; now left | exact Hc].
    + destruct IH as [(x & Hx & Hd & He) | [Hall Heq]].
      * left. exists x. split; [apply InStr_cons; now right|]. split; [exact Hd|].
        destruct (readTill d s) as [[w e] s']. exact He.
      * right. split.
        -- intros x [<- | Hx]%InStr_cons; auto.
        -- now rewrite Heq.
Qed.

(** X7.  Characters before the first tag are an error: with a [<] after
    them the error is that of extra characters, without one that of stray
    characters at the end of the file. *)
Theorem Read_stray_characters (ws : string) (c : ascii) (r : string) :
  blank ws -> is_delim WHITESPACE c = false -> c <> "<"%char ->
  exists e s',
    Read (ws ++ String c r) = Some (emptyBlock, Some e, s')
    /\ (InStr "<" r -> e = ErrExtraChars)
    /\ (~ InStr "<" r -> e = ErrStrayAtEOF).
Proof.
  intros Hws Hcw Hc. unfold Read. cbn [readBlock]. unfold readOpeningTag.
  rewrite (ignoreWhiteSpace_skip ws c r Hws Hcw). cbn [readTill].
  rewrite is_delim_lt, (proj2 (Ascii.eqb_neq "<" c)) by congruence.
  destruct (readTill_error (bit "<") r) as [(x & Hx & Hd & He) | [Hall Heq]].
  - rewrite is_delim_lt in Hd. apply Ascii.eqb_eq in Hd. subst x.
    destruct (readTill (bit "<") r) as [[w e] s']. cbn [fst snd] in He. subst e.
    cbn [String.length Nat.eqb negb]. eexists _, _.
    split; [reflexivity|]. split; [reflexivity | contradiction].
  - rewrite Heq. cbn [String.length Nat.ltb Nat.leb]. eexists _, _.
    split; [reflexivity|]. split; [|reflexivity].
    intros Hin. specialize (Hall _ Hin). vm_compute in Hall. discriminate.
Qed.

Lemma Read_stray_characters_witness :
  exists e s',
    Read (" " ++ String "x" "<a/>") = Some (emptyBlock, Some e, s')
    /\ (InStr "<" "<a/>" -> e = ErrExtraChars)
    /\ (~ InStr "<" "<a/>" -> e = ErrStrayAtEOF).
Proof.
  apply (Read_stray_characters " " "x" "<a/>");
    [literal_chars | reflexivity | discriminate].
Defined.

(** ** Tags that do not match *)

Lemma closeBlock_mismatch (t t' : Tag) (v : string) (cs : list Block) (rest : string) :
  qualifiedName (SchemaName t') (Name t') ->
  SchemaName t <> SchemaName t' \/ Name t <> Name t' ->
  closeBlock (mkBlock t v cs) (printClose t' ++ rest)
  = (mkBlock t v cs, Some ErrTagMismatch, rest).
Proof.
  intros Hq Hne. unfold closeBlock. rewrite (readClosingTag_written t' rest Hq).
  cbn [OpeningTag Name SchemaName].
  destruct Hne as [Hne | Hne]; apply String.eqb_neq in Hne; rewrite Hne;
    cbn [negb orb]; [now rewrite orb_true_r | reflexivity].
Qed.

(** X8.  An element without children whose closing tag has another prefix or
    another name than its opening tag is read with the tag-mismatch error;
    the block read so far is returned with it. *)
Theorem Read_tag_mismatch (t t' : Tag) (v rest : string) :
  writableTag t -> qualifiedName (SchemaName t') (Name t') -> writableText v ->
  SchemaName t <> SchemaName t' \/ Name t <> Name t' ->
  Read (printOpen t ++ v ++ printClose t' ++ rest)
  = Some (mkBlock t v [], Some ErrTagMismatch, rest).
Proof.
  intros Ht Hq' Hv Hne. unfold Read. cbn [readBlock].
  rewrite (readOpeningTag_open t _ _ Ht (printOpen_length t _)).
  assert (Hclose : printClose t' ++ rest
                   = String "<" (String "/" (printName (SchemaName t') (Name t')
                                             ++ String ">" rest))).
  { unfold printClose. now rewrite str_app_assoc. }
  destruct v as [|x v].
  - cbn [String.append]. rewrite Hclose. cbn [ignoreWhiteSpace].
    replace (is_delim WHITESPACE "<") with false by (vm_compute; reflexivity).
    cbn [peekARune Ascii.eqb Bool.eqb negb].
    unfold peekNBytes. cbn [String.length Nat.ltb Nat.leb take].
    match goal with
    | |- context [readChildren ?f _ _ _] => destruct f
    end; cbn [readChildren String.eqb Ascii.eqb Bool.eqb];
      rewrite <- Hclose;
      now rewrite (closeBlock_mismatch t t' "" [] rest Hq' Hne).
  - destruct Hv as [Hlt Hws]. specialize (Hws x v eq_refl).
    cbn [String.append ignoreWhiteSpace]. rewrite Hws. cbn [peekARune].
    assert (Hx : x <> "<"%char) by (apply Hlt, InStr_cons; now left).
    rewrite (proj2 (Ascii.eqb_neq x "<") Hx). cbn [negb].
    rewrite Hclose.
    change (String x (v ++ String "<" (String "/"
              (printName (SchemaName t') (Name t') ++ String ">" rest))))
      with (String x v ++ String "<" (String "/"
              (printName (SchemaName t') (Name t') ++ String ">" rest))).
    rewrite (readTill_stop (bit "<") (String x v) "<").
    + rewrite <- Hclose.
      now rewrite (closeBlock_mismatch t t' (String x v) [] rest Hq' Hne).
    + intros y Hy. rewrite is_delim_lt. apply Ascii.eqb_neq.
      intros <-. now apply (Hlt "<"%char).
    + vm_compute. reflexivity.
Qed.

Lemma Read_tag_mismatch_witness :
  Read (printOpen (mkTag "a" "b" []) ++ "" ++ printClose (mkTag "c" "b" []) ++ "")
  = Some (mkBlock (mkTag "a" "b" []) "" [], Some ErrTagMismatch, "").
Proof.
  apply (Read_tag_mismatch (mkTag "a" "b" []) (mkTag "c" "b" []) "" "").
  - literal_tag.
  - literal_qualifiedName.
  - literal_text.
  - left. discriminate.
Defined.

(** ** What the reader gives the parser *)

Lemma readColonPair_latter (d : mask) (s : string) pr (s' : string) :
  readColonPair d s = (pr, true, None, s') -> snd pr <> "".
Proof.
  unfold readColonPair.
  destruct (readTill d s) as [[w [e|]] s1]; [discriminate|].
  destruct (splitColon w) as [[a b]|]; [|discriminate].
  destruct b as [|y b]; cbn [String.length Nat.eqb]; [discriminate|].
  intros [= <- _]. discriminate.
Qed.

Lemma readAttribute_prefixed (s : string) (a : Attribute) (e : option error)
    (s' : string) :
  readAttribute s = (a, e, s') -> prefixedHasName a.
Proof.
  unfold readAttribute, prefixedHasName.
  destruct (readColonPair _ s) as [[[pr ce] [e0|]] s1] eqn:Hpair.
  { intros [= <- _ _]. now intros H. }
  assert (Hce : ce = true -> snd pr <> "").
  { intros ->. exact (readColonPair_latter _ _ _ _ Hpair). }
  destruct (ignoreWhiteSpace s1) as [[e1|] s2].
  { intros [= <- _ _]. destruct ce; cbn; auto. }
  destruct (readARune s2) as [[nextRune [e2|]] s3].
  { intros [= <- _ _]. destruct ce; cbn; auto. }
  destruct (readARune s3) as [[firstQuote e3] s4].
  destruct (readTill _ s4) as [[word [e4|]] s5].
  { intros [= <- _ _]. destruct ce; cbn; auto. }
  destruct (readARune s5) as [[secondQuote e5] s6].
  destruct (Ascii.eqb firstQuote secondQuote);
    intros [= <- _ _]; destruct ce; cbn; auto.
Qed.

Lemma readAttrs_prefixed (fuel : nat) :
  forall (acc : list Attribute) (nextRune : ascii) (s : string)
         (attrs : list Attribute) (e : option error) (s' : string),
    Forall prefixedHasName acc ->
    readAttrs fuel acc nextRune s = Some (attrs, e, s') ->
    Forall prefixedHasName attrs.
Proof.
  induction fuel as [|fuel IH]; intros acc nextRune s attrs e s' Hacc;
    cbn [readAttrs];
    destruct (Ascii.eqb nextRune ">" || Ascii.eqb nextRune "/");
    try (intros [= <- _ _]; exact Hacc); try discriminate.
  destruct (readAttribute s) as [[a [e0|]] s1] eqn:Ha.
  { intros [= <- _ _]. exact Hacc. }
  assert (Hacc' : Forall prefixedHasName (acc ++ [a])).
  { apply Forall_app. split; [exact Hacc|].
    constructor; [exact (readAttribute_prefixed _ _ _ _ Ha) | constructor]. }
  destruct (ignoreWhiteSpace s1) as [[e1|] s2].
  { intros [= <- _ _]. exact Hacc'. }
  destruct (peekARune s2) as [nr [e2|]].
  { intros [= <- _ _]. exact Hacc'. }
  apply IH. exact Hacc'.
Qed.

Lemma readOpeningTag_prefixed (fuel : nat) (s : string) (t : Tag)
    (isProlog blockComplete : bool) (e : option error) (s' : string) :
  readOpeningTag fuel s = Some (t, isProlog, blockComplete, e, s') ->
  Forall prefixedHasName (Attrs t).
Proof.
  unfold readOpeningTag, tagOfPair. intros H.
  repeat match type of H with
         | context [readAttrs ?f ?acc ?n ?x] =>
             let Hr := fresh "Hr" in
             destruct (readAttrs f acc n x) as [[[? [?|]] ?]|] eqn:Hr;
             [ apply (readAttrs_prefixed _ _ _ _ _ _ _ (Forall_nil_2 _)) in Hr
             | apply (readAttrs_prefixed _ _ _ _ _ _ _ (Forall_nil_2 _)) in Hr
             | ]
         | context [match ?x with _ => _ end] =>
             lazymatch x with
             | context [readAttrs] => fail
             | _ => destruct x
             end
         end;
    try discriminate;
    injection H as <- _ _ _ _; cbn [Attrs]; try assumption; constructor.
Qed.

Lemma closeBlock_block (block : Block) (s : string) :
  fst (fst (closeBlock block s)) = block.
Proof.
  unfold closeBlock. destruct (readClosingTag s) as [[t [e|]] s']; [reflexivity|].
  destruct (_ || _); reflexivity.
Qed.

Lemma readBlock_prefixed (fuel : nat) :
  forall (s : string) (b : Block) (e : option error) (s' : string),
    readBlock fuel s = Some (b, e, s') ->
    Forall prefixedHasName (Attrs (OpeningTag b)).
Proof.
  induction fuel as [|fuel IH]; intros s b e s'; cbn [readBlock]; [discriminate|].
  destruct (readOpeningTag (String.length s) s)
    as [[[[[t isProlog] blockComplete] e0] s0]|] eqn:Ho; [|discriminate].
  apply readOpeningTag_prefixed in Ho.
  destruct isProlog; [apply IH|].
  destruct e0 as [e0|]; [intros [= <- _ _]; constructor|].
  destruct blockComplete; [intros [= <- _ _]; exact Ho|].
  destruct (ignoreWhiteSpace s0) as [e1 s1].
  destruct (peekARune s1) as [nextRune [e2|]]; [intros [= <- _ _]; exact Ho|].
  destruct (negb (Ascii.eqb nextRune "<")).
  - destruct (readTill (bit "<") s1) as [[word [e3|]] s2];
      [intros [= <- _ _]; exact Ho|].
    intros [= H]. apply (f_equal (fun r => fst (fst r))) in H.
    rewrite closeBlock_block in H. cbn [fst] in H. subst b. exact Ho.
  - destruct (peekNBytes 2 s1) as [two [e3|]]; [intros [= <- _ _]; exact Ho|].
    destruct (readChildren fuel [] two s1) as [[[children [e4|]] s2]|];
      [intros [= <- _ _]; exact Ho | | discriminate].
    intros [= H]. apply (f_equal (fun r => fst (fst r))) in H.
    rewrite closeBlock_block in H. cbn [fst] in H. subst b. exact Ho.
Qed.

Section NoEmptyPrefix.
Context `{U : URI} `{F : NodeFormat}.

Lemma parseHeaderAttrs_no_empty_prefix (attrs : list Attribute)
    (m0 m : gmap string URIRef) :
  Forall prefixedHasName attrs -> m0 !! "" = None ->
  parseHeaderAttrs attrs m0 = (m, None) -> m !! "" = None.
Proof.
  intros Hattrs Hm0 Hrun.
  destruct (m !! "") as [u|] eqn:Hm; [|reflexivity].
  destruct (parseHeaderAttrs_entries attrs m0 m "" u Hrun Hm)
    as [H | (a & Ha & Hs & Hn & _)]; [congruence|].
  rewrite Forall_forall in Hattrs.
  apply list_elem_of_In in Ha. specialize (Hattrs a Ha).
  exfalso. apply Hattrs; [rewrite Hs; discriminate | exact Hn].
Qed.

(** X9.  For every document, the namespace table that [Parse] installs has
    no entry for the empty prefix: the reader gives every attribute that has
    a prefix a non-empty local name, and the table is built from the
    attributes with the prefix [xmlns].  So no name without prefix resolves
    after the header is parsed. *)
Theorem ParseStart_no_empty_prefix (document : string) (c : Config) :
  ParseStart New document = Some (inr c) ->
  schemaDefinition (parser c) !! "" = None
  /\ forall name,
       uriFromPair (parser c) "" name = (zeroURIRef, Some (ErrUndefinedSchema "")).
Proof.
  unfold ParseStart, Read. intros H.
  destruct (readBlock _ document) as [[[rootBlock [e|]] s]|] eqn:Hr;
    try discriminate.
  apply readBlock_prefixed in Hr.
  destruct (parseHeaderBlock rootBlock) as [sd [e|]] eqn:Hh; try discriminate.
  injection H as <-. cbn [parser schemaDefinition setSchemaDefinition].
  assert (Hsd : sd !! "" = None).
  { apply (parseHeaderAttrs_no_empty_prefix _ ∅ sd Hr (lookup_empty _) Hh). }
  split; [exact Hsd|]. intros name. unfold uriFromPair.
  cbn [parser schemaDefinition setSchemaDefinition]. now rewrite Hsd.
Qed.

End NoEmptyPrefix.

Lemma ParseStart_no_empty_prefix_witness :
  schemaDefinition (parser (configAfter defaultNamespaceDocument [])) !! "" = None
  /\ forall name,
       uriFromPair (parser (configAfter defaultNamespaceDocument [])) "" name
       = (zeroURIRef, Some (ErrUndefinedSchema "")).
Proof.
  apply (ParseStart_no_empty_prefix defaultNamespaceDocument).
  vm_compute. reflexivity.
Defined.

(** * Further properties of the extractor *)
(** ** The header *)

Section Header.
Context `{U : URI} `{F : NodeFormat}.

Lemma parseHeaderAttrs_error (attrs : list Attribute) (m0 : gmap string URIRef) :
  match snd (parseHeaderAttrs attrs m0) with
  | None =>
      forall a, In a attrs -> attr_SchemaName a = "xmlns" ->
                is_Some (NewURIRef (attr_Value a))
  | Some e =>
      e = ErrSchemaURI
      /\ exists a, In a attrs /\ attr_SchemaName a = "xmlns"
           /\ NewURIRef (attr_Value a) = None
  end.
Proof.
  revert m0. induction attrs as [|a attrs IH]; intros m0; cbn [parseHeaderAttrs].
  - cbn. intros a [].
  - destruct (String.eqb_spec (attr_SchemaName a) "xmlns") as [Hx|Hx].
    + destruct (NewURIRef (attr_Value a)) as [u|] eqn:Hn.
      * specialize (IH (<[attr_Name a := u]> m0)).
        destruct (snd (parseHeaderAttrs attrs _)) as [e|].
        -- destruct IH as (-> & b & Hb & Hbx & Hbn).
           split; [reflexivity|]. exists b. cbn. auto.
        -- intros b [<- | Hb] Hbx; [rewrite Hn; eauto | now apply IH].
      * cbn. split; [reflexivity|]. exists a. cbn. auto.
    + specialize (IH m0).
      destruct (snd (parseHeaderAttrs attrs m0)) as [e|].
      * destruct IH as (-> & b & Hb & Hbx & Hbn).
        split; [reflexivity|]. exists b. cbn. auto.
      * intros b [<- | Hb] Hbx; [contradiction | now apply IH].
Qed.

(** X10.  [parseHeaderBlock] fails exactly when some attribute of the root
    with the prefix [xmlns] has a value that is not a URI, and then with the
    schema-URI error; the other attributes are never looked at. *)
Theorem parseHeaderBlock_fails_on_bad_uri (rootBlock : Block) :
  (snd (parseHeaderBlock rootBlock) = Some ErrSchemaURI
   <-> exists a, In a (Attrs (OpeningTag rootBlock))
         /\ attr_SchemaName a = "xmlns" /\ NewURIRef (attr_Value a) = None)
  /\ (snd (parseHeaderBlock rootBlock) = None
      \/ snd (parseHeaderBlock rootBlock) = Some ErrSchemaURI).
Proof.
  unfold parseHeaderBlock.
  pose proof (parseHeaderAttrs_error (Attrs (OpeningTag rootBlock)) ∅) as H.
  destruct (snd (parseHeaderAttrs (Attrs (OpeningTag rootBlock)) ∅)) as [e|].
  - destruct H as [-> Hex]. split; [tauto | now right].
  - split; [|now left]. split; [discriminate|].
    intros (a & Ha & Hx & Hn). destruct (H a Ha Hx) as [u Hu]. congruence.
Qed.

(** X11.  Of several declarations of one prefix on the root, the last one
    is the one in the table. *)
Theorem parseHeaderBlock_last_declaration_wins
    (t : Tag) (v : string) (cs : list Block) (l1 l2 : list Attribute)
    (a : Attribute) (k : string) (m : gmap string URIRef) :
  Attrs t = (l1 ++ a :: l2)%list -> declares k a ->
  (forall b, In b l2 -> ~ declares k b) ->
  parseHeaderBlock (mkBlock t v cs) = (m, None) ->
  m !! k = NewURIRef (attr_Value a).
Proof.
  unfold parseHeaderBlock. cbn [OpeningTag]. intros -> [Hx Hk] Hl2.
  rewrite parseHeaderAttrs_app.
  destruct (parseHeaderAttrs l1 ∅) as [m1 [e|]]; [discriminate|].
  cbn [parseHeaderAttrs]. rewrite (proj2 (String.eqb_eq _ _) Hx).
  destruct (NewURIRef (attr_Value a)) as [u|]; [|discriminate].
  intros Hrun. rewrite (parseHeaderAttrs_keeps l2 _ m k Hl2 Hrun).
  rewrite <- Hk. apply lookup_insert_eq.
Qed.

End Header.

Lemma parseHeaderBlock_last_declaration_wins_witness :
  ({[ "ex" := mkStringURI "http://b.org/" "" ]} : gmap string URIRef) !! "ex"
  = NewURIRef (attr_Value (mkAttribute "xmlns" "ex" "http://b.org/")).
Proof.
  apply (parseHeaderBlock_last_declaration_wins (U := stringURI)
           (mkTag "rdf" "RDF" [mkAttribute "xmlns" "ex" "http://a.org/";
                               mkAttribute "xmlns" "ex" "http://b.org/"])
           "" []
           [mkAttribute "xmlns" "ex" "http://a.org/"] []
           (mkAttribute "xmlns" "ex" "http://b.org/") "ex").
  - reflexivity.
  - split; reflexivity.
  - intros b [].
  - vm_compute. reflexivity.
Defined.

Lemma parseHeaderBlock_fails_on_bad_uri_witness :
  snd (parseHeaderBlock (U := stringURI)
         (mkBlock (mkTag "rdf" "RDF"
                     [mkAttribute "" "id" "not a uri";
                      mkAttribute "xmlns" "ex" "not a uri"]) "" []))
  = Some ErrSchemaURI.
Proof.
  apply (proj2 (proj1 (parseHeaderBlock_fails_on_bad_uri (U := stringURI)
                         (mkBlock (mkTag "rdf" "RDF"
                                     [mkAttribute "" "id" "not a uri";
                                      mkAttribute "xmlns" "ex" "not a uri"])
                                  "" [])))).
  exists (mkAttribute "xmlns" "ex" "not a uri").
  split; [right; left; reflexivity | split; reflexivity].
Defined.

(** ** The attribute search and the store *)

Lemma findIndex_bounds {A : Type} (f : A -> bool) (l : list A) (i : Z) :
  findIndex f i l = -1 \/ (i <= findIndex f i l < i + Z.of_nat (length l)).
Proof.
  revert i. induction l as [|a l IH]; intros i; cbn [findIndex length].
  - now left.
  - destruct (f a); [right; lia|].
    destruct (IH (i + 1)) as [H | H]; [now left | right; lia].
Qed.

Lemma takeWhile_length {A : Type} (f : A -> bool) (l : list A) :
  (length (takeWhile f l) <= length l)%nat.
Proof.
  induction l as [|a l IH]; cbn [takeWhile length]; [lia|].
  destruct (f a); cbn [length]; lia.
Qed.

Lemma takeWhile_all {A : Type} (f : A -> bool) (l : list A) :
  (forall a, In a l -> f a = true) -> takeWhile f l = l.
Proof.
  induction l as [|a l IH]; intros H; cbn [takeWhile]; [reflexivity|].
  rewrite (H a) by now left. f_equal. apply IH. intros b Hb. apply H. now right.
Qed.

Section SearchAndStore.
Context `{U : URI} `{F : NodeFormat}.

(** X12.  The index that the attribute search returns is -1 or an index of
    the tag's attributes, so that indexing the attributes with it is in
    range; and on a tag whose attributes all have declared prefixes the
    search finds the first attribute that resolves to the target. *)
Theorem getRDFAttributeIndex_in_range (p : Parser) (tag : Tag) (attrName : string) :
  let i := fst (getRDFAttributeIndex p tag attrName) in
  (i = -1 \/ 0 <= i < Z.of_nat (length (Attrs tag)))
  /\ ((forall a, In a (Attrs tag) -> resolves p a = true) ->
      i = firstRDFAttribute p tag attrName).
Proof.
  cbn zeta. unfold getRDFAttributeIndex. cbn [fst].
  rewrite getRDFAttributeLoop_scanned. split.
  - pose proof (takeWhile_length (resolves p) (Attrs tag)).
    destruct (findIndex_bounds (isRDFAttribute p attrName)
                (takeWhile (resolves p) (Attrs tag)) 0); [now left | right; lia].
  - intros Hall. unfold firstRDFAttribute. now rewrite (takeWhile_all _ _ Hall).
Qed.

(** X13.  Appending two triples with different keys gives the same store in
    either order; with the same key the second one replaces the first. *)
Theorem appendTriple_order (p : Parser) (t1 t2 : Triple) :
  (Hash t1 <> Hash t2 ->
   appendTriple (appendTriple p t1) t2 = appendTriple (appendTriple p t2) t1)
  /\ (Hash t1 = Hash t2 ->
      appendTriple (appendTriple p t1) t2 = appendTriple p t2).
Proof.
  unfold appendTriple, setTriples. cbn [Triples schemaDefinition blankNodeGetter rdfNS wg].
  split; intros H.
  - f_equal. now apply insert_insert_ne.
  - f_equal. rewrite H. apply insert_insert_eq.
Qed.

End SearchAndStore.

Lemma getRDFAttributeIndex_in_range_witness :
  fst (getRDFAttributeIndex rdfExParser tagNodeID' "nodeID")
  = firstRDFAttribute rdfExParser tagNodeID' "nodeID".
Proof.
  apply (proj2 (getRDFAttributeIndex_in_range rdfExParser tagNodeID' "nodeID")).
  intros a Ha. cbn in Ha. destruct Ha as [<- | [<- | []]]; vm_compute; reflexivity.
Defined.

Lemma appendTriple_order_witness :
  appendTriple (appendTriple rdfExParser
                  (literalOf (mkNode IRI "s") (mkNode IRI "p") "a"))
               (literalOf (mkNode IRI "s") (mkNode IRI "p") "b")
  = appendTriple (appendTriple rdfExParser
                    (literalOf (mkNode IRI "s") (mkNode IRI "p") "b"))
                 (literalOf (mkNode IRI "s") (mkNode IRI "p") "a").
Proof.
  apply (proj1 (appendTriple_order rdfExParser
                  (literalOf (mkNode IRI "s") (mkNode IRI "p") "a")
                  (literalOf (mkNode IRI "s") (mkNode IRI "p") "b"))).
  vm_compute. discriminate.
Defined.

(** ** Executions of the extractor *)

Section Executions.
Context `{U : URI} `{F : NodeFormat}.

Ltac local_cases H :=
  match type of H with
  | stepLocal _ _ ?u = _ =>
      unfold stepLocal, checkErrp in H;
      destruct (line u);
      repeat match type of H with
             | context [match ?x with _ => _ end] => destruct x
             end;
      try discriminate;
      injection H as <- <- <- <-
  end.

(** What one statement of [parseBlock] does to the error variables: it
    writes its own only, and the goroutine it starts gets the same one. *)
Lemma stepLocal_slots (p p' : Parser) (sl sl' : list (option error))
    (u u' : Unit) (started : list Unit) :
  stepLocal p sl u = Some (u', p', sl', started) ->
  length sl' = length sl /\ errp u' = errp u
  /\ (forall v, In v started -> errp v = errp u)
  /\ (forall j, j <> errp u -> sl' !! j = sl !! j).
Proof.
  intros H. local_cases H;
    (split; [ lazymatch goal with
              | |- context [writeSlot] => apply length_insert
              | _ => reflexivity
              end
            | split; [reflexivity|];
              split;
              [ lazymatch goal with
                | |- context [newUnit] => intros v [<- | []]; reflexivity
                | _ => intros v []
                end
              | lazymatch goal with
                | |- context [writeSlot] =>
                    intros j Hj; apply list_lookup_insert_ne; cbn; congruence
                | _ => reflexivity
                end ] ]).
Qed.

(** It never writes the namespace table or the RDF namespace. *)
Lemma stepLocal_table (p p' : Parser) (sl sl' : list (option error))
    (u u' : Unit) (started : list Unit) :
  stepLocal p sl u = Some (u', p', sl', started) ->
  schemaDefinition p' = schemaDefinition p /\ rdfNS p' = rdfNS p.
Proof. intros H. local_cases H; split; reflexivity. Qed.

(** It leaves the store as it is or appends one triple. *)
Lemma stepLocal_triples (p p' : Parser) (sl sl' : list (option error))
    (u u' : Unit) (started : list Unit) :
  stepLocal p sl u = Some (u', p', sl', started) ->
  Triples p' = Triples p \/ exists t, p' = appendTriple p t.
Proof.
  intros H. local_cases H;
    lazymatch goal with
    | |- context [appendTriple ?q ?t] => right; exists t; reflexivity
    | _ => left; reflexivity
    end.
Qed.

Lemma stepUnit_slots (i : nat) (c c' : Config) :
  stepUnit i c = Some c' -> slotsInvariant c -> slotsInvariant c'.
Proof.
  unfold stepUnit. destruct (units c !! i) as [u|] eqn:Hu; [|discriminate].
  destruct (stepLocal (parser c) (slots c) u) as [[[[u' p'] sl'] started]|] eqn:Hs;
    [|discriminate].
  intros [= <-] (Hrange & Hlen1 & Hfresh).
  destruct (stepLocal_slots _ _ _ _ _ _ _ Hs) as (Hlen & He & Hst & Hsl).
  pose proof (Hrange i u Hu) as Hi.
  repeat apply conj; cbn [units slots mainLine].
  - intros j v Hv. rewrite Hlen.
    apply lookup_app_Some in Hv as [Hv | [_ Hv]].
    + destruct (decide (j = i)) as [->|Hne].
      * rewrite list_lookup_insert_eq in Hv by (eapply lookup_lt_Some; eauto).
        injection Hv as <-. now rewrite He.
      * rewrite list_lookup_insert_ne in Hv by congruence. now apply (Hrange j).
    + apply list_elem_of_lookup_2, list_elem_of_In in Hv.
      now rewrite (Hst v Hv).
  - now rewrite Hlen.
  - intros Hm. specialize (Hfresh Hm). unfold readSlot in *.
    rewrite Hlen, Hsl; [exact Hfresh | lia].
Qed.

Lemma stepMain_slots (c c' : Config) :
  stepMain c = Some c' -> slotsInvariant c -> slotsInvariant c'.
Proof.
  unfold stepMain, slotsInvariant. intros H (Hrange & Hlen & Hfresh).
  destruct (mainLine c) eqn:Hm; cbn [mainFresh] in *.
  - destruct (rootChildren c); injection H as <-; cbn;
      (repeat apply conj; [exact Hrange | lia | discriminate]).
  - injection H as <-; cbn. repeat apply conj; [exact Hrange | lia | discriminate].
  - destruct (nodeFromTag_no_error (parser c) (OpeningTag (child c)))
      as (n & g & Hn).
    rewrite Hn in H. injection H as <-; cbn. rewrite length_app. cbn.
    repeat apply conj.
    + intros i u Hu. specialize (Hrange i u Hu). lia.
    + lia.
    + intros _. unfold readSlot.
      replace (length (slots c) + 1 - 1)%nat with (length (slots c)) by lia.
      now rewrite lookup_app_r, Nat.sub_diag by lia.
  - pose proof (Hfresh eq_refl) as Hnil. rewrite Hnil in H.
    injection H as <-; cbn.
    repeat apply conj; [exact Hrange | lia | intros _; exact Hnil].
  - injection H as <-; cbn. repeat apply conj; [|lia|discriminate].
    intros i u Hu. apply lookup_app_Some in Hu as [Hu | [_ Hu]].
    + specialize (Hrange i u Hu). lia.
    + destruct (i - length (units c))%nat; [|discriminate].
      injection Hu as <-. cbn. lia.
  - destruct (readSlot _ _); injection H as <-; cbn;
      (repeat apply conj; [exact Hrange | lia | discriminate]).
  - destruct (wg (parser c) =? 0); [|discriminate].
    injection H as <-; cbn. repeat apply conj; [exact Hrange | lia | discriminate].
  - injection H as <-; cbn. repeat apply conj; [exact Hrange | lia | discriminate].
  - discriminate.
Qed.

End Executions.

Section ExecutionInvariants.
Context `{U : URI} `{F : NodeFormat}.

Lemma step_slots (t : Thread) (c c' : Config) :
  step t c = Some c' -> slotsInvariant c -> slotsInvariant c'.
Proof. destruct t; [apply stepMain_slots | apply stepUnit_slots]. Qed.

Lemma stepUnit_exact (i : nat) (c c' : Config) :
  stepUnit i c = Some c' -> exactCounter c -> exactCounter c'.
Proof.
  unfold stepUnit. destruct (units c !! i) as [u|] eqn:Hu; [|discriminate].
  destruct (stepLocal (parser c) (slots c) u) as [[[[u' p'] sl'] started]|] eqn:Hs;
    [|discriminate].
  intros [= <-] [Heq Hpast].
  destruct (stepLocal_counter _ _ _ _ _ _ _ Hs) as (Hwg & Hnf & _).
  split; cbn [parser units mainLine].
  - unfold totalOutstanding in *. cbn [mainLine units].
    rewrite sumOutstanding_app, (sumOutstanding_insert _ _ u u' Hu). lia.
  - intros Hp. destruct (Hpast Hp) as [Hall _].
    rewrite Forall_lookup in Hall. now specialize (Hall i u Hu).
Qed.

Lemma stepMain_exact (c c' : Config) :
  stepMain c = Some c' -> slotsInvariant c -> exactCounter c -> exactCounter c'.
Proof.
  unfold stepMain, exactCounter, totalOutstanding, pastWait.
  intros H (_ & _ & Hfresh) [Heq Hpast].
  destruct (mainLine c) eqn:Hm; cbn [mainOutstanding mainFresh] in *.
  - destruct (rootChildren c); injection H as <-; cbn;
      (split; [lia | intros [|]; discriminate]).
  - injection H as <-; cbn. split; [lia | intros [|]; discriminate].
  - destruct (nodeFromTag _ _) as [[n e] g]. injection H as <-; cbn.
    split; [lia | intros [|]; discriminate].
  - rewrite (Hfresh eq_refl) in H. injection H as <-; cbn.
    split; [lia | intros [|]; discriminate].
  - injection H as <-; cbn. rewrite sumOutstanding_app. cbn [sumOutstanding].
    change (outstanding (newUnit (child c) (childNode c) (length (slots c) - 1)))
      with 1.
    split; [lia | intros [|]; discriminate].
  - destruct (readSlot _ _); injection H as <-; cbn;
      (split; [lia | intros [|]; discriminate]).
  - destruct (Z.eqb_spec (wg (parser c)) 0) as [Hz|]; [|discriminate].
    injection H as <-; cbn. split; [lia|]. intros _.
    split; [apply sumOutstanding_zero; lia | exact Hz].
  - injection H as <-; cbn. split; [lia|]. intros _. apply Hpast. now left.
  - discriminate.
Qed.

Lemma run_slots_exact (schedule : list Thread) (c c' : Config) :
  run schedule c = Some c' -> slotsInvariant c /\ exactCounter c ->
  slotsInvariant c' /\ exactCounter c'.
Proof.
  revert c. induction schedule as [|t schedule IH]; intros c; cbn [run].
  - now intros [= <-].
  - destruct (step t c) as [c1|] eqn:Hs; [|discriminate].
    intros Hr [Hsl Hex]. apply (IH c1 Hr). split.
    + exact (step_slots t c c1 Hs Hsl).
    + destruct t; [exact (stepMain_exact c c1 Hs Hsl Hex)
                  | exact (stepUnit_exact i c c1 Hs Hex)].
Qed.

Lemma startOf_shape (document : string) (c : Config) :
  startOf document = Some c ->
  exists sd children,
    c = mkConfig (setSchemaDefinition New sd) [] M255 children emptyBlock None [].
Proof.
  unfold startOf, ParseStart.
  destruct (Read document) as [[[rootBlock [e|]] s]|]; try discriminate.
  destruct (parseHeaderBlock rootBlock) as [sd [e|]]; try discriminate.
  intros [= <-]. eauto.
Qed.

Lemma runFrom_slots_exact (document : string) (schedule : list Thread) (c : Config) :
  runFrom document schedule = Some c -> slotsInvariant c /\ exactCounter c.
Proof.
  unfold runFrom. destruct (startOf document) as [c0|] eqn:Hs; [|discriminate].
  intros Hr. apply (run_slots_exact schedule c0 c Hr).
  destruct (startOf_shape _ _ Hs) as (sd & children & ->). split.
  - repeat apply conj; cbn; [intros i u Hu; discriminate | lia | discriminate].
  - split; cbn; [reflexivity | intros [|]; discriminate].
Qed.

(** X14.  [nodeFromTag] never returns an error or a nil node, so the
    [return err] at line 259 of [Parse] is dead: in every execution, [Parse]
    at line 258 goes on to the [go] statement. *)
Theorem Parse_never_returns_at_line_259 (document : string)
    (schedule : list Thread) (c : Config) :
  runFrom document schedule = Some c -> mainLine c = M258 ->
  (forall p tag, exists n g, nodeFromTag p tag = (Some n, None, g))
  /\ step Main c = Some (setMain M261 c).
Proof.
  intros Hrun Hm. split; [apply nodeFromTag_no_error|].
  destruct (runFrom_slots_exact _ _ _ Hrun) as [(_ & _ & Hfresh) _].
  cbn [step]. unfold stepMain. rewrite Hm in *.
  now rewrite (Hfresh eq_refl).
Qed.

(** X15.  In every execution of [Parse], the join counter is exactly the
    number of calls of [parseBlock] that were announced by [wg.Add] and have
    not reached [wg.Done]; it is never negative. *)
Theorem join_counter_exact (document : string) (schedule : list Thread)
    (c : Config) :
  runFrom document schedule = Some c ->
  wg (parser c) = totalOutstanding c /\ 0 <= wg (parser c).
Proof.
  intros Hrun. destruct (runFrom_slots_exact _ _ _ Hrun) as [_ [Heq _]].
  split; [exact Heq|]. rewrite Heq. unfold totalOutstanding.
  pose proof (sumOutstanding_nonneg (units c)).
  assert (0 <= mainOutstanding (mainLine c))
    by (unfold mainOutstanding; destruct (mainLine c); lia).
  lia.
Qed.

(** X16.  When [Parse] has returned nil, every goroutine it started, and
    every goroutine those started, has run to the end of [parseBlock]; the
    counter is zero and no thread can step: the triple set is final. *)
Theorem Parse_nil_means_all_finished (document : string)
    (schedule : list Thread) (c : Config) :
  runFrom document schedule = Some c -> mainLine c = MReturned None ->
  Forall (fun u => line u = Finished) (units c)
  /\ wg (parser c) = 0
  /\ forall t, step t c = None.
Proof.
  intros Hrun Hm. destruct (runFrom_slots_exact _ _ _ Hrun) as [_ [_ Hpast]].
  destruct (Hpast (or_intror Hm)) as [Hall Hwg].
  repeat apply conj; [exact Hall | exact Hwg|].
  intros [|i]; cbn [step].
  - unfold stepMain. now rewrite Hm.
  - unfold stepUnit. destruct (units c !! i) as [u|] eqn:Hu; [|reflexivity].
    rewrite Forall_lookup in Hall. specialize (Hall i u Hu).
    unfold stepLocal. now rewrite Hall.
Qed.

End ExecutionInvariants.

Lemma Parse_never_returns_at_line_259_witness :
  (forall p tag, exists n g, nodeFromTag p tag = (Some n, None, g))
  /\ step Main (configAfter resourceDocument (replicate 3 Main))
     = Some (setMain M261 (configAfter resourceDocument (replicate 3 Main))).
Proof.
  apply (Parse_never_returns_at_line_259 resourceDocument (replicate 3 Main));
    vm_compute; reflexivity.
Defined.

Lemma join_counter_exact_witness :
  wg (parser (configAfter undeclaredDocument waitFirst))
  = totalOutstanding (configAfter undeclaredDocument waitFirst)
  /\ 0 <= wg (parser (configAfter undeclaredDocument waitFirst)).
Proof.
  apply (join_counter_exact undeclaredDocument waitFirst).
  vm_compute. reflexivity.
Defined.

Lemma Parse_nil_means_all_finished_witness :
  Forall (fun u => line u = Finished)
    (units (configAfter resourceDocument completeRun))
  /\ wg (parser (configAfter resourceDocument completeRun)) = 0
  /\ forall t, step t (configAfter resourceDocument completeRun) = None.
Proof.
  apply (Parse_nil_means_all_finished resourceDocument completeRun);
    vm_compute; reflexivity.
Defined.

Section StoreAndTable.
Context `{U : URI} `{F : NodeFormat}.

Lemma step_store_table (t : Thread) (c c' : Config) :
  step t c = Some c' ->
  schemaDefinition (parser c') = schemaDefinition (parser c)
  /\ rdfNS (parser c') = rdfNS (parser c)
  /\ (Triples (parser c') = Triples (parser c)
      \/ exists tr, parser c' = appendTriple (parser c) tr).
Proof.
  destruct t as [|i]; cbn [step].
  - unfold stepMain.
    destruct (mainLine c);
      repeat match goal with
             | |- context [match ?x with _ => _ end] => destruct x
             end;
      try discriminate; intros [= <-]; cbn; auto.
  - unfold stepUnit. destruct (units c !! i) as [u|]; [|discriminate].
    destruct (stepLocal (parser c) (slots c) u) as [[[[u' p'] sl'] started]|] eqn:Hs;
      [|discriminate].
    intros [= <-]. cbn [parser].
    destruct (stepLocal_table _ _ _ _ _ _ _ Hs) as [H1 H2].
    pose proof (stepLocal_triples _ _ _ _ _ _ _ Hs). auto.
Qed.

Lemma keyedByHash_append (p : Parser) (tr : Triple) :
  keyedByHash (Triples p) -> keyedByHash (Triples (appendTriple p tr)).
Proof.
  intros Hk k t. unfold appendTriple, setTriples. cbn [Triples].
  destruct (decide (Hash tr = k)) as [<-|Hne].
  - rewrite lookup_insert_eq. now intros [= <-].
  - rewrite lookup_insert_ne by assumption. apply Hk.
Qed.

(** X17.  Along every execution the namespace table and the RDF namespace
    stay as [Parse] installed them, no key ever leaves the triple store, and
    every triple of the store is stored under its own key. *)
Theorem run_store_and_table (schedule : list Thread) (c c' : Config) :
  run schedule c = Some c' ->
  schemaDefinition (parser c') = schemaDefinition (parser c)
  /\ rdfNS (parser c') = rdfNS (parser c)
  /\ (forall k, is_Some (Triples (parser c) !! k) ->
                is_Some (Triples (parser c') !! k))
  /\ (keyedByHash (Triples (parser c)) -> keyedByHash (Triples (parser c'))).
Proof.
  revert c. induction schedule as [|t schedule IH]; intros c; cbn [run].
  - intros [= <-]. auto.
  - destruct (step t c) as [c1|] eqn:Hs; [|discriminate].
    intros Hr. destruct (IH c1 Hr) as (H1 & H2 & H3 & H4).
    destruct (step_store_table t c c1 Hs) as (G1 & G2 & G3).
    repeat apply conj.
    + congruence.
    + congruence.
    + intros k Hk. apply H3. destruct G3 as [-> | [tr ->]]; [exact Hk|].
      unfold appendTriple, setTriples. cbn [Triples].
      destruct (decide (Hash tr = k)) as [<-|Hne].
      * rewrite lookup_insert_eq. eauto.
      * now rewrite lookup_insert_ne.
    + intros Hk. apply H4. destruct G3 as [-> | [tr ->]]; [exact Hk|].
      now apply keyedByHash_append.
Qed.

End StoreAndTable.

Lemma run_store_and_table_witness :
  keyedByHash (Triples (parser (configAfter resourceDocument completeRun))).
Proof.
  assert (Hrun : run completeRun (configAfter resourceDocument [])
                 = Some (configAfter resourceDocument completeRun))
    by (vm_compute; reflexivity).
  apply (proj2 (proj2 (proj2 (run_store_and_table _ _ _ Hrun)))).
  intros k t H. vm_compute in H. discriminate.
Defined.

(** ** Every execution ends *)

Lemma blockWork_eq (b : Block) :
  blockWork b = (25 + objsWork (Children b))%nat.
Proof. destruct b. reflexivity. Qed.

Lemma objsWork_cons (b : Block) (l : list Block) :
  objsWork (b :: l) = (8 + blockWork b + objsWork l)%nat.
Proof. reflexivity. Qed.

Lemma predsWork_cons (b : Block) (l : list Block) :
  predsWork (b :: l) = (blockWork b + predsWork l)%nat.
Proof. reflexivity. Qed.

Lemma rootWork_cons (b : Block) (l : list Block) :
  rootWork (b :: l) = (7 + blockWork b + rootWork l)%nat.
Proof. reflexivity. Qed.

Lemma predsWork_le (l : list Block) : (predsWork l <= objsWork l)%nat.
Proof.
  induction l as [|b l IH]; [reflexivity|].
  rewrite objsWork_cons, predsWork_cons. lia.
Qed.

Lemma blockWork_preds (b : Block) :
  (predsWork (Children b) + 25 <= blockWork b)%nat.
Proof. rewrite blockWork_eq. pose proof (predsWork_le (Children b)). lia. Qed.

Section Work.
Context `{U : URI} `{F : NodeFormat}.

Lemma unitWork_newUnit (b : Block) (n : option Node) (e : nat) :
  (unitWork (newUnit b n e) + 23 <= blockWork b)%nat.
Proof.
  unfold unitWork. cbn [newUnit line preds].
  pose proof (blockWork_preds b). lia.
Qed.

Lemma unitsWork_app (us vs : list Unit) :
  unitsWork (us ++ vs) = (unitsWork us + unitsWork vs)%nat.
Proof. induction us as [|u us IH]; cbn; [reflexivity | rewrite IH; lia]. Qed.

Lemma unitsWork_insert (us : list Unit) (i : nat) (u u' : Unit) :
  us !! i = Some u ->
  (unitsWork (<[i := u']> us) + unitWork u = unitsWork us + unitWork u')%nat.
Proof.
  revert i. induction us as [|v us IH]; intros [|i] H; try discriminate.
  - injection H as ->. change (<[0%nat := u']> (u :: us)) with (u' :: us).
    cbn [unitsWork]. lia.
  - change (us !! i = Some u) in H. specialize (IH i H).
    change (<[S i := u']> (v :: us)) with (v :: <[i := u']> us).
    cbn [unitsWork]. lia.
Qed.

(** Every statement of [parseBlock] uses up some of the work that is left
    to the call and to the goroutine it starts. *)
Lemma stepLocal_work (p p' : Parser) (sl sl' : list (option error))
    (u u' : Unit) (started : list Unit) :
  stepLocal p sl u = Some (u', p', sl', started) ->
  (unitWork u' + unitsWork started < unitWork u)%nat.
Proof.
  intros H. unfold stepLocal, checkErrp in H. unfold unitWork at 2.
  destruct (line u) eqn:Hl;
    repeat match type of H with
           | context [match ?x with _ => _ end] => destruct x eqn:?
           end;
    try discriminate; injection H as <- <- <- <-;
    unfold unitWork;
    cbn [line preds objs predicateBlock objectBlock goto setPred
         setPredicateNode setOpeningTagUri setResIdx setObjs setObj
         setObjectNode unitsWork];
    rewrite ?objsWork_cons, ?predsWork_cons; try lia.
  - rewrite blockWork_eq. lia.
  - pose proof (unitWork_newUnit (objectBlock u) (objectNode u) (errp u)). lia.
Qed.

Lemma stepUnit_work (i : nat) (c c' : Config) :
  stepUnit i c = Some c' -> (workLeft c' < workLeft c)%nat.
Proof.
  unfold stepUnit. destruct (units c !! i) as [u|] eqn:Hu; [|discriminate].
  destruct (stepLocal (parser c) (slots c) u) as [[[[u' p'] sl'] started]|] eqn:Hs;
    [|discriminate].
  intros [= <-]. unfold workLeft, mainWork. cbn [mainLine rootChildren child units].
  rewrite unitsWork_app.
  pose proof (unitsWork_insert _ _ _ u' Hu). pose proof (stepLocal_work _ _ _ _ _ _ _ Hs).
  lia.
Qed.

Lemma stepMain_work (c c' : Config) :
  stepMain c = Some c' -> (workLeft c' < workLeft c)%nat.
Proof.
  unfold stepMain. intros H. unfold workLeft, mainWork at 2.
  destruct (mainLine c) eqn:Hm;
    repeat match type of H with
           | context [match ?x with _ => _ end] => destruct x eqn:?
           end;
    try discriminate; injection H as <-;
    unfold mainWork;
    cbn [mainLine rootChildren child units setMain setChild setParser
         setChildNode setSlots setUnits];
    rewrite ?rootWork_cons; try lia.
  - rewrite unitsWork_app. cbn [unitsWork].
    pose proof (unitWork_newUnit (child c) (childNode c) (length (slots c) - 1)).
    lia.
Qed.

Lemma step_work (t : Thread) (c c' : Config) :
  step t c = Some c' -> (workLeft c' < workLeft c)%nat.
Proof. destruct t; [apply stepMain_work | apply stepUnit_work]. Qed.

(** X18.  No execution of the statements of [Parse] and of the goroutines
    of [parseBlock] is longer than the work that its first configuration
    has left: every execution ends, whatever the order of the threads. *)
Theorem run_length_bounded (schedule : list Thread) (c c' : Config) :
  run schedule c = Some c' ->
  (length schedule + workLeft c' <= workLeft c)%nat.
Proof.
  revert c. induction schedule as [|t schedule IH]; intros c H; cbn in H.
  - injection H as <-. cbn. lia.
  - destruct (step t c) as [c1|] eqn:Hs; [|discriminate].
    specialize (IH c1 H). pose proof (step_work _ _ _ Hs). cbn [length]. lia.
Qed.

End Work.

(** ** Documents whose subject elements have declared prefixes *)

Section Safety.
Context `{U : URI} `{F : NodeFormat}.

Lemma subjectOK_inv (sd : gmap string URIRef) (b : Block) :
  subjectOK sd b ->
  (Children b = [] \/ is_Some (sd !! SchemaName (OpeningTag b)))
  /\ Forall (predicateOK sd) (Children b).
Proof. intros H. inversion H; subst. split; assumption. Qed.

Lemma subjectOK_emptyBlock (sd : gmap string URIRef) : subjectOK sd emptyBlock.
Proof. constructor; [now left | constructor]. Qed.

Lemma unitOK_newUnit (sd : gmap string URIRef) (b : Block) (n : option Node)
    (e : nat) :
  subjectOK sd b -> unitOK sd (newUnit b n e).
Proof.
  intros H. destruct (subjectOK_inv _ _ H) as [Hd Hp].
  unfold unitOK. cbn [newUnit line newErr currBlock preds predicateBlock objs objectBlock].
  repeat apply conj; try easy.
  - destruct Hd as [Hd | Hd]; [right | now left]. split; [exact Hd | now left].
  - constructor.
  - apply subjectOK_emptyBlock.
Qed.

Lemma readSlot_all_nil (sl : list (option error)) (e : nat) :
  Forall (fun x => x = None) sl -> readSlot sl e = None.
Proof.
  intros H. unfold readSlot. destruct (sl !! e) as [x|] eqn:Hx; [|reflexivity].
  rewrite Forall_lookup in H. cbn. exact (H e x Hx).
Qed.

Lemma writeSlot_all_nil (sl : list (option error)) (e : nat) :
  Forall (fun x => x = None) sl ->
  Forall (fun x => x = None) (writeSlot e None sl).
Proof.
  intros H. unfold writeSlot. rewrite Forall_lookup in *. intros i x Hx.
  destruct (decide (i = e)) as [->|Hne].
  - destruct (decide (e < length sl)%nat) as [Hlt|Hge].
    + rewrite list_lookup_insert_eq in Hx by exact Hlt. congruence.
    + rewrite list_insert_ge in Hx by lia. eauto.
  - rewrite list_lookup_insert_ne in Hx by congruence. eauto.
Qed.

(** On such a document a statement of [parseBlock] finds no error: the
    call goes on, and the goroutine it starts is in the same case. *)
Lemma stepLocal_safe (p p' : Parser) (sl sl' : list (option error))
    (u u' : Unit) (started : list Unit) :
  Forall (fun x => x = None) sl -> unitOK (schemaDefinition p) u ->
  stepLocal p sl u = Some (u', p', sl', started) ->
  Forall (fun x => x = None) sl'
  /\ unitOK (schemaDefinition p) u'
  /\ Forall (unitOK (schemaDefinition p)) started.
Proof.
  intros Hsl (Hret & Herr & Hdecl & Hps & Hpb & Hos & Hob) H.
  unfold stepLocal, checkErrp, uriFromPair, getRDFAttributeIndex in H.
  rewrite (readSlot_all_nil _ _ Hsl), Herr in H.
  destruct (line u) eqn:Hl;
    try discriminate;
    (destruct Hdecl as [Hdecl | [Hnil [Hdecl | [Hdecl | Hdecl]]]];
     try discriminate).
  all: repeat match type of H with
              | context [nodeFromTag ?q ?t] =>
                  let n := fresh "n" in let g := fresh "g" in
                  let Hn := fresh "Hn" in
                  destruct (nodeFromTag_no_error q t) as (n & g & Hn);
                  rewrite Hn in H
              | context [schemaDefinition ?q !! ?k] =>
                  let x := fresh "x" in
                  destruct Hdecl as [x Hdecl]; rewrite Hdecl in H
              end.
  all: repeat match type of H with
              | context [match ?x with _ => _ end] => destruct x eqn:?
              end;
       try discriminate; injection H as <- <- <- <-.
  all: repeat match goal with
              | H : Forall _ (_ :: _) |- _ => apply Forall_cons_1 in H as [? ?]
              end.
  all: split;
       [ first [assumption | apply writeSlot_all_nil; assumption]
       | split;
         [ unfold unitOK;
           cbn [line newErr currBlock preds predicateBlock objs objectBlock
                goto setPred setPredicateNode setOpeningTagUri setResIdx
                setObjs setObj setObjectNode];
           repeat apply conj;
           try assumption; try discriminate; try reflexivity;
           try (left; eauto; fail);
           try (right; split; [assumption | auto]; fail);
           try match goal with
               | H : ?x = [] |- Forall _ ?x => rewrite H; constructor
               end
         | first [ solve [constructor]
                 | constructor;
                   [apply unitOK_newUnit; assumption | constructor] ] ] ].
Qed.

End Safety.

Section SafeExecutions.
Context `{U : URI} `{F : NodeFormat}.

Lemma stepUnit_safe (i : nat) (c c' : Config) :
  stepUnit i c = Some c' -> safeConfig c -> safeConfig c'.
Proof.
  unfold stepUnit. destruct (units c !! i) as [u|] eqn:Hu; [|discriminate].
  destruct (stepLocal (parser c) (slots c) u) as [[[[u' p'] sl'] started]|] eqn:Hs;
    [|discriminate].
  intros [= <-] (Hsl & Hm & Hroot & Hchild & Hunits).
  destruct (stepLocal_table _ _ _ _ _ _ _ Hs) as [Hsd _].
  assert (Hu' : unitOK (schemaDefinition (parser c)) u)
    by (rewrite Forall_lookup in Hunits; exact (Hunits i u Hu)).
  destruct (stepLocal_safe _ _ _ _ _ _ _ Hsl Hu' Hs) as (Hsl' & Hok & Hst).
  unfold safeConfig. cbn [parser slots mainLine rootChildren child units].
  rewrite Hsd.
  split; [exact Hsl' | split; [exact Hm | split; [exact Hroot | split; [exact Hchild|]]]].
  apply Forall_app. split; [|exact Hst].
  apply Forall_insert; assumption.
Qed.

Lemma stepMain_safe (c c' : Config) :
  stepMain c = Some c' -> safeConfig c -> safeConfig c'.
Proof.
  unfold stepMain. intros H (Hsl & Hm & Hroot & Hchild & Hunits).
  rewrite (readSlot_all_nil _ _ Hsl) in H.
  destruct (nodeFromTag_no_error (parser c) (OpeningTag (child c)))
    as (n & g & Hn).
  rewrite Hn in H.
  destruct (mainLine c) eqn:Hl;
    repeat match type of H with
           | context [match ?x with _ => _ end] => destruct x eqn:?
           end;
    try discriminate; injection H as <-;
    unfold safeConfig;
    cbn [parser slots mainLine rootChildren child units setMain setChild
         setParser setChildNode setSlots setUnits schemaDefinition setWg
         setBlankNodeGetter];
    repeat match goal with
           | H : Forall _ (_ :: _) |- _ => apply Forall_cons_1 in H as [? ?]
           end;
    (split; [| split; [| split; [| split]]]);
    try assumption; try discriminate;
    try match goal with
        | H : ?x = [] |- Forall _ ?x => rewrite H; constructor
        end.
  - apply Forall_app. split; [assumption | repeat constructor].
  - apply Forall_app. split; [assumption|].
    constructor; [apply unitOK_newUnit; assumption | constructor].
Qed.

Lemma run_safe (schedule : list Thread) (c c' : Config) :
  run schedule c = Some c' -> safeConfig c -> safeConfig c'.
Proof.
  revert c. induction schedule as [|t schedule IH]; intros c; cbn [run].
  - now intros [= <-].
  - destruct (step t c) as [c1|] eqn:Hs; [|discriminate].
    intros Hr Hc. apply (IH c1 Hr).
    destruct t; [exact (stepMain_safe c c1 Hs Hc) | exact (stepUnit_safe i c c1 Hs Hc)].
Qed.

Lemma startOf_safe (document : string) (c : Config) :
  startOf document = Some c ->
  Forall (subjectOK (schemaDefinition (parser c))) (rootChildren c) ->
  safeConfig c /\ slotsInvariant c /\ exactCounter c.
Proof.
  intros Hs Hroot. destruct (startOf_shape _ _ Hs) as (sd & children & ->).
  split; [|split].
  - unfold safeConfig. cbn in *.
    repeat apply conj; try constructor; try discriminate; try assumption.
    + now left.
    + constructor.
  - repeat apply conj; cbn; [intros i u Hu; discriminate | lia | discriminate].
  - split; cbn; [reflexivity | intros [|]; discriminate].
Qed.

Lemma stepLocal_none (p : Parser) (sl : list (option error)) (u : Unit) :
  stepLocal p sl u = None -> line u = Returned \/ line u = Finished.
Proof.
  unfold stepLocal. intros H.
  destruct (line u);
    repeat match type of H with
           | context [match ?x with _ => _ end] => destruct x
           end;
    try discriminate; auto.
Qed.

Lemma sumOutstanding_finished (us : list Unit) :
  Forall (fun u => line u = Finished) us -> sumOutstanding us = 0.
Proof.
  induction 1 as [|u us Hu _ IH]; [reflexivity|].
  cbn [sumOutstanding]. unfold outstanding. rewrite Hu, IH. reflexivity.
Qed.

(** Where no thread can step, on such a document, [Parse] has returned nil
    and every goroutine has finished. *)
Lemma stuck_returned_nil (c : Config) :
  safeConfig c -> exactCounter c -> (forall t, step t c = None) ->
  mainLine c = MReturned None /\ Forall (fun u => line u = Finished) (units c).
Proof.
  intros (Hsl & Hm & _ & _ & Hunits) [Heq _] Hstuck.
  assert (Hall : Forall (fun u => line u = Finished) (units c)).
  { rewrite Forall_lookup in *. intros i u Hu.
    pose proof (Hstuck (Go i)) as Hi. cbn [step] in Hi. unfold stepUnit in Hi.
    rewrite Hu in Hi.
    destruct (stepLocal (parser c) (slots c) u) as [[[[u' p'] sl'] st]|] eqn:Hs;
      [discriminate|].
    destruct (stepLocal_none _ _ _ Hs) as [Hr | Hf]; [|exact Hf].
    destruct (Hunits i u Hu) as [Hnr _]. contradiction. }
  split; [|exact Hall].
  pose proof (Hstuck Main) as Hmain. cbn [step] in Hmain. unfold stepMain in Hmain.
  rewrite (readSlot_all_nil _ _ Hsl) in Hmain.
  unfold totalOutstanding in Heq. rewrite (sumOutstanding_finished _ Hall) in Heq.
  destruct (mainLine c) as [| | | | | | | |[e|]] eqn:Hl;
    repeat match type of Hmain with
           | context [match ?x with _ => _ end] => destruct x eqn:?
           end;
    try discriminate; try reflexivity.
  - cbn in Heq. lia.
  - exfalso. exact (Hm e eq_refl).
Qed.

(** Some thread can step, or none can. *)
Lemma step_or_stuck (c : Config) :
  (exists t c', step t c = Some c') \/ (forall t, step t c = None).
Proof.
  destruct (stepMain c) as [c'|] eqn:Hm; [left; exists Main, c'; exact Hm|].
  destruct (Forall_Exists_dec
              (fun u => stepLocal (parser c) (slots c) u = None)
              (fun u => is_Some (stepLocal (parser c) (slots c) u))
              (fun u => match stepLocal (parser c) (slots c) u as o
                              return {o = None} + {is_Some o} with
                        | None => left eq_refl
                        | Some x => right (ex_intro _ x eq_refl)
                        end)
              (units c)) as [Hall | Hex].
  - right. intros [|i]; [exact Hm|]. cbn [step]. unfold stepUnit.
    destruct (units c !! i) as [u|] eqn:Hu; [|reflexivity].
    rewrite Forall_lookup in Hall. now rewrite (Hall i u Hu).
  - left. apply Exists_exists in Hex as (u & Hin & [[[[u' p'] sl'] st] Hs]).
    apply list_elem_of_lookup_1 in Hin as [i Hi].
    exists (Go i). eexists. cbn [step]. unfold stepUnit. rewrite Hi, Hs. reflexivity.
Qed.

Lemma safe_can_finish (n : nat) (c : Config) :
  (workLeft c <= n)%nat ->
  safeConfig c -> slotsInvariant c -> exactCounter c ->
  exists schedule c',
    run schedule c = Some c' /\ mainLine c' = MReturned None
    /\ Forall (fun u => line u = Finished) (units c').
Proof.
  revert c. induction n as [|n IH]; intros c Hn Hsafe Hslots Hexact;
    (destruct (step_or_stuck c) as [(t & c1 & Hs) | Hstuck];
     [| exists [], c; destruct (stuck_returned_nil c Hsafe Hexact Hstuck);
        repeat apply conj; [reflexivity | assumption | assumption] ]).
  - pose proof (step_work _ _ _ Hs). lia.
  - pose proof (step_work _ _ _ Hs) as Hw.
    assert (Hr : run [t] c = Some c1) by (cbn [run]; now rewrite Hs).
    destruct (run_slots_exact [t] c c1 Hr (conj Hslots Hexact)) as [Hslots1 Hexact1].
    destruct (IH c1 ltac:(lia) (run_safe [t] c c1 Hr Hsafe) Hslots1 Hexact1)
      as (schedule & c' & Hrun & Hres).
    exists (t :: schedule), c'. cbn [run]. rewrite Hs. split; assumption.
Qed.

(** X19.  On a document whose subject elements with children all have a
    declared prefix, no error variable is ever set, no call of [parseBlock]
    returns from inside its loops and [Parse] does not return an error,
    whatever the order of the threads. *)
Theorem Parse_finds_no_error_on_declared_prefixes (document : string)
    (schedule : list Thread) (c0 c : Config) :
  startOf document = Some c0 ->
  Forall (subjectOK (schemaDefinition (parser c0))) (rootChildren c0) ->
  run schedule c0 = Some c ->
  Forall (fun e => e = None) (slots c)
  /\ ~ returnedEarly c
  /\ forall e, mainLine c <> MReturned (Some e).
Proof.
  intros Hs Hroot Hrun. destruct (startOf_safe _ _ Hs Hroot) as (Hsafe & _).
  destruct (run_safe _ _ _ Hrun Hsafe) as (Hsl & Hm & _ & _ & Hunits).
  repeat apply conj; [exact Hsl | | exact Hm].
  intros (i & u & Hu & Hl). rewrite Forall_lookup in Hunits.
  destruct (Hunits i u Hu) as [Hnr _]. contradiction.
Qed.

(** X20.  On such a document an execution in which no thread can step has
    ended well: [Parse] has returned nil and every goroutine has run to its
    [wg.Done()]. *)
Theorem Parse_stuck_only_after_returning_nil (document : string)
    (schedule : list Thread) (c0 c : Config) :
  startOf document = Some c0 ->
  Forall (subjectOK (schemaDefinition (parser c0))) (rootChildren c0) ->
  run schedule c0 = Some c ->
  (forall t, step t c = None) ->
  mainLine c = MReturned None /\ Forall (fun u => line u = Finished) (units c).
Proof.
  intros Hs Hroot Hrun Hstuck.
  destruct (startOf_safe _ _ Hs Hroot) as (Hsafe & Hslots & Hexact).
  destruct (run_slots_exact _ _ _ Hrun (conj Hslots Hexact)) as [_ Hexact'].
  exact (stuck_returned_nil c (run_safe _ _ _ Hrun Hsafe) Hexact' Hstuck).
Qed.

(** X21.  On such a document every execution can be continued until
    [Parse] returns nil with every goroutine finished. *)
Theorem Parse_can_always_finish (document : string)
    (schedule : list Thread) (c0 c : Config) :
  startOf document = Some c0 ->
  Forall (subjectOK (schemaDefinition (parser c0))) (rootChildren c0) ->
  run schedule c0 = Some c ->
  exists rest c',
    run (schedule ++ rest) c0 = Some c' /\ mainLine c' = MReturned None
    /\ Forall (fun u => line u = Finished) (units c').
Proof.
  intros Hs Hroot Hrun.
  destruct (startOf_safe _ _ Hs Hroot) as (Hsafe & Hslots & Hexact).
  destruct (run_slots_exact _ _ _ Hrun (conj Hslots Hexact)) as [Hslots' Hexact'].
  destruct (safe_can_finish (workLeft c) c (le_n _) (run_safe _ _ _ Hrun Hsafe)
              Hslots' Hexact') as (rest & c' & Hrest & Hres).
  exists rest, c'. rewrite run_app, Hrun. split; assumption.
Qed.

End SafeExecutions.

Lemma nestedDocument_start :
  startOf nestedDocument = Some (configAfter nestedDocument [])
  /\ rootChildren (configAfter nestedDocument []) = [exKnows].
Proof. split; vm_compute; reflexivity. Qed.

Lemma nestedDocument_declared :
  Forall (subjectOK (schemaDefinition (parser (configAfter nestedDocument []))))
         (rootChildren (configAfter nestedDocument [])).
Proof.
  rewrite (proj2 nestedDocument_start).
  assert (Hex : is_Some (schemaDefinition (parser (configAfter nestedDocument []))
                           !! "ex"))
    by (exists (mkStringURI "http://ex.org/" ""); vm_compute; reflexivity).
  repeat first [ apply List.Forall_nil
               | apply List.Forall_cons
               | apply subject_ok
               | left; reflexivity
               | right; exact Hex ].
Qed.

Lemma run_length_bounded_witness :
  (length nestedRun + workLeft (configAfter nestedDocument nestedRun)
   <= workLeft (configAfter nestedDocument []))%nat.
Proof.
  apply (run_length_bounded nestedRun). vm_compute. reflexivity.
Defined.

Lemma Parse_finds_no_error_on_declared_prefixes_witness :
  Forall (fun e => e = None) (slots (configAfter nestedDocument nestedStart))
  /\ ~ returnedEarly (configAfter nestedDocument nestedStart)
  /\ forall e, mainLine (configAfter nestedDocument nestedStart)
               <> MReturned (Some e).
Proof.
  apply (Parse_finds_no_error_on_declared_prefixes nestedDocument nestedStart
           (configAfter nestedDocument [])).
  - vm_compute. reflexivity.
  - exact nestedDocument_declared.
  - vm_compute. reflexivity.
Defined.

Lemma Parse_stuck_only_after_returning_nil_witness :
  mainLine (configAfter nestedDocument nestedRun) = MReturned None
  /\ Forall (fun u => line u = Finished)
            (units (configAfter nestedDocument nestedRun)).
Proof.
  apply (Parse_stuck_only_after_returning_nil nestedDocument nestedRun
           (configAfter nestedDocument [])).
  - vm_compute. reflexivity.
  - exact nestedDocument_declared.
  - vm_compute. reflexivity.
  - intros [|[|[|i]]]; vm_compute; reflexivity.
Defined.

Lemma Parse_can_always_finish_witness :
  exists rest c',
    run (nestedStart ++ rest) (configAfter nestedDocument []) = Some c'
    /\ mainLine c' = MReturned None
    /\ Forall (fun u => line u = Finished) (units c').
Proof.
  apply (Parse_can_always_finish nestedDocument nestedStart
           (configAfter nestedDocument [])
           (configAfter nestedDocument nestedStart)).
  - vm_compute. reflexivity.
  - exact nestedDocument_declared.
  - vm_compute. reflexivity.
Defined.
